(** * aisu_prime_generator: primality oracle, residue wheel and lazy streams

    A shallow embedding of [aisu_prime_generator.py].  Python integers are
    unbounded, so they are modelled by [Z]; [%] and [//] are floor
    operations, which is what [Z.modulo] and [Z.div] compute.  Exceptions
    and non-termination are explicit: every operation that can raise or loop
    returns an [outcome]. *)

From Stdlib Require Import ZArith NArith Nnat List Lia Bool Sorted.
From Stdlib Require Import Znumtheory Zcong Permutation.
From Stdlib Require String Ascii DecimalString.
From Stdlib Require Import Uint63 Zmod.
Import ListNotations.
Local Open Scope Z_scope.

(** ** Outcomes of running Python code *)

Inductive exn : Set :=
| ZeroDivisionError
| ValueError
| StopIteration.

Inductive outcome (A : Type) : Type :=
| Ret (a : A)          (* normal completion *)
| Raise (e : exn)      (* an exception propagates *)
| Diverge.             (* the fuel of a loop ran out *)

Arguments Ret {A} a.
Arguments Raise {A} e.
Arguments Diverge {A}.

Definition bind {A B : Type} (c : outcome A) (k : A -> outcome B) : outcome B :=
  match c with
  | Ret a => k a
  | Raise e => Raise e
  | Diverge => Diverge
  end.

Notation "x <- c ;; k" := (bind c (fun x => k))
  (at level 61, c at next level, right associativity).

(** ** Python's integer primitives *)

Module Py.

(** [a % b] *)
Definition mod_ (a b : Z) : outcome Z :=
  if b =? 0 then Raise ZeroDivisionError else Ret (a mod b).

(** [a // b] *)
Definition floordiv (a b : Z) : outcome Z :=
  if b =? 0 then Raise ZeroDivisionError else Ret (a / b).

(** Square-and-multiply along the binary digits of the exponent, reducing
    after every product. *)
Fixpoint pow_mod_pos (a : Z) (e : positive) (n : Z) : Z :=
  match e with
  | xH => a mod n
  | xO e' => let y := pow_mod_pos a e' n in (y * y) mod n
  | xI e' => let y := pow_mod_pos a e' n in (((y * y) mod n) * a) mod n
  end.

Definition pow_mod (a e n : Z) : Z :=
  match e with
  | Z0 => 1 mod n
  | Zpos p => pow_mod_pos a p n
  | Zneg _ => 0
  end.

(** [pow(a, e, n)]: the three-argument built-in.  A zero modulus raises
    [ValueError]; a negative exponent goes through the modular inverse and
    raises [ValueError] when the base is not invertible. *)
Definition pow3 (a e n : Z) : outcome Z :=
  if n =? 0 then Raise ValueError
  else if e <? 0 then
    if Z.gcd a n =? 1 then Ret (pow_mod (Z.invmod a n) (- e) n)
    else Raise ValueError
  else Ret (pow_mod a e n).

(** [range(n)]: the [k] consecutive integers from [lo] on, for [range(n)]
    the [n] integers from [0] on (none when [n <= 0]). *)
Fixpoint range_from (k : nat) (lo : Z) : list Z :=
  match k with
  | O => []
  | S k' => lo :: range_from k' (lo + 1)
  end.

Definition range (n : Z) : list Z := range_from (Z.to_nat n) 0.

End Py.

(** ** Primality (64-bit deterministic Miller-Rabin) *)

Definition small : list Z := [2; 3; 5; 7; 11; 13; 17; 19; 23; 29; 31; 37].

Definition bases : list Z :=
  [2; 325; 9375; 28178; 450775; 9780504; 1795265022].

(** [for p in small: if n == p: return True; if n % p == 0: return False].
    [Some b] is an early [return b], [None] is falling out of the loop. *)
Fixpoint trial_small (n : Z) (ps : list Z) : outcome (option bool) :=
  match ps with
  | [] => Ret None
  | p :: ps' =>
      if n =? p then Ret (Some true)
      else
        r <- Py.mod_ n p ;;
        if r =? 0 then Ret (Some false) else trial_small n ps'
  end.

(** [while d % 2 == 0: d //= 2; s += 1], one unit of fuel per test of the
    loop condition. *)
Fixpoint split_twos (fuel : nat) (d s : Z) : outcome (Z * Z) :=
  match fuel with
  | O => Diverge
  | S fuel' =>
      r <- Py.mod_ d 2 ;;
      if r =? 0 then
        d' <- Py.floordiv d 2 ;;
        split_twos fuel' d' (s + 1)
      else Ret (d, s)
  end.

(** [for _ in range(s - 1): x = (x * x) % n; if x == n - 1: break].
    The result is [true] when the loop was left by [break] and [false] when
    it was exhausted, which is when the [else] clause runs. *)
Fixpoint square_loop (k : nat) (x n : Z) : outcome bool :=
  match k with
  | O => Ret false
  | S k' =>
      x' <- Py.mod_ (x * x) n ;;
      if x' =? n - 1 then Ret true else square_loop k' x' n
  end.

(** The body of [for a in bases], for one base: [true] is [continue] (the
    base does not expose [n]), [false] is [return False]. *)
Definition witness_passes (a d s n : Z) : outcome bool :=
  a' <- Py.mod_ a n ;;
  if a' =? 0 then Ret true
  else
    x <- Py.pow3 a' d n ;;
    if (x =? 1) || (x =? n - 1) then Ret true
    else square_loop (Z.to_nat (s - 1)) x n.

Fixpoint witness_loop (bs : list Z) (d s n : Z) : outcome bool :=
  match bs with
  | [] => Ret true
  | a :: bs' =>
      ok <- witness_passes a d s n ;;
      if ok then witness_loop bs' d s n else Ret false
  end.

Definition is_prime_64_run (fuel : nat) (n : Z) : outcome bool :=
  if n <? 2 then Ret false
  else
    t <- trial_small n small ;;
    match t with
    | Some b => Ret b
    | None =>
        ds <- split_twos fuel (n - 1) 0 ;;
        witness_loop bases (fst ds) (snd ds) n
    end.

(** Fuel that always suffices: the loop halves [n - 1] at most
    [log2 n] times. *)
Definition fuel_for (n : Z) : nat := S (Z.to_nat (Z.log2 n)).

(** The oracle as a function; the run returns with this fuel, so the
    default branch is never taken. *)
Definition is_prime_64 (n : Z) : bool :=
  match is_prime_64_run (fuel_for n) n with
  | Ret b => b
  | _ => false
  end.

(** ** Congruence constraints *)

(** [(modulus, forbidden_residue)] *)
Definition ForbiddenCongruence : Type := (Z * Z)%type.

(** [for m, r in forbidden: if n % m == r: return False] and [return True]
    after the loop. *)
Fixpoint passes_forbidden (n : Z) (rules : list ForbiddenCongruence)
  : outcome bool :=
  match rules with
  | [] => Ret true
  | (m, r) :: rules' =>
      x <- Py.mod_ n m ;;
      if x =? r then Ret false else passes_forbidden n rules'
  end.

(** ** Wheel construction from constraints *)

Record Wheel : Type := mkWheel {
  M : Z;
  residues : list Z;
  forbidden : list ForbiddenCongruence
}.

(** The first loop of [build_wheel], started from the current [mods] and
    [M]: a modulus not yet seen is appended and multiplied in. *)
Fixpoint scan_moduli (rules : list ForbiddenCongruence) (mods : list Z)
  (acc : Z) : list Z * Z :=
  match rules with
  | [] => (mods, acc)
  | (m, _) :: rules' =>
      if existsb (Z.eqb m) mods then scan_moduli rules' mods acc
      else scan_moduli rules' (mods ++ [m]) (acc * m)
  end.

(** [[r for r in rs if passes_forbidden(r, forbidden)]] *)
Fixpoint keep_passing (rs : list Z) (rules : list ForbiddenCongruence)
  : outcome (list Z) :=
  match rs with
  | [] => Ret []
  | r :: rs' =>
      ok <- passes_forbidden r rules ;;
      kept <- keep_passing rs' rules ;;
      Ret (if ok then r :: kept else kept)
  end.

Definition build_wheel (rules : list ForbiddenCongruence) : outcome Wheel :=
  let period := snd (scan_moduli rules [] 1) in
  kept <- keep_passing (Py.range period) rules ;;
  Ret {| M := period; residues := kept; forbidden := rules |}.

(** ** Streams *)

(** What one [next()] on a generator object does: it yields a value and
    leaves the generator suspended in a new state, or an exception leaves
    it and the generator is left in the state [g], or it runs forever. *)
Inductive gen_step (G : Type) : Type :=
| Yield (n : Z) (g : G)
| GRaise (e : exn) (g : G)
| GDiverge.

Arguments Yield {G} n g.
Arguments GRaise {G} e g.
Arguments GDiverge {G}.

(** Where a [candidate_stream] generator is: before its first statement;
    suspended at the [yield], with the block index [q] and the residues
    the [for] loop has still to visit; or finished, which is how an
    exception that leaves the body leaves the generator. *)
Inductive cand_pc : Type :=
| CFresh
| CLoop (q : Z) (rest : list Z)
| CDone.

(** A generator object owns its arguments and its cursor. *)
Record cand_gen : Type := mkCand {
  cg_wheel : Wheel;
  cg_start : Z;
  cg_pc : cand_pc
}.

(** Calling [candidate_stream(wheel, start)] runs nothing yet. *)
Definition candidate_stream (wheel : Wheel) (start : Z) : cand_gen :=
  {| cg_wheel := wheel; cg_start := start; cg_pc := CFresh |}.

(** The [while True] loop, resumed inside the [for] loop.  Each iteration
    of either loop costs one unit of fuel. *)
Fixpoint cand_run (fuel : nat) (wheel : Wheel) (start q : Z)
  (rest : list Z) : gen_step cand_gen :=
  match fuel with
  | O => GDiverge
  | S fuel' =>
      match rest with
      | r :: rest' =>
          let n := q * M wheel + r in
          if n >=? start then
            Yield n {| cg_wheel := wheel; cg_start := start;
                       cg_pc := CLoop q rest' |}
          else cand_run fuel' wheel start q rest'
      | [] => cand_run fuel' wheel start (q + 1) (residues wheel)
      end
  end.

(** [next(g)]: a fresh generator starts its body, a suspended one goes on
    after the [yield], and a finished one raises [StopIteration]. *)
Definition cand_next (fuel : nat) (g : cand_gen) : gen_step cand_gen :=
  let wheel := cg_wheel g in
  let start := cg_start g in
  match cg_pc g with
  | CFresh =>
      match Py.floordiv start (M wheel) with
      | Ret q => cand_run fuel wheel start q (residues wheel)
      | Raise e =>
          GRaise e {| cg_wheel := wheel; cg_start := start; cg_pc := CDone |}
      | Diverge => GDiverge
      end
  | CLoop q rest => cand_run fuel wheel start q rest
  | CDone => GRaise StopIteration g
  end.

Definition default_forbidden : list ForbiddenCongruence :=
  [(2, 0); (3, 0); (5, 0); (7, 0); (11, 0); (13, 0)].

Inductive prime_pc : Type :=
| PFresh
| PLoop (wheel : Wheel) (cands : cand_gen)
| PDone.

Record prime_gen : Type := mkPrimes {
  pg_forbidden : option (list ForbiddenCongruence);
  pg_start : Z;
  pg_pc : prime_pc
}.

Definition primes (rules : option (list ForbiddenCongruence)) (start : Z)
  : prime_gen :=
  {| pg_forbidden := rules; pg_start := start; pg_pc := PFresh |}.

(** The [for n in candidate_stream(...)] loop of [primes], parameterised by
    the filter applied to a candidate, so that the loop without the
    re-check can be compared with the loop of the source.  An exception
    out of [next()] on the candidates or out of the filter leaves the body
    and finishes the generator; were it [StopIteration] out of the
    candidates, the [for] loop and with it the body would end, which
    finishes the generator with [StopIteration] as well. *)
Section PrimeLoop.

Variable accept : Wheel -> Z -> outcome bool.
Variable rules : option (list ForbiddenCongruence).
Variable start : Z.

Fixpoint primes_run (fuel : nat) (wheel : Wheel) (cands : cand_gen)
  : gen_step prime_gen :=
  match fuel with
  | O => GDiverge
  | S fuel' =>
      match cand_next fuel cands with
      | Yield n cands' =>
          match accept wheel n with
          | Ret true =>
              Yield n {| pg_forbidden := rules; pg_start := start;
                         pg_pc := PLoop wheel cands' |}
          | Ret false => primes_run fuel' wheel cands'
          | Raise e =>
              GRaise e {| pg_forbidden := rules; pg_start := start;
                          pg_pc := PDone |}
          | Diverge => GDiverge
          end
      | GRaise e _ =>
          GRaise e {| pg_forbidden := rules; pg_start := start;
                      pg_pc := PDone |}
      | GDiverge => GDiverge
      end
  end.

End PrimeLoop.

(** [if not passes_forbidden(n, wheel.forbidden): continue] followed by
    [if is_prime_64(n): yield n]. *)
Definition accept_checked (wheel : Wheel) (n : Z) : outcome bool :=
  ok <- passes_forbidden n (forbidden wheel) ;;
  if ok then Ret (is_prime_64 n) else Ret false.

(** The filter with the re-check left out. *)
Definition accept_unchecked (_ : Wheel) (n : Z) : outcome bool :=
  Ret (is_prime_64 n).

Definition primes_next_with (accept : Wheel -> Z -> outcome bool)
  (fuel : nat) (g : prime_gen) : gen_step prime_gen :=
  match pg_pc g with
  | PFresh =>
      let rules :=
        match pg_forbidden g with
        | None => default_forbidden
        | Some rs => rs
        end in
      match build_wheel rules with
      | Ret wheel =>
          primes_run accept (pg_forbidden g) (pg_start g) fuel wheel
            (candidate_stream wheel (pg_start g))
      | Raise e =>
          GRaise e {| pg_forbidden := pg_forbidden g; pg_start := pg_start g;
                      pg_pc := PDone |}
      | Diverge => GDiverge
      end
  | PLoop wheel cands =>
      primes_run accept (pg_forbidden g) (pg_start g) fuel wheel cands
  | PDone => GRaise StopIteration g
  end.

Definition primes_next : nat -> prime_gen -> gen_step prime_gen :=
  primes_next_with accept_checked.

Definition primes_next_unchecked : nat -> prime_gen -> gen_step prime_gen :=
  primes_next_with accept_unchecked.

(** ** Driving a generator *)

(** What a [next()] that returns hands to its caller: a value, or an
    exception. *)
Inductive event : Set :=
| Yielded (n : Z)
| Raised (e : exn).

Section Drive.

Context {G : Type}.
Variable next : nat -> G -> gen_step G.

(** The list of the first [k] values, each [next()] given [fuel]. *)
Fixpoint first_n (fuel : nat) (k : nat) (g : G) : outcome (list Z) :=
  match k with
  | O => Ret []
  | S k' =>
      match next fuel g with
      | Yield n g' => l <- first_n fuel k' g' ;; Ret (n :: l)
      | GRaise e _ => Raise e
      | GDiverge => Diverge
      end
  end.

(** [emits g l g']: consecutive [next()] calls on [g] yield the values
    [l] in this order and leave the generator in state [g']. *)
Inductive emits : G -> list Z -> G -> Prop :=
| emits_nil g : emits g [] g
| emits_cons g fuel n g1 l g2 :
    next fuel g = Yield n g1 -> emits g1 l g2 -> emits g (n :: l) g2.

(** [trace g t g']: consecutive [next()] calls on [g], each of which
    returns, hand back the events [t] in this order and leave the
    generator in state [g'].  The caller goes on after an exception. *)
Inductive trace : G -> list event -> G -> Prop :=
| trace_nil g : trace g [] g
| trace_yield g fuel n g1 t g2 :
    next fuel g = Yield n g1 -> trace g1 t g2 ->
    trace g (Yielded n :: t) g2
| trace_raise g fuel e g1 t g2 :
    next fuel g = GRaise e g1 -> trace g1 t g2 ->
    trace g (Raised e :: t) g2.

End Drive.

(** ** Generator objects in a store *)

(** Python hands objects around by reference.  A call
    [candidate_stream(wheel, start)] receives a reference to a [Wheel]
    object, which other calls may hold as well, and makes a generator
    object of its own; [next(g)] reaches the generator through its
    reference.  The store holds the objects, and a reference is a position
    in it. *)
Definition ref : Type := nat.

Bind Scope nat_scope with ref.

(** What a [candidate_stream] generator object holds: its arguments until
    the body starts, and from then on the state of the body, with [M] and
    [residues] as the first statement has read them off the wheel. *)
Inductive frame : Type :=
| FArgs (wheel : ref) (start : Z)
| FBody (locals : cand_gen).

Inductive object : Type :=
| OWheel (wheel : Wheel)
| OCand (f : frame).

Definition store : Type := list object.

Definition lookup (s : store) (r : ref) : option object := nth_error s r.

Fixpoint update (s : store) (r : ref) (o : object) : store :=
  match s, r with
  | [], _ => []
  | _ :: s', O => o :: s'
  | x :: s', S r' => x :: update s' r' o
  end.

(** [candidate_stream(wheel, start)]: the reference to the new generator
    object, and the store with the object in it.  Nothing of the body
    runs. *)
Definition new_cand (s : store) (wheel : ref) (start : Z) : ref * store :=
  (length s, s ++ [OCand (FArgs wheel start)]).

(** The state [next()] resumes: a generator that has not started reads
    [wheel.M] and [wheel.residues] through its argument now. *)
Definition resume (s : store) (f : frame) : option cand_gen :=
  match f with
  | FArgs w start =>
      match lookup s w with
      | Some (OWheel wheel) => Some (candidate_stream wheel start)
      | _ => None
      end
  | FBody locals => Some locals
  end.

(** [next(g)] on the object [g] refers to, in the store [s]: the step of
    the body, and the store in which the generator object holds the new
    state.  [None] when [g] does not refer to a generator object whose
    argument is a [Wheel]; the calls of [candidate_stream] on wheels make
    no such object. *)
Definition next_cand (fuel : nat) (s : store) (g : ref)
  : option (gen_step store) :=
  match lookup s g with
  | Some (OCand f) =>
      match resume s f with
      | Some state =>
          Some
            match cand_next fuel state with
            | Yield n state' => Yield n (update s g (OCand (FBody state')))
            | GRaise e state' => GRaise e (update s g (OCand (FBody state')))
            | GDiverge => GDiverge
            end
      | None => None
      end
  | _ => None
  end.

(** What a program does with streams: it calls [candidate_stream] on a
    wheel it holds, or [next] on a generator it holds. *)
Inductive call : Type :=
| CallStream (wheel : ref) (start : Z)
| CallNext (g : ref).

(** [runs s log s']: a sequence of such calls, each of which returns,
    takes the store [s] to [s']; [log] has an entry for every [next()],
    the generator it was called on and what it handed back. *)
Inductive runs : store -> list (ref * event) -> store -> Prop :=
| runs_nil s : runs s [] s
| runs_stream s w start log s' :
    runs (snd (new_cand s w start)) log s' -> runs s log s'
| runs_yield s fuel g n s1 log s' :
    next_cand fuel s g = Some (Yield n s1) -> runs s1 log s' ->
    runs s ((g, Yielded n) :: log) s'
| runs_raise s fuel g e s1 log s' :
    next_cand fuel s g = Some (GRaise e s1) -> runs s1 log s' ->
    runs s ((g, Raised e) :: log) s'.

(** The same, computed: the calls of [calls] in order, every [next()]
    with [fuel].  [None] when a call does not return within its fuel or
    has no meaning. *)
Fixpoint drive (fuel : nat) (calls : list call) (s : store)
  : option (list (ref * event) * store) :=
  match calls with
  | [] => Some ([], s)
  | CallStream w start :: calls' =>
      drive fuel calls' (snd (new_cand s w start))
  | CallNext g :: calls' =>
      match next_cand fuel s g with
      | Some (Yield n s1) =>
          match drive fuel calls' s1 with
          | Some (log, s') => Some ((g, Yielded n) :: log, s')
          | None => None
          end
      | Some (GRaise e s1) =>
          match drive fuel calls' s1 with
          | Some (log, s') => Some ((g, Raised e) :: log, s')
          | None => None
          end
      | _ => None
      end
  end.

(** The generator object [g] of the store [s] is in the state [state]. *)
Definition cand_at (s : store) (g : ref) (state : cand_gen) : Prop :=
  exists f : frame, lookup s g = Some (OCand f) /\ resume s f = Some state.

(** What the generator [g] has handed back in a run, in order. *)
Definition events_of (g : ref) (log : list (ref * event)) : list event :=
  map snd (filter (fun entry => Nat.eqb (fst entry) g) log).

(** ** The oracle without exceptions and fuel *)

(** The values the loops of [is_prime_64] compute, without the
    bookkeeping of exceptions and fuel.  [trial_pure] is the loop over
    [small]. *)
Fixpoint trial_pure (n : Z) (ps : list Z) : option bool :=
  match ps with
  | [] => None
  | p :: ps' =>
      if n =? p then Some true
      else if n mod p =? 0 then Some false
      else trial_pure n ps'
  end.

(** What the halving loop leaves of [d]: its odd part. *)
Fixpoint odd_part (p : positive) : positive :=
  match p with
  | xO p' => odd_part p'
  | _ => p
  end.

(** How often the halving loop runs: the final [s]. *)
Fixpoint two_val (p : positive) : Z :=
  match p with
  | xO p' => 1 + two_val p'
  | _ => 0
  end.

(** The squaring loop: does it reach [n - 1] within [k] rounds? *)
Fixpoint squares (k : nat) (x n : Z) : bool :=
  match k with
  | O => false
  | S k' =>
      let x' := (x * x) mod n in
      if x' =? n - 1 then true else squares k' x' n
  end.

(** One base: does [n] pass it? *)
Definition witness_ok (a d s n : Z) : bool :=
  let a' := a mod n in
  if a' =? 0 then true
  else
    let x := Py.pow_mod a' d n in
    if (x =? 1) || (x =? n - 1) then true
    else squares (Z.to_nat (s - 1)) x n.

(** The whole oracle. *)
Definition is_prime_pure (n : Z) : bool :=
  if n <? 2 then false
  else
    match trial_pure n small with
    | Some b => b
    | None =>
        match n - 1 with
        | Zpos p =>
            forallb (fun a => witness_ok a (Zpos (odd_part p)) (two_val p) n)
              bases
        | _ => false
        end
    end.

(** ** The wheel without exceptions *)

(** [passes_forbidden] where no modulus is zero. *)
Fixpoint passes_pure (n : Z) (rules : list ForbiddenCongruence) : bool :=
  match rules with
  | [] => true
  | (m, r) :: rules' =>
      if n mod m =? r then false else passes_pure n rules'
  end.

(** [M] as the first loop of [build_wheel] leaves it. *)
Definition period (rules : list ForbiddenCongruence) : Z :=
  snd (scan_moduli rules [] 1).

(** [residues] as the comprehension of [build_wheel] leaves it. *)
Definition survivors (rules : list ForbiddenCongruence) : list Z :=
  filter (fun r => passes_pure r rules) (Py.range (period rules)).

(** A pair the data model rules out: a modulus below 2, or a residue
    outside [0, modulus). *)
Definition malformed (rule : ForbiddenCongruence) : bool :=
  let (m, r) := rule in (m <? 2) || (r <? 0) || (m <=? r).

(** The invariant of the data model on a wheel: the residues ascend
    strictly and lie in [0, M). *)
Definition wheel_ok (wheel : Wheel) : Prop :=
  StronglySorted Z.lt (residues wheel) /\
  Forall (fun r => 0 <= r < M wheel) (residues wheel).

(** [rest] is what a [for] loop over [l] has still to visit. *)
Definition suffix_of (rest l : list Z) : Prop :=
  exists visited : list Z, l = visited ++ rest.

(** The states a [candidate_stream(wheel, start)] generator can be in
    while it has not finished. *)
Definition cand_state (wheel : Wheel) (start : Z) (g : cand_gen) : Prop :=
  cg_wheel g = wheel /\ cg_start g = start /\
  match cg_pc g with
  | CFresh => True
  | CLoop _ rest => suffix_of rest (residues wheel)
  | CDone => False
  end.

(** [b] lies below everything the generator can still yield. *)
Definition below (wheel : Wheel) (start b : Z) (g : cand_gen) : Prop :=
  match cg_pc g with
  | CFresh => b < start
  | CLoop q rest =>
      (forall r, In r rest -> b < q * M wheel + r) /\ b < (q + 1) * M wheel
  | CDone => True
  end.

(** The rule list [primes] works with: the default when none is given. *)
Definition rules_of (rules : option (list ForbiddenCongruence))
  : list ForbiddenCongruence :=
  match rules with
  | None => default_forbidden
  | Some rs => rs
  end.

(** The wheel [build_wheel] returns, see [build_wheel_ret]. *)
Definition wheel_of (rules : list ForbiddenCongruence) : Wheel :=
  {| M := period rules; residues := survivors rules; forbidden := rules |}.

(** The states a [primes(rules, start)] generator can be in while it has
    not finished. *)
Definition prime_state (rules : option (list ForbiddenCongruence))
  (start : Z) (g : prime_gen) : Prop :=
  pg_forbidden g = rules /\ pg_start g = start /\
  match pg_pc g with
  | PFresh => True
  | PLoop wheel cands =>
      wheel = wheel_of (rules_of rules) /\ cand_state wheel start cands
  | PDone => False
  end.

(** ** Trial division, and the oracle on machine integers *)

(** Stated in the spec's words: [n] is prime when it is at least 2 and no
    [d] from 2 up to the square root of [n] divides it. *)
Definition trial_division (n : Z) : bool :=
  (2 <=? n) &&
  forallb (fun d => negb (n mod d =? 0))
    (Py.range_from (Z.to_nat (Z.sqrt n - 1)) 2).

(** [k] squarings modulo [n]. *)
Fixpoint sq_iter (k : nat) (x n : Z) : Z :=
  match k with
  | O => x
  | S k' => sq_iter k' ((x * x) mod n) n
  end.

(** The oracle on 63-bit machine integers, for checking it on many inputs:
    the same loops as [is_prime_pure], with the halving loop and the
    exponentiation metered by the width of the word. *)
Module Fast.

Local Open Scope uint63_scope.

Definition small : list int :=
  [2; 3; 5; 7; 11; 13; 17; 19; 23; 29; 31; 37].

Definition bases : list int :=
  [2; 325; 9375; 28178; 450775; 9780504; 1795265022].

Fixpoint trial (n : int) (ps : list int) : option bool :=
  match ps with
  | [] => None
  | p :: ps' =>
      if n =? p then Some true
      else if n mod p =? 0 then Some false
      else trial n ps'
  end.

Fixpoint split (fuel : nat) (d : int) (k : nat) : int * nat :=
  match fuel with
  | O => (d, k)
  | S fuel' => if d mod 2 =? 0 then split fuel' (d / 2) (S k) else (d, k)
  end.

Fixpoint pow_mod (fuel : nat) (a e n : int) : int :=
  match fuel with
  | O => 0
  | S fuel' =>
      if e =? 1 then a mod n
      else
        let y := pow_mod fuel' a (e / 2) n in
        let y2 := (y * y) mod n in
        if e mod 2 =? 0 then y2 else (y2 * a) mod n
  end.

Fixpoint squares (k : nat) (x n : int) : bool :=
  match k with
  | O => false
  | S k' =>
      let x' := (x * x) mod n in
      if x' =? n - 1 then true else squares k' x' n
  end.

Definition witness_ok (a d : int) (k : nat) (n : int) : bool :=
  let a' := a mod n in
  if a' =? 0 then true
  else
    let x := pow_mod 63%nat a' d n in
    if (x =? 1) || (x =? n - 1) then true
    else squares (Nat.pred k) x n.

Definition is_prime (n : int) : bool :=
  if n <? 2 then false
  else
    match trial n small with
    | Some b => b
    | None =>
        let (d, k) := split 63%nat (n - 1) 0%nat in
        forallb (fun a => witness_ok a d k n) bases
    end.

(** One round of the loop over the cofactor [b]. *)
Definition step_b (a : int) (st : int * bool) : int * bool :=
  let (b, ok) := st in (b + 1, ok && negb (is_prime (a * b))).

End Fast.

(** The bound up to which the oracle is compared with trial division. *)
Definition limit : Z := 10000000.

(** [a] has a divisor among the small primes. *)
Definition has_small_factor (a : Z) : bool :=
  existsb (fun p => a mod p =? 0) small.

(** The oracle rejects [a * b] for every [b] from [a] on with
    [a * b < limit]; nothing is run when [a] has a small factor, since
    then the trial loop rejects every multiple of [a]. *)
Definition check_factor (a : Z) : bool :=
  has_small_factor a ||
  snd (N.iter (Z.to_N ((limit - 1) / a - a + 1))
         (Fast.step_b (of_Z a)) (of_Z a, true)).

(** ** Rules, moduli and bounds of the prime stream *)

(** The rule neither trips [%] nor matches [n]. *)
Definition rule_misses (n : Z) (rule : ForbiddenCongruence) : Prop :=
  fst rule <> 0 /\ n mod fst rule <> snd rule.

(** The product of a list of moduli. *)
Definition product (ms : list Z) : Z := fold_right Z.mul 1 ms.

(** [b] lies below everything a [primes] generator can still yield. *)
Definition prime_below (start b : Z) (g : prime_gen) : Prop :=
  match pg_pc g with
  | PFresh => b < start
  | PLoop wheel cands => below wheel start b cands
  | PDone => True
  end.

(** ** Printing *)

(** The decimal digits of [x], with a minus sign when negative. *)
Definition decimal (x : Z) : String.string :=
  DecimalString.NilZero.string_of_int (Z.to_int x).

(** How many decimal digits [x] has, the sign not counted. *)
Definition digits (x : Z) : Z :=
  Z.of_nat (String.length (decimal (Z.abs x))).

(** [str(x)] for an integer.  The interpreter refuses to convert an
    integer of more than [max_digits] digits and raises [ValueError];
    [max_digits] is [sys.get_int_max_str_digits()], which is 4300 unless
    the interpreter was told otherwise, and 0 switches the limit off, as
    in the interpreters that have none. *)
Definition str (max_digits x : Z) : outcome String.string :=
  if (0 <? max_digits) && (max_digits <? digits x) then Raise ValueError
  else Ret (decimal x).

(** [str(x) for x in line], consumed from left to right. *)
Fixpoint strs (max_digits : Z) (line : list Z)
  : outcome (list String.string) :=
  match line with
  | [] => Ret []
  | x :: line' =>
      word <- str max_digits x ;;
      words <- strs max_digits line' ;;
      Ret (word :: words)
  end.

(** [" ".join(words)] *)
Fixpoint join_space (words : list String.string) : String.string :=
  match words with
  | [] => String.EmptyString
  | [w] => w
  | w :: words' =>
      String.append w
        (String.String (Ascii.ascii_of_nat 32) (join_space words'))
  end.

(** [" ".join(words) + "\n"] *)
Definition line_of (words : list String.string) : String.string :=
  String.append (join_space words)
    (String.String (Ascii.ascii_of_nat 10) String.EmptyString).

(** [" ".join(str(x) for x in line) + "\n"], what one [out.write] gets. *)
Definition render (max_digits : Z) (line : list Z) : outcome String.string :=
  words <- strs max_digits line ;; Ret (line_of words).

(** The [while printed < count] loop of [print_primes].  [out] is what has
    been written so far, one string per [out.write]; the result is what
    has been written when the loop is left, and the unwritten [line] if
    it is left normally.  One unit of [fuel] per test of the loop
    condition, [gfuel] for each [next(gen)]. *)
Fixpoint print_loop (fuel gfuel : nat) (max_digits count per_line : Z)
  (gen : prime_gen) (line : list Z) (printed : Z) (out : list String.string)
  : list String.string * outcome (list Z) :=
  match fuel with
  | O => (out, Diverge)
  | S fuel' =>
      if printed <? count then
        match primes_next gfuel gen with
        | Yield p gen' =>
            let line := line ++ [p] in
            let printed := printed + 1 in
            if Z.of_nat (length line) >=? per_line then
              match render max_digits line with
              | Ret text =>
                  print_loop fuel' gfuel max_digits count per_line gen' []
                    printed (out ++ [text])
              | Raise e => (out, Raise e)
              | Diverge => (out, Diverge)
              end
            else
              print_loop fuel' gfuel max_digits count per_line gen' line
                printed out
        | GRaise e _ => (out, Raise e)
        | GDiverge => (out, Diverge)
        end
      else (out, Ret line)
  end.

(** What a call of [print_primes] leaves behind: the strings written to
    the destination, in order; whether the destination was closed; and how
    the call ended. *)
Record printed : Type := mkPrinted {
  written : list String.string;
  closed : bool;
  ended : outcome unit
}.

(** Is the destination a file of its own, to be closed at the end? *)
Definition is_file (out_path : option String.string) : bool :=
  match out_path with
  | Some _ => true
  | None => false
  end.

(** [print_primes(count, per_line, forbidden, start, out_path)], run by an
    interpreter with the digit limit [max_digits].  The destination is
    [sys.stdout], or the file at [out_path] opened for writing; it is
    taken to accept being opened and every write.  The [finally] clause
    closes a file on every exit, and it is not reached by a call that does
    not return. *)
Definition print_primes (fuel gfuel : nat) (max_digits count per_line : Z)
  (rules : option (list ForbiddenCongruence)) (start : Z)
  (out_path : option String.string) : printed :=
  let gen := primes rules start in
  match print_loop fuel gfuel max_digits count per_line gen [] 0 [] with
  | (out, Ret []) =>
      {| written := out; closed := is_file out_path; ended := Ret tt |}
  | (out, Ret line) =>
      match render max_digits line with
      | Ret text =>
          {| written := out ++ [text]; closed := is_file out_path;
             ended := Ret tt |}
      | Raise e =>
          {| written := out; closed := is_file out_path; ended := Raise e |}
      | Diverge =>
          {| written := out; closed := false; ended := Diverge |}
      end
  | (out, Raise e) =>
      {| written := out; closed := is_file out_path; ended := Raise e |}
  | (out, Diverge) => {| written := out; closed := false; ended := Diverge |}
  end.

(** The number of values on a full row: [per_line], and 1 when [per_line]
    is smaller. *)
Definition row_width (per_line : Z) : nat := Z.to_nat (Z.max 1 per_line).

(** [x] has no more digits than the interpreter converts. *)
Definition fits (max_digits x : Z) : Prop :=
  max_digits <= 0 \/ digits x <= max_digits.

(** The text of a row: the decimal digits of its values, separated by
    single spaces, and a line break. *)
Definition row_text (row : list Z) : String.string :=
  line_of (map decimal row).

(** * Properties *)

(** ** The model on concrete inputs *)

Example is_prime_64_samples :
  map is_prime_64 [-7; 0; 1; 2; 3; 4; 37; 41; 1681; 2047; 8321; 1000003] =
  [false; false; false; true; true; false; true; true; false; false; false;
   true].
Proof. vm_compute. reflexivity. Qed.

Example is_prime_64_beyond_64_bits :
  is_prime_64_run (fuel_for (2 ^ 89 - 1)) (2 ^ 89 - 1) = Ret true /\
  is_prime_64_run (fuel_for (2 ^ 89 + 1)) (2 ^ 89 + 1) = Ret false.
Proof. split; vm_compute; reflexivity. Qed.

Example is_prime_64_starved :
  is_prime_64_run 12 12289 = Diverge /\ is_prime_64_run 13 12289 = Ret true.
Proof. split; vm_compute; reflexivity. Qed.

Example passes_forbidden_samples :
  passes_forbidden 9 default_forbidden = Ret false /\
  passes_forbidden 17 default_forbidden = Ret true /\
  passes_forbidden 3 [(2, 0); (0, 0)] = Raise ZeroDivisionError /\
  passes_forbidden 4 [(2, 0); (0, 0)] = Ret false /\
  passes_forbidden 1 [(-2, 0)] = Ret true.
Proof. repeat split. Qed.

Example build_wheel_repeated_modulus :
  build_wheel [(4, 1); (6, 1); (4, 3)] =
  Ret {| M := 24; residues := [0; 2; 4; 6; 8; 10; 12; 14; 16; 18; 20; 22];
         forbidden := [(4, 1); (6, 1); (4, 3)] |}.
Proof. reflexivity. Qed.

Example build_wheel_no_rules :
  build_wheel [] = Ret {| M := 1; residues := [0]; forbidden := [] |}.
Proof. reflexivity. Qed.

Example build_wheel_zero_modulus :
  build_wheel [(3, 1); (0, 0)] =
  Ret {| M := 0; residues := []; forbidden := [(3, 1); (0, 0)] |} /\
  cand_next 5
    (candidate_stream
       {| M := 0; residues := []; forbidden := [(3, 1); (0, 0)] |} 2)
  = GRaise ZeroDivisionError
      {| cg_wheel :=
           {| M := 0; residues := []; forbidden := [(3, 1); (0, 0)] |};
         cg_start := 2; cg_pc := CDone |} /\
  cand_next 5
    {| cg_wheel := {| M := 0; residues := []; forbidden := [(3, 1); (0, 0)] |};
       cg_start := 2; cg_pc := CDone |}
  = GRaise StopIteration
      {| cg_wheel :=
           {| M := 0; residues := []; forbidden := [(3, 1); (0, 0)] |};
         cg_start := 2; cg_pc := CDone |}.
Proof. repeat split. Qed.

Example candidate_stream_negative_start :
  first_n cand_next 3 6
    (candidate_stream
       {| M := 6; residues := [1; 5]; forbidden := [(2, 0); (3, 0)] |} (-8))
  = Ret [-7; -5; -1; 1; 5; 7].
Proof. vm_compute. reflexivity. Qed.

Example primes_from_100 :
  first_n primes_next 25 3 (primes None 100) = Ret [101; 103; 107].
Proof. vm_compute. reflexivity. Qed.

Example primes_no_rules :
  first_n primes_next 10 5 (primes (Some []) 2) = Ret [2; 3; 5; 7; 11].
Proof. vm_compute. reflexivity. Qed.

(** ** The oracle never raises and always returns *)

Section OracleIsPure.

Lemma mod_ret (a b : Z) : b <> 0 -> Py.mod_ a b = Ret (a mod b).
Proof.
  intros Hb. unfold Py.mod_.
  destruct (Z.eqb_spec b 0); [contradiction | reflexivity].
Qed.

Lemma floordiv_ret (a b : Z) : b <> 0 -> Py.floordiv a b = Ret (a / b).
Proof.
  intros Hb. unfold Py.floordiv.
  destruct (Z.eqb_spec b 0); [contradiction | reflexivity].
Qed.

Lemma pow3_ret (a e n : Z) :
  n <> 0 -> 0 <= e -> Py.pow3 a e n = Ret (Py.pow_mod a e n).
Proof.
  intros Hn He. unfold Py.pow3.
  destruct (Z.eqb_spec n 0); [contradiction |].
  destruct (Z.ltb_spec e 0); [lia | reflexivity].
Qed.

Lemma trial_small_ret (n : Z) (ps : list Z) :
  Forall (fun p => p <> 0) ps -> trial_small n ps = Ret (trial_pure n ps).
Proof.
  induction 1 as [| p ps Hp _ IH]; simpl; [reflexivity |].
  destruct (n =? p); [reflexivity |].
  rewrite (mod_ret _ _ Hp). simpl.
  destruct (n mod p =? 0); [reflexivity | exact IH].
Qed.

Lemma small_nonzero : Forall (fun p => p <> 0) small.
Proof. unfold small. repeat constructor; discriminate. Qed.

(** The halving loop stops after as many rounds as its argument has
    binary digits. *)
Lemma split_twos_ret (p : positive) :
  forall (fuel : nat) (s : Z),
    (Pos.size_nat p <= fuel)%nat ->
    split_twos fuel (Zpos p) s = Ret (Zpos (odd_part p), s + two_val p).
Proof.
  induction p as [p _ | p IH |]; intros fuel s Hf;
    (destruct fuel as [| fuel]; [simpl in Hf; lia |]).
  - cbn [split_twos]. rewrite mod_ret by discriminate.
    rewrite Pos2Z.inj_xI.
    replace ((2 * Z.pos p + 1) mod 2) with 1
      by (rewrite Z.add_comm, Z.mul_comm, Z_mod_plus_full; reflexivity).
    simpl. rewrite Z.add_0_r. reflexivity.
  - cbn [split_twos]. rewrite mod_ret by discriminate.
    rewrite Pos2Z.inj_xO.
    replace ((2 * Z.pos p) mod 2) with 0
      by (rewrite Z.mul_comm, Z_mod_mult; reflexivity).
    cbn [bind Z.eqb]. rewrite floordiv_ret by discriminate.
    replace (2 * Z.pos p / 2) with (Z.pos p)
      by (rewrite Z.mul_comm, Z_div_mult by lia; reflexivity).
    cbn [bind]. rewrite IH by (simpl in Hf; lia).
    cbn [odd_part two_val]. do 2 f_equal. lia.
  - cbn. rewrite Z.add_0_r. reflexivity.
Qed.

Lemma size_nat_log2 (p : positive) :
  Pos.size_nat p = S (Z.to_nat (Z.log2 (Zpos p))).
Proof.
  induction p as [p IH | p IH |]; simpl; try reflexivity;
    rewrite IH; simpl; destruct p; simpl; lia.
Qed.

Lemma square_loop_ret (n : Z) :
  n <> 0 -> forall k x, square_loop k x n = Ret (squares k x n).
Proof.
  intros Hn. induction k as [| k IH]; intros x; simpl; [reflexivity |].
  rewrite mod_ret by assumption. simpl.
  destruct (x * x mod n =? n - 1); [reflexivity | apply IH].
Qed.

Lemma witness_passes_ret (a d s n : Z) :
  n <> 0 -> 0 <= d -> witness_passes a d s n = Ret (witness_ok a d s n).
Proof.
  intros Hn Hd. unfold witness_passes, witness_ok.
  rewrite mod_ret by assumption. simpl.
  destruct (a mod n =? 0); [reflexivity |].
  rewrite pow3_ret by assumption. simpl.
  destruct ((Py.pow_mod (a mod n) d n =? 1)
            || (Py.pow_mod (a mod n) d n =? n - 1));
    [reflexivity | apply square_loop_ret; assumption].
Qed.

Lemma witness_loop_ret (d s n : Z) :
  n <> 0 -> 0 <= d ->
  forall bs,
    witness_loop bs d s n = Ret (forallb (fun a => witness_ok a d s n) bs).
Proof.
  intros Hn Hd. induction bs as [| a bs IH]; simpl; [reflexivity |].
  rewrite witness_passes_ret by assumption. simpl.
  destruct (witness_ok a d s n); [exact IH | reflexivity].
Qed.

Lemma is_prime_64_run_ret (n : Z) (fuel : nat) :
  (fuel_for n <= fuel)%nat -> is_prime_64_run fuel n = Ret (is_prime_pure n).
Proof.
  intros Hf. unfold is_prime_64_run, is_prime_pure.
  destruct (Z.ltb_spec n 2) as [| Hn]; [reflexivity |].
  rewrite (trial_small_ret n small small_nonzero). cbn [bind].
  destruct (trial_pure n small); [reflexivity |].
  destruct (n - 1) as [| p | p] eqn:E; try lia.
  rewrite split_twos_ret.
  - cbn [bind fst snd]. rewrite Z.add_0_l.
    apply witness_loop_ret; lia.
  - rewrite size_nat_log2. unfold fuel_for in Hf.
    assert (Z.log2 (Z.pos p) <= Z.log2 n) by (apply Z.log2_le_mono; lia).
    lia.
Qed.

Lemma is_prime_64_pure (n : Z) : is_prime_64 n = is_prime_pure n.
Proof.
  unfold is_prime_64. rewrite is_prime_64_run_ret; [reflexivity | lia].
Qed.

End OracleIsPure.

(** C10: [is_prime_64] is total on all of [Z].  For every integer [n],
    negative or beyond the 64-bit range included, the run returns one
    boolean once the halving loop has the fuel [fuel_for n], and with any
    larger fuel; it raises nothing ([n % p] divides by a nonzero constant,
    and [a % n] and [pow(a, d, n)] are reached only with [n >= 2]) and does
    not diverge. *)
Theorem is_prime_64_total (n : Z) :
  exists b : bool,
    is_prime_64 n = b /\
    forall fuel : nat,
      (fuel_for n <= fuel)%nat -> is_prime_64_run fuel n = Ret b.
Proof.
  exists (is_prime_pure n). split.
  - apply is_prime_64_pure.
  - intros fuel Hf. apply is_prime_64_run_ret, Hf.
Qed.

(** ** Wheel construction *)

Section WheelFacts.

Lemma range_from_In (k : nat) :
  forall lo r, In r (Py.range_from k lo) <-> lo <= r < lo + Z.of_nat k.
Proof.
  induction k as [| k IH]; intros lo r; cbn [Py.range_from In].
  - lia.
  - rewrite IH. lia.
Qed.

Lemma range_In (n r : Z) : In r (Py.range n) <-> 0 <= r < n.
Proof. unfold Py.range. rewrite range_from_In. lia. Qed.

Lemma range_from_sorted (k : nat) :
  forall lo, StronglySorted Z.lt (Py.range_from k lo).
Proof.
  induction k as [| k IH]; intros lo; cbn [Py.range_from]; constructor.
  - apply IH.
  - apply Forall_forall. intros r Hr. apply range_from_In in Hr. lia.
Qed.

Lemma filter_sorted (f : Z -> bool) (l : list Z) :
  StronglySorted Z.lt l -> StronglySorted Z.lt (filter f l).
Proof.
  induction 1 as [| a l Hs IH Ha]; simpl; [constructor |].
  destruct (f a); [| exact IH].
  constructor; [exact IH |].
  rewrite Forall_forall in *. intros x Hx.
  apply filter_In in Hx. apply Ha, Hx.
Qed.

Lemma passes_forbidden_ret (n : Z) (rules : list ForbiddenCongruence) :
  Forall (fun rule => fst rule <> 0) rules ->
  passes_forbidden n rules = Ret (passes_pure n rules).
Proof.
  induction 1 as [| [m r] rules Hm _ IH]; simpl; [reflexivity |].
  rewrite mod_ret by exact Hm. simpl.
  destruct (n mod m =? r); [reflexivity | exact IH].
Qed.

Lemma keep_passing_ret (rules : list ForbiddenCongruence) :
  Forall (fun rule => fst rule <> 0) rules ->
  forall rs,
    keep_passing rs rules = Ret (filter (fun r => passes_pure r rules) rs).
Proof.
  intros Hnz. induction rs as [| r rs IH]; simpl; [reflexivity |].
  rewrite passes_forbidden_ret by exact Hnz. simpl.
  rewrite IH. simpl. reflexivity.
Qed.

(** Once a zero has been multiplied in, the product stays zero. *)
Lemma scan_moduli_zero (rules : list ForbiddenCongruence) :
  forall mods, snd (scan_moduli rules mods 0) = 0.
Proof.
  induction rules as [| [m r] rules IH]; intros mods; simpl; [reflexivity |].
  destruct (existsb (Z.eqb m) mods); apply IH.
Qed.

Lemma existsb_eqb_In (m : Z) (mods : list Z) :
  existsb (Z.eqb m) mods = true <-> In m mods.
Proof.
  rewrite existsb_exists. split.
  - intros [x [Hx E]]. apply Z.eqb_eq in E. subst. exact Hx.
  - intros H. exists m. split; [exact H | apply Z.eqb_refl].
Qed.

(** A nonzero product has only nonzero factors. *)
Lemma scan_moduli_nonzero (rules : list ForbiddenCongruence) :
  forall mods acc,
    Forall (fun m => m <> 0) mods ->
    snd (scan_moduli rules mods acc) <> 0 ->
    Forall (fun rule => fst rule <> 0) rules.
Proof.
  induction rules as [| [m r] rules IH]; intros mods acc Hmods Hp;
    [constructor |].
  simpl in Hp. destruct (existsb (Z.eqb m) mods) eqn:E.
  - constructor; [| eapply IH; eassumption].
    apply existsb_eqb_In in E. rewrite Forall_forall in Hmods.
    apply Hmods, E.
  - assert (Hm : m <> 0).
    { intros ->. rewrite Z.mul_0_r, scan_moduli_zero in Hp. congruence. }
    constructor; [exact Hm |].
    eapply IH; [| exact Hp].
    apply Forall_app. split; [exact Hmods | repeat constructor; exact Hm].
Qed.

(** Every modulus, seen before or met during the scan, divides the
    product, and so does the product the scan started from. *)
Lemma scan_moduli_divide (rules : list ForbiddenCongruence) :
  forall mods acc,
    Forall (fun m => (m | acc)) mods ->
    (acc | snd (scan_moduli rules mods acc)) /\
    Forall (fun rule => (fst rule | snd (scan_moduli rules mods acc))) rules.
Proof.
  induction rules as [| [m r] rules IH]; intros mods acc Hmods; simpl.
  - split; [apply Z.divide_refl | constructor].
  - destruct (existsb (Z.eqb m) mods) eqn:E.
    + destruct (IH mods acc Hmods) as [Hacc Hall].
      split; [exact Hacc |]. constructor; [| exact Hall].
      apply existsb_eqb_In in E. rewrite Forall_forall in Hmods.
      simpl. eapply Z.divide_trans; [apply Hmods, E | exact Hacc].
    + destruct (IH (mods ++ [m]) (acc * m)) as [Hacc Hall].
      { apply Forall_app. split.
        - eapply Forall_impl; [| exact Hmods].
          intros x Hx. apply Z.divide_mul_l, Hx.
        - repeat constructor. apply Z.divide_mul_r, Z.divide_refl. }
      split.
      * eapply Z.divide_trans; [| exact Hacc].
        apply Z.divide_mul_l, Z.divide_refl.
      * constructor; [| exact Hall]. simpl.
        eapply Z.divide_trans; [| exact Hacc].
        apply Z.divide_mul_r, Z.divide_refl.
Qed.

Lemma scan_moduli_pos (rules : list ForbiddenCongruence) :
  Forall (fun rule => 0 < fst rule) rules ->
  forall mods acc, 0 < acc -> 0 < snd (scan_moduli rules mods acc).
Proof.
  induction 1 as [| [m r] rules Hm _ IH]; intros mods acc Hacc; simpl;
    [exact Hacc |].
  destruct (existsb (Z.eqb m) mods); apply IH; simpl in Hm; nia.
Qed.

Lemma scan_moduli_keeps_nonzero (rules : list ForbiddenCongruence) :
  Forall (fun rule => fst rule <> 0) rules ->
  forall mods acc, acc <> 0 -> snd (scan_moduli rules mods acc) <> 0.
Proof.
  induction 1 as [| [m r] rules Hm _ IH]; intros mods acc Hacc; simpl;
    [exact Hacc |].
  destruct (existsb (Z.eqb m) mods); apply IH; simpl in Hm; nia.
Qed.

Lemma period_keeps_nonzero (rules : list ForbiddenCongruence) :
  Forall (fun rule => fst rule <> 0) rules -> period rules <> 0.
Proof. intros H. apply scan_moduli_keeps_nonzero; [exact H | lia]. Qed.

Lemma period_nonzero (rules : list ForbiddenCongruence) :
  period rules <> 0 -> Forall (fun rule => fst rule <> 0) rules.
Proof. apply scan_moduli_nonzero. constructor. Qed.

Lemma period_divide (rules : list ForbiddenCongruence) :
  Forall (fun rule => (fst rule | period rules)) rules.
Proof. apply scan_moduli_divide. constructor. Qed.

Lemma period_pos (rules : list ForbiddenCongruence) :
  Forall (fun rule => 0 < fst rule) rules -> 0 < period rules.
Proof. intros H. apply scan_moduli_pos; [exact H | lia]. Qed.

(** [build_wheel] completes on every rule list: with a period that is not
    positive the comprehension ranges over nothing, and a positive period
    has no zero factor for [%] to trip over. *)
Lemma build_wheel_ret (rules : list ForbiddenCongruence) :
  build_wheel rules =
  Ret {| M := period rules; residues := survivors rules; forbidden := rules |}.
Proof.
  unfold build_wheel, survivors. fold (period rules).
  destruct (Z_le_gt_dec (period rules) 0) as [Hle | Hgt].
  - unfold Py.range. replace (Z.to_nat (period rules)) with O by lia.
    reflexivity.
  - rewrite keep_passing_ret; [reflexivity |].
    apply period_nonzero. lia.
Qed.

Lemma survivors_In (rules : list ForbiddenCongruence) (r : Z) :
  In r (survivors rules) <->
  0 <= r < period rules /\ passes_pure r rules = true.
Proof. unfold survivors. rewrite filter_In, range_In. reflexivity. Qed.

Lemma survivors_ok (rules : list ForbiddenCongruence) :
  wheel_ok
    {| M := period rules; residues := survivors rules; forbidden := rules |}.
Proof.
  split; simpl.
  - apply filter_sorted, range_from_sorted.
  - apply Forall_forall. intros r Hr. apply survivors_In in Hr. tauto.
Qed.

(** Python's [%] sees only the class of [n] modulo a multiple of the
    modulus, whatever the signs. *)
Lemma mod_shift (n k m : Z) : (m | k) -> (n + k) mod m = n mod m.
Proof.
  intros [c ->]. destruct (Z.eq_dec m 0) as [-> | Hm].
  - rewrite Z.mul_0_r, Z.add_0_r. reflexivity.
  - apply Z_mod_plus_full.
Qed.

Lemma passes_pure_shift (rules rules' : list ForbiddenCongruence) (k : Z) :
  Forall (fun rule => (fst rule | k)) rules' ->
  forall n, passes_pure (n + k) rules' = passes_pure n rules'.
Proof.
  induction 1 as [| [m r] rs Hm _ IH]; intros n; simpl; [reflexivity |].
  rewrite mod_shift by exact Hm. rewrite IH. reflexivity.
Qed.

Lemma passes_pure_mod (rules : list ForbiddenCongruence) (n : Z) :
  passes_pure (n mod period rules) rules = passes_pure n rules.
Proof.
  destruct (Z.eq_dec (period rules) 0) as [E | Hp].
  - rewrite E, Z.mod_0_r. reflexivity.
  - rewrite (Z.div_mod n (period rules) Hp) at 2.
    rewrite Z.add_comm. symmetry.
    apply (passes_pure_shift rules).
    eapply Forall_impl; [| apply period_divide].
    intros rule H. apply Z.divide_mul_l, H.
Qed.

(** What the first loop of [build_wheel] computes: it appends to [mods]
    the moduli not seen before, each once, and multiplies them in. *)
Lemma scan_moduli_spec (rules : list ForbiddenCongruence) :
  forall mods acc,
  exists news,
    fst (scan_moduli rules mods acc) = mods ++ news /\
    snd (scan_moduli rules mods acc) = acc * product news /\
    NoDup news /\
    forall z, In z news <-> In z (map fst rules) /\ ~ In z mods.
Proof.
  induction rules as [| [m r] rules IH]; intros mods acc;
    cbn [scan_moduli map fst].
  - exists []. rewrite app_nil_r. unfold product. cbn.
    repeat split; try constructor; try lia; try tauto.
  - destruct (existsb (Z.eqb m) mods) eqn:E.
    + apply existsb_eqb_In in E.
      destruct (IH mods acc) as (news & H1 & H2 & H3 & H4).
      exists news. split; [exact H1 |]. split; [exact H2 |].
      split; [exact H3 |]. intros z. rewrite H4. split.
      * intros [Hz Hn]. split; [right; exact Hz | exact Hn].
      * intros [[<- | Hz] Hn]; [contradiction | split; assumption].
    + assert (Hm : ~ In m mods).
      { intros H. apply existsb_eqb_In in H. congruence. }
      destruct (IH (mods ++ [m]) (acc * m)) as (news & H1 & H2 & H3 & H4).
      exists (m :: news).
      split; [rewrite H1, <- app_assoc; reflexivity |].
      split; [rewrite H2; unfold product; cbn; ring |].
      split.
      * constructor; [| exact H3]. intros H. apply H4 in H.
        destruct H as [_ H]. apply H, in_or_app. right. left. reflexivity.
      * intros z. cbn [In]. rewrite H4, in_app_iff. cbn [In].
        destruct (Z.eq_dec m z) as [<- | Hne]; tauto.
Qed.

Lemma period_product (rules : list ForbiddenCongruence) :
  exists mods,
    fst (scan_moduli rules [] 1) = mods /\ period rules = product mods /\
    NoDup mods /\ forall z, In z mods <-> In z (map fst rules).
Proof.
  destruct (scan_moduli_spec rules [] 1) as (news & H1 & H2 & H3 & H4).
  exists news. unfold period. rewrite H1, H2. repeat split; try assumption.
  - lia.
  - apply H4.
  - intros Hz. apply H4. split; [exact Hz | intros []].
Qed.

End WheelFacts.

(** C4, as the code has it: [build_wheel] validates nothing and raises
    nothing.  For every rule list, malformed pairs included, it completes
    and returns the wheel whose period is the product of the distinct
    moduli of the list, each taken once, whose residues are the members of
    [range(M)] that pass every rule, in ascending order, and which keeps
    the rule list as given. *)
Theorem build_wheel_total (rules : list ForbiddenCongruence) :
  exists (wheel : Wheel) (mods : list Z),
    build_wheel rules = Ret wheel /\
    NoDup mods /\
    (forall m : Z, In m mods <-> In m (map fst rules)) /\
    M wheel = product mods /\
    forbidden wheel = rules /\
    wheel_ok wheel /\
    forall r : Z,
      In r (residues wheel) <->
      0 <= r < M wheel /\ passes_forbidden r rules = Ret true.
Proof.
  destruct (period_product rules) as (mods & _ & E & Hnd & Hin).
  eexists. exists mods. split; [apply build_wheel_ret |].
  split; [exact Hnd |]. split; [exact Hin |]. split; [exact E |].
  split; [reflexivity |]. split; [apply survivors_ok |].
  intros r. cbn [residues M]. rewrite survivors_In.
  split; intros [Hr Hp]; (split; [exact Hr |]).
  - rewrite passes_forbidden_ret by (apply period_nonzero; lia).
    rewrite Hp. reflexivity.
  - rewrite passes_forbidden_ret in Hp by (apply period_nonzero; lia).
    congruence.
Qed.

(** C4, as the claim states it, fails: the rule list [[(1, 5)]] holds a
    pair with modulus below 2 and residue outside [0, modulus), and
    [build_wheel] returns a wheel for it. *)
Lemma build_wheel_accepts_malformed :
  existsb malformed [(1, 5)] = true /\
  build_wheel [(1, 5)] =
  Ret {| M := 1; residues := [0]; forbidden := [(1, 5)] |}.
Proof. split; reflexivity. Qed.

(** C2: the finite-period sieve equals direct rule evaluation.  For every
    rule list whose moduli are positive (repeated and non-coprime moduli
    included) and every integer [n], inside one period or not, [n] is
    excluded by the wheel built from the list, that is [n mod M] is no
    member of its residues, exactly when [passes_forbidden n rules] is
    false. *)
Theorem wheel_equals_rules (rules : list ForbiddenCongruence) (n : Z) :
  Forall (fun rule => 0 < fst rule) rules ->
  exists wheel : Wheel,
    build_wheel rules = Ret wheel /\
    (~ In (n mod M wheel) (residues wheel) <->
     passes_forbidden n rules = Ret false).
Proof.
  intros Hpos. eexists. split; [apply build_wheel_ret |].
  cbn [M residues].
  pose proof (period_pos rules Hpos) as HM.
  rewrite passes_forbidden_ret by (apply period_nonzero; lia).
  rewrite survivors_In, passes_pure_mod.
  pose proof (Z.mod_pos_bound n (period rules) HM) as Hb.
  destruct (passes_pure n rules); split; intros H.
  - exfalso. apply H. split; [exact Hb | reflexivity].
  - discriminate.
  - reflexivity.
  - intros [_ E]. discriminate.
Qed.

Lemma wheel_equals_rules_witness :
  Forall (fun rule : ForbiddenCongruence => 0 < fst rule)
    [(4, 1); (6, 1); (4, 3)] /\
  exists wheel : Wheel,
    build_wheel [(4, 1); (6, 1); (4, 3)] = Ret wheel /\
    (~ In (31 mod M wheel) (residues wheel) <->
     passes_forbidden 31 [(4, 1); (6, 1); (4, 3)] = Ret false).
Proof.
  split.
  - repeat constructor.
  - apply (wheel_equals_rules [(4, 1); (6, 1); (4, 3)] 31).
    repeat constructor.
Defined.

(** ** The candidate stream *)

Section CandidateFacts.

Variable wheel : Wheel.
Variable start : Z.

Let at_loop (q : Z) (rest : list Z) : cand_gen :=
  {| cg_wheel := wheel; cg_start := start; cg_pc := CLoop q rest |}.

Lemma suffix_of_tail (r : Z) (rest l : list Z) :
  suffix_of (r :: rest) l -> suffix_of rest l.
Proof.
  intros [visited ->]. exists (visited ++ [r]).
  rewrite <- app_assoc. reflexivity.
Qed.

Lemma suffix_of_In (r : Z) (rest l : list Z) :
  suffix_of (r :: rest) l -> In r l.
Proof. intros [visited ->]. apply in_elt. Qed.

Lemma suffix_of_refl (l : list Z) : suffix_of l l.
Proof. exists []. reflexivity. Qed.

(** The shape of a yield: the value is [q' * M + r] for a residue [r] the
    loop was about to visit, in the block the generator was in or in a
    later one, and it is not below [start]. *)
Lemma cand_run_yield (fuel : nat) :
  forall q rest n g,
    suffix_of rest (residues wheel) ->
    cand_run fuel wheel start q rest = Yield n g ->
    exists q' r rest',
      n = q' * M wheel + r /\ start <= n /\ g = at_loop q' rest' /\
      suffix_of (r :: rest') (residues wheel) /\
      ((q' = q /\ In r rest) \/ q < q').
Proof.
  induction fuel as [| fuel IH]; intros q rest n g Hsuf Hrun;
    [discriminate |].
  cbn [cand_run] in Hrun. destruct rest as [| r rest].
  - apply IH in Hrun; [| apply suffix_of_refl].
    destruct Hrun as (q' & r & rest' & Hn & Hs & Hg & Hsuf' & Hq).
    exists q', r, rest'. repeat split; try assumption.
    right. destruct Hq as [[-> _] | Hq]; lia.
  - destruct (Z.geb_spec (q * M wheel + r) start) as [Hge | Hlt].
    + injection Hrun as <- <-.
      exists q, r, rest. repeat split; try assumption; try lia.
      left. split; [reflexivity | left; reflexivity].
    + apply IH in Hrun; [| eapply suffix_of_tail; exact Hsuf].
      destruct Hrun as (q' & r' & rest' & Hn & Hs & Hg & Hsuf' & Hq).
      exists q', r', rest'. repeat split; try assumption.
      destruct Hq as [[-> Hin] | Hq]; [left | right; exact Hq].
      split; [reflexivity | right; exact Hin].
Qed.

(** With no residue to visit the loops only count blocks. *)
Lemma cand_run_empty (fuel : nat) :
  residues wheel = [] ->
  forall q, cand_run fuel wheel start q [] = GDiverge.
Proof.
  intros Hnil. induction fuel as [| fuel IH]; intros q; [reflexivity |].
  cbn [cand_run]. rewrite Hnil. apply IH.
Qed.

(** More fuel does not change what a [next()] yields. *)
Lemma cand_run_more (fuel : nat) :
  forall q rest n g,
    cand_run fuel wheel start q rest = Yield n g ->
    forall fuel', (fuel <= fuel')%nat ->
      cand_run fuel' wheel start q rest = Yield n g.
Proof.
  induction fuel as [| fuel IH]; intros q rest n g Hrun fuel' Hle;
    [discriminate |].
  destruct fuel' as [| fuel']; [lia |].
  cbn [cand_run] in *. destruct rest as [| r rest].
  - apply IH with (fuel' := fuel') in Hrun; [exact Hrun | lia].
  - destruct (q * M wheel + r >=? start); [exact Hrun |].
    apply IH with (fuel' := fuel') in Hrun; [exact Hrun | lia].
Qed.

(** The loops of [candidate_stream] raise nothing. *)
Lemma cand_run_yield_or_diverge (fuel : nat) :
  forall q rest e g, cand_run fuel wheel start q rest = GRaise e g -> False.
Proof.
  induction fuel as [| fuel IH]; intros q rest e g Hrun; [discriminate |].
  cbn [cand_run] in Hrun. destruct rest as [| r rest].
  - eapply IH, Hrun.
  - destruct (q * M wheel + r >=? start); [discriminate | eapply IH, Hrun].
Qed.

Lemma cand_next_state (fuel : nat) (g g' : cand_gen) (n : Z) :
  cand_state wheel start g ->
  cand_next fuel g = Yield n g' ->
  exists q r rest,
    n = q * M wheel + r /\ start <= n /\ g' = at_loop q rest /\
    suffix_of (r :: rest) (residues wheel) /\
    (forall b, below wheel start b g -> 0 < M wheel -> 0 <= r -> b < n).
Proof.
  intros (Hw & Hs & Hpc) Hnext. unfold cand_next in Hnext.
  rewrite Hw, Hs in Hnext. unfold below.
  destruct (cg_pc g) as [| q rest |]; [| | destruct Hpc].
  - destruct (Py.floordiv start (M wheel)) as [q | e |]; try discriminate.
    apply cand_run_yield in Hnext; [| apply suffix_of_refl].
    destruct Hnext as (q' & r & rest' & Hn & Hge & Hg & Hsuf & _).
    exists q', r, rest'. repeat split; try assumption. intros; lia.
  - apply cand_run_yield in Hnext; [| exact Hpc].
    destruct Hnext as (q' & r & rest' & Hn & Hge & Hg & Hsuf & Hq).
    exists q', r, rest'. repeat split; try assumption.
    intros b [Hb1 Hb2] HM Hr.
    destruct Hq as [[-> Hin] | Hq]; [rewrite Hn; apply Hb1, Hin | nia].
Qed.

Lemma cand_state_fresh : cand_state wheel start (candidate_stream wheel start).
Proof. repeat split. Qed.

Lemma cand_state_loop (q r : Z) (rest : list Z) :
  suffix_of (r :: rest) (residues wheel) ->
  cand_state wheel start (at_loop q rest).
Proof.
  intros Hsuf. repeat split. simpl. eapply suffix_of_tail, Hsuf.
Qed.

Hypothesis Hok : wheel_ok wheel.

Lemma residue_range (r : Z) : In r (residues wheel) -> 0 <= r < M wheel.
Proof.
  destruct Hok as [_ Hall]. rewrite Forall_forall in Hall. apply Hall.
Qed.

Lemma suffix_sorted (r : Z) (rest : list Z) :
  suffix_of (r :: rest) (residues wheel) -> Forall (Z.lt r) rest.
Proof.
  intros [visited E]. destruct Hok as [Hs _]. rewrite E in Hs.
  clear E. induction visited as [| v visited IH]; simpl in Hs.
  - apply StronglySorted_inv in Hs. tauto.
  - apply IH. apply StronglySorted_inv in Hs. tauto.
Qed.

(** One [next()] from a state of the stream: the value is a candidate, it
    exceeds every bound the state was above, and the new state is above
    the value. *)
Lemma cand_next_ok (fuel : nat) (g g' : cand_gen) (n : Z) :
  cand_state wheel start g ->
  cand_next fuel g = Yield n g' ->
  cand_state wheel start g' /\ below wheel start n g' /\
  start <= n /\ In (n mod M wheel) (residues wheel) /\
  forall b, below wheel start b g -> b < n.
Proof.
  intros Hst Hnext.
  destruct (cand_next_state _ _ _ _ Hst Hnext)
    as (q & r & rest & Hn & Hge & Hg & Hsuf & Hb).
  pose proof (residue_range r (suffix_of_In _ _ _ Hsuf)) as Hr.
  assert (Hmod : n mod M wheel = r).
  { rewrite Hn, Z.add_comm, Z_mod_plus_full. apply Z.mod_small, Hr. }
  split; [subst g'; eapply cand_state_loop, Hsuf |].
  split.
  - subst g'. unfold below. simpl. split; [| nia].
    pose proof (suffix_sorted _ _ Hsuf) as Hlt.
    rewrite Forall_forall in Hlt. intros r' Hr'. apply Hlt in Hr'. lia.
  - split; [exact Hge |]. split.
    + rewrite Hmod. eapply suffix_of_In, Hsuf.
    + intros b Hbelow. apply Hb; [exact Hbelow | lia | lia].
Qed.

Lemma emits_ok (g : cand_gen) (l : list Z) (g' : cand_gen) :
  emits cand_next g l g' ->
  cand_state wheel start g ->
  StronglySorted Z.lt l /\
  Forall (fun n => start <= n /\ In (n mod M wheel) (residues wheel)) l /\
  forall b, below wheel start b g -> Forall (Z.lt b) l.
Proof.
  induction 1 as [g | g fuel n g1 l g2 Hnext _ IH]; intros Hst.
  - repeat split; constructor.
  - destruct (cand_next_ok _ _ _ _ Hst Hnext)
      as (Hst1 & Hbelow1 & Hge & Hres & Hup).
    destruct (IH Hst1) as (Hsorted & Hall & Hbound).
    split; [constructor; [exact Hsorted | apply Hbound, Hbelow1] |].
    split; [constructor; [split; assumption | exact Hall] |].
    intros b Hb. constructor; [apply Hup, Hb |].
    specialize (Hbound n Hbelow1). specialize (Hup b Hb).
    eapply Forall_impl; [| exact Hbound]. intros x Hx. simpl in Hx. lia.
Qed.

End CandidateFacts.

Section CandidateReach.

Variable wheel : Wheel.
Variable start : Z.

Let at_loop (q : Z) (rest : list Z) : cand_gen :=
  {| cg_wheel := wheel; cg_start := start; cg_pc := CLoop q rest |}.

(** A state that moves on without yielding yields what the next state
    yields. *)
Lemma emits_skip (g1 g2 g' : cand_gen) (l : list Z) (n : Z) :
  (forall fuel m g,
      cand_next fuel g2 = Yield m g ->
      exists fuel', cand_next fuel' g1 = Yield m g) ->
  emits cand_next g2 l g' -> In n l ->
  exists l' g'', emits cand_next g1 l' g'' /\ In n l'.
Proof.
  intros Hskip Hem Hin. destruct Hem as [g2 | g2 fuel m g3 l g' Hnext Hem].
  - destruct Hin.
  - exists (m :: l), g'. split; [| exact Hin].
    destruct (Hskip _ _ _ Hnext) as [fuel' Hnext'].
    apply emits_cons with (fuel := fuel') (g1 := g3); assumption.
Qed.

Lemma reach_cons (q r : Z) (rest : list Z) (n : Z) :
  (exists l g', emits cand_next (at_loop q rest) l g' /\ In n l) ->
  exists l g', emits cand_next (at_loop q (r :: rest)) l g' /\ In n l.
Proof.
  intros (l & g' & Hem & Hin).
  destruct (q * M wheel + r >=? start) eqn:E.
  - exists (q * M wheel + r :: l), g'. split; [| right; exact Hin].
    apply emits_cons with (fuel := 1%nat) (g1 := at_loop q rest);
      [| exact Hem].
    unfold cand_next. cbn. rewrite E. reflexivity.
  - apply (emits_skip _ (at_loop q rest) g' l); try assumption.
    intros fuel m g H. exists (S fuel).
    unfold cand_next in *. cbn in *. rewrite E. exact H.
Qed.

Lemma reach_nil (q n : Z) :
  (exists l g',
      emits cand_next (at_loop (q + 1) (residues wheel)) l g' /\ In n l) ->
  exists l g', emits cand_next (at_loop q []) l g' /\ In n l.
Proof.
  intros (l & g' & Hem & Hin).
  apply (emits_skip _ (at_loop (q + 1) (residues wheel)) g' l);
    try assumption.
  intros fuel m g H. exists (S fuel). exact H.
Qed.

(** A candidate of the current block that the loop has still to visit is
    reached. *)
Lemma reach_in_block (q r0 : Z) :
  start <= q * M wheel + r0 ->
  forall rest, In r0 rest ->
    exists l g',
      emits cand_next (at_loop q rest) l g' /\ In (q * M wheel + r0) l.
Proof.
  intros Hge. induction rest as [| r rest IH]; intros Hin; [destruct Hin |].
  destruct Hin as [-> | Hin].
  - exists [q * M wheel + r0], (at_loop q rest).
    split; [| left; reflexivity].
    apply emits_cons with (fuel := 1%nat) (g1 := at_loop q rest);
      [| constructor].
    unfold cand_next. cbn.
    destruct (Z.geb_spec (q * M wheel + r0) start); [reflexivity | lia].
  - apply reach_cons, IH, Hin.
Qed.

(** So is a candidate [k + 1] blocks ahead. *)
Lemma reach_later_block (qn r0 : Z) :
  start <= qn * M wheel + r0 -> In r0 (residues wheel) ->
  forall (k : nat) q rest,
    qn = q + 1 + Z.of_nat k ->
    exists l g',
      emits cand_next (at_loop q rest) l g' /\ In (qn * M wheel + r0) l.
Proof.
  intros Hge Hin. induction k as [| k IHk]; intros q rest Hq;
    induction rest as [| r rest IHrest];
    try (apply reach_cons, IHrest); apply reach_nil.
  - replace (q + 1) with qn by lia. apply reach_in_block; assumption.
  - apply IHk. lia.
Qed.

Lemma reach_from_fresh (n : Z) :
  wheel_ok wheel ->
  start <= n -> In (n mod M wheel) (residues wheel) ->
  exists l g',
    emits cand_next (candidate_stream wheel start) l g' /\ In n l.
Proof.
  intros Hok Hge Hin.
  pose proof (residue_range wheel Hok _ Hin) as Hr.
  assert (HM : 0 < M wheel) by lia.
  assert (Hn : n = n / M wheel * M wheel + n mod M wheel).
  { rewrite Z.mul_comm. apply Z.div_mod. lia. }
  assert (Hq : start / M wheel <= n / M wheel)
    by (apply Z.div_le_mono; lia).
  assert (Hfrom : exists l g',
             emits cand_next (at_loop (start / M wheel) (residues wheel)) l g'
             /\ In (n / M wheel * M wheel + n mod M wheel) l).
  { destruct (Z.eq_dec (start / M wheel) (n / M wheel)) as [E | Hne].
    - rewrite E. apply reach_in_block; [lia | exact Hin].
    - apply reach_later_block
        with (k := Z.to_nat (n / M wheel - start / M wheel - 1));
        [lia | exact Hin | lia]. }
  rewrite <- Hn in Hfrom.
  destruct Hfrom as (l & g' & Hem & Hl).
  refine (emits_skip _ _ _ _ _ _ Hem Hl).
  intros fuel m g H. exists fuel.
  unfold cand_next in *. cbn in *.
  rewrite floordiv_ret by lia. exact H.
Qed.

End CandidateReach.

(** C5: for every wheel whose residues ascend strictly inside [0, M), as
    the data model has them and as [build_wheel] returns them for every
    rule list, and every integer [start], the values of
    [candidate_stream(wheel, start)] are strictly increasing, each is at
    least [start] with its residue modulo [M] among the wheel's residues,
    and every integer with these two properties is among the values
    yielded. *)
Theorem candidate_stream_exact :
  (forall (wheel : Wheel) (start : Z),
      wheel_ok wheel ->
      (forall (l : list Z) (g : cand_gen),
          emits cand_next (candidate_stream wheel start) l g ->
          StronglySorted Z.lt l /\
          Forall
            (fun n => start <= n /\ In (n mod M wheel) (residues wheel)) l)
      /\
      (forall n : Z,
          start <= n -> In (n mod M wheel) (residues wheel) ->
          exists (l : list Z) (g : cand_gen),
            emits cand_next (candidate_stream wheel start) l g /\ In n l))
  /\
  (forall rules : list ForbiddenCongruence,
      exists wheel : Wheel, build_wheel rules = Ret wheel /\ wheel_ok wheel).
Proof.
  split.
  - intros wheel start Hok. split.
    + intros l g Hem.
      destruct (emits_ok wheel start Hok _ _ _ Hem (cand_state_fresh _ _))
        as (Hs & Hall & _).
      split; assumption.
    + intros n Hge Hin. apply reach_from_fresh; assumption.
  - intros rules. eexists. split; [apply build_wheel_ret | apply survivors_ok].
Qed.

Lemma candidate_stream_exact_witness :
  wheel_ok {| M := 6; residues := [1; 5]; forbidden := [(2, 0); (3, 0)] |} /\
  ((forall (l : list Z) (g : cand_gen),
       emits cand_next
         (candidate_stream
            {| M := 6; residues := [1; 5]; forbidden := [(2, 0); (3, 0)] |} 2)
         l g ->
       StronglySorted Z.lt l /\
       Forall (fun n => 2 <= n /\ In (n mod 6) [1; 5]) l)
   /\
   (forall n : Z,
       2 <= n -> In (n mod 6) [1; 5] ->
       exists (l : list Z) (g : cand_gen),
         emits cand_next
           (candidate_stream
              {| M := 6; residues := [1; 5]; forbidden := [(2, 0); (3, 0)] |}
              2)
           l g /\ In n l)).
Proof.
  assert (Hok : wheel_ok
            {| M := 6; residues := [1; 5]; forbidden := [(2, 0); (3, 0)] |}).
  { split; simpl; repeat constructor; simpl; lia. }
  split; [exact Hok |].
  exact (proj1 candidate_stream_exact
           {| M := 6; residues := [1; 5]; forbidden := [(2, 0); (3, 0)] |}
           2 Hok).
Defined.

(** C9: a wheel without residues yields nothing.  If [wheel.residues] is
    empty, as for the rules [[(2, 0); (2, 1)]], no [next()] on
    [candidate_stream(wheel, start)] yields a value, whatever [start] and
    however much fuel, so a stream that yields has a wheel with a residue;
    and with a period that is not zero the first [next()] does not return
    at all.  The period of a built wheel is not zero unless a modulus
    is. *)
Theorem empty_wheel_never_yields :
  (forall (wheel : Wheel) (start : Z),
      residues wheel = [] ->
      (forall (fuel : nat) (n : Z) (g : cand_gen),
          cand_next fuel (candidate_stream wheel start) <> Yield n g) /\
      (M wheel <> 0 ->
       forall fuel : nat,
         cand_next fuel (candidate_stream wheel start) = GDiverge)) /\
  (forall (rules : list ForbiddenCongruence) (wheel : Wheel),
      build_wheel rules = Ret wheel ->
      Forall (fun rule => fst rule <> 0) rules -> M wheel <> 0) /\
  build_wheel [(2, 0); (2, 1)] =
  Ret {| M := 2; residues := []; forbidden := [(2, 0); (2, 1)] |}.
Proof.
  split; [| split; [| reflexivity]].
  - intros wheel start Hnil.
    assert (Hrun : forall fuel q,
               cand_run fuel wheel start q (residues wheel) = GDiverge).
    { intros fuel q. rewrite Hnil. apply cand_run_empty, Hnil. }
    split.
    + intros fuel n g. unfold cand_next. cbn.
      destruct (Py.floordiv start (M wheel)); [rewrite Hrun | |];
        discriminate.
    + intros HM fuel. unfold cand_next. cbn.
      rewrite floordiv_ret by exact HM. apply Hrun.
  - intros rules wheel Hbuild Hnz. rewrite build_wheel_ret in Hbuild.
    injection Hbuild as <-. cbn [M]. apply period_keeps_nonzero, Hnz.
Qed.

Lemma empty_wheel_never_yields_witness :
  residues {| M := 2; residues := []; forbidden := [(2, 0); (2, 1)] |} = []
  /\
  (forall (fuel : nat) (n : Z) (g : cand_gen),
      cand_next fuel
        (candidate_stream
           {| M := 2; residues := []; forbidden := [(2, 0); (2, 1)] |} 2)
      <> Yield n g) /\
  (2 <> 0 ->
   forall fuel : nat,
     cand_next fuel
       (candidate_stream
          {| M := 2; residues := []; forbidden := [(2, 0); (2, 1)] |} 2)
     = GDiverge).
Proof.
  split; [reflexivity |].
  exact (proj1 empty_wheel_never_yields
           {| M := 2; residues := []; forbidden := [(2, 0); (2, 1)] |} 2
           eq_refl).
Defined.

(** ** Restarting a stream *)

Section Restart.

Lemma cand_next_more (fuel fuel' : nat) (g : cand_gen) :
  (fuel <= fuel')%nat ->
  cand_next fuel g <> GDiverge ->
  cand_next fuel' g = cand_next fuel g.
Proof.
  intros Hle. unfold cand_next.
  destruct (cg_pc g) as [| q rest |]; [| | reflexivity].
  - destruct (Py.floordiv (cg_start g) (M (cg_wheel g))) as [q | e |];
      [| reflexivity | reflexivity].
    destruct (cand_run fuel _ _ q _) as [n g' | e g' |] eqn:E.
    + intros _. eapply cand_run_more; eassumption.
    + intros _. apply cand_run_yield_or_diverge in E. destruct E.
    + intros H. contradiction.
  - destruct (cand_run fuel _ _ q rest) as [n g' | e g' |] eqn:E.
    + intros _. eapply cand_run_more; eassumption.
    + intros _. apply cand_run_yield_or_diverge in E. destruct E.
    + intros H. contradiction.
Qed.

(** What a [next()] hands back does not depend on its fuel, when it
    returns. *)
Lemma cand_next_same (fuel fuel' : nat) (g : cand_gen) :
  cand_next fuel g <> GDiverge -> cand_next fuel' g <> GDiverge ->
  cand_next fuel g = cand_next fuel' g.
Proof.
  intros H H'.
  rewrite <- (cand_next_more fuel (Nat.max fuel fuel') g
                (Nat.le_max_l _ _) H).
  apply cand_next_more; [apply Nat.le_max_r | exact H'].
Qed.

(** Two runs from one state hand back the same events, as far as both
    go. *)
Lemma trace_agree (g : cand_gen) (t1 : list event) (g1 : cand_gen) :
  trace cand_next g t1 g1 ->
  forall (t2 : list event) (g2 : cand_gen),
    trace cand_next g t2 g2 ->
    forall (i : nat) (e1 e2 : event),
      nth_error t1 i = Some e1 -> nth_error t2 i = Some e2 -> e1 = e2.
Proof.
  induction 1 as [g | g fuel n g1 t g' Hnext _ IH
                  | g fuel e g1 t g' Hnext _ IH];
    intros t2 g2 H2 i e1 e2 H1i H2i.
  - destruct i; discriminate.
  - destruct H2 as [g | g fuel' n' g1' t' g2 Hnext' H2
                    | g fuel' e' g1' t' g2 Hnext' H2].
    + destruct i; discriminate.
    + assert (E : Yield n g1 = Yield n' g1').
      { rewrite <- Hnext, <- Hnext'. apply cand_next_same.
        - rewrite Hnext. discriminate.
        - rewrite Hnext'. discriminate. }
      injection E as <- <-. destruct i as [| i]; cbn in H1i, H2i.
      * congruence.
      * eapply IH; eassumption.
    + exfalso.
      assert (E : Yield n g1 = GRaise e' g1').
      { rewrite <- Hnext, <- Hnext'. apply cand_next_same.
        - rewrite Hnext. discriminate.
        - rewrite Hnext'. discriminate. }
      discriminate.
  - destruct H2 as [g | g fuel' n' g1' t' g2 Hnext' H2
                    | g fuel' e' g1' t' g2 Hnext' H2].
    + destruct i; discriminate.
    + exfalso.
      assert (E : GRaise e g1 = Yield n' g1').
      { rewrite <- Hnext, <- Hnext'. apply cand_next_same.
        - rewrite Hnext. discriminate.
        - rewrite Hnext'. discriminate. }
      discriminate.
    + assert (E : GRaise e g1 = GRaise e' g1').
      { rewrite <- Hnext, <- Hnext'. apply cand_next_same.
        - rewrite Hnext. discriminate.
        - rewrite Hnext'. discriminate. }
      injection E as <- <-. destruct i as [| i]; cbn in H1i, H2i.
      * congruence.
      * eapply IH; eassumption.
Qed.

Lemma trace_app {G : Type} (next : nat -> G -> gen_step G)
  (g : G) (t1 : list event) (g1 : G) :
  trace next g t1 g1 ->
  forall (t2 : list event) (g2 : G),
    trace next g1 t2 g2 -> trace next g (t1 ++ t2) g2.
Proof.
  induction 1 as [g | g fuel n g1 t g' Hnext _ IH
                  | g fuel e g1 t g' Hnext _ IH]; intros t2 g2 H2.
  - exact H2.
  - cbn [app]. eapply trace_yield; [exact Hnext | apply IH, H2].
  - cbn [app]. eapply trace_raise; [exact Hnext | apply IH, H2].
Qed.

(** *** The store *)

Lemma lookup_lt (s : store) (r : ref) (o : object) :
  lookup s r = Some o -> (r < length s)%nat.
Proof. intros H. apply nth_error_Some. unfold lookup in H. congruence. Qed.

Lemma update_length (s : store) :
  forall (r : ref) (o : object), length (update s r o) = length s.
Proof.
  induction s as [| x s IH]; intros [| r] o; cbn; try reflexivity.
  rewrite IH. reflexivity.
Qed.

Lemma lookup_update_same (s : store) :
  forall (r : ref) (o : object),
    (r < length s)%nat -> lookup (update s r o) r = Some o.
Proof.
  induction s as [| x s IH]; intros [| r] o Hr; cbn in *; try lia.
  - reflexivity.
  - apply IH. lia.
Qed.

Lemma lookup_update_other (s : store) :
  forall (r r' : ref) (o : object),
    r <> r' -> lookup (update s r o) r' = lookup s r'.
Proof.
  induction s as [| x s IH]; intros [| r] [| r'] o Hne; cbn;
    try reflexivity; try contradiction.
  apply IH. congruence.
Qed.

Lemma lookup_new (s : store) (w : ref) (start : Z) (r : ref) :
  (r < length s)%nat -> lookup (snd (new_cand s w start)) r = lookup s r.
Proof. intros Hr. cbn. unfold lookup. apply nth_error_app1, Hr. Qed.

Lemma lookup_new_cand (s : store) (w : ref) (start : Z) :
  lookup (snd (new_cand s w start)) (fst (new_cand s w start))
  = Some (OCand (FArgs w start)).
Proof.
  cbn. unfold lookup. rewrite nth_error_app2 by lia.
  rewrite Nat.sub_diag. reflexivity.
Qed.

(** What a [next()] that has a meaning does to the store: it leaves a new
    state in the generator object it was called on. *)
Lemma next_cand_inv (fuel : nat) (s : store) (g : ref)
  (step : gen_step store) :
  next_cand fuel s g = Some step ->
  exists f state,
    lookup s g = Some (OCand f) /\ resume s f = Some state /\
    step = match cand_next fuel state with
           | Yield n state' => Yield n (update s g (OCand (FBody state')))
           | GRaise e state' =>
               GRaise e (update s g (OCand (FBody state')))
           | GDiverge => GDiverge
           end.
Proof.
  unfold next_cand. intros H.
  destruct (lookup s g) as [[wheel | f] |]; try discriminate.
  destruct (resume s f) as [state |] eqn:E; try discriminate.
  injection H as <-. exists f, state. repeat split. exact E.
Qed.

(** The store after a [next()] that returns. *)
Lemma next_cand_store (fuel : nat) (s : store) (g : ref)
  (step : gen_step store) (s1 : store) :
  next_cand fuel s g = Some step ->
  (exists n, step = Yield n s1) \/ (exists e, step = GRaise e s1) ->
  exists f f1,
    lookup s g = Some (OCand f) /\ s1 = update s g (OCand f1).
Proof.
  intros H Hs1. apply next_cand_inv in H.
  destruct H as (f & state & Hg & _ & ->). exists f.
  destruct (cand_next fuel state) as [n state' | e state' |].
  - exists (FBody state'). split; [exact Hg |].
    destruct Hs1 as [[m E] | [e E]]; congruence.
  - exists (FBody state'). split; [exact Hg |].
    destruct Hs1 as [[m E] | [e' E]]; congruence.
  - destruct Hs1 as [[m E] | [e E]]; discriminate.
Qed.

(** A [next()] on one object changes no other object: not the wheel, and
    no other generator. *)
Lemma next_cand_frame (fuel : nat) (s : store) (g : ref)
  (step : gen_step store) (s1 : store) :
  next_cand fuel s g = Some step ->
  (exists n, step = Yield n s1) \/ (exists e, step = GRaise e s1) ->
  length s1 = length s /\
  (forall r, r <> g -> lookup s1 r = lookup s r) /\
  (forall r wheel, lookup s r = Some (OWheel wheel) ->
                   lookup s1 r = Some (OWheel wheel)).
Proof.
  intros H Hs1.
  destruct (next_cand_store _ _ _ _ _ H Hs1) as (f & f1 & Hg & ->).
  split; [apply update_length |]. split.
  - intros r Hr. apply lookup_update_other. congruence.
  - intros r wheel Hr. rewrite lookup_update_other; [exact Hr |].
    intros <-. congruence.
Qed.

Lemma cand_at_kept (s s1 : store) (g : ref) (state : cand_gen) :
  cand_at s g state ->
  lookup s1 g = lookup s g ->
  (forall r wheel, lookup s r = Some (OWheel wheel) ->
                   lookup s1 r = Some (OWheel wheel)) ->
  cand_at s1 g state.
Proof.
  intros (f & Hg & Hres) Hsame Hwheels. exists f.
  split; [congruence |].
  destruct f as [w start | locals]; cbn [resume] in *; [| exact Hres].
  destruct (lookup s w) as [[wheel | f'] |] eqn:Ew; try discriminate.
  rewrite (Hwheels _ _ Ew). exact Hres.
Qed.

Lemma cand_at_new (s : store) (w : ref) (start : Z) (g : ref)
  (state : cand_gen) :
  cand_at s g state -> cand_at (snd (new_cand s w start)) g state.
Proof.
  intros Hat. apply (cand_at_kept s); [exact Hat | |].
  - destruct Hat as (f & Hg & _). apply lookup_new, (lookup_lt _ _ _ Hg).
  - intros r wheel Hr. rewrite lookup_new; [exact Hr |].
    apply (lookup_lt _ _ _ Hr).
Qed.

Lemma cand_at_fresh (s : store) (w : ref) (wheel : Wheel) (start : Z) :
  lookup s w = Some (OWheel wheel) ->
  cand_at (snd (new_cand s w start)) (fst (new_cand s w start))
    (candidate_stream wheel start).
Proof.
  intros Hw. exists (FArgs w start). split; [apply lookup_new_cand |].
  cbn [resume]. rewrite lookup_new by apply (lookup_lt _ _ _ Hw).
  rewrite Hw. reflexivity.
Qed.

Lemma events_of_app (g : ref) (log1 log2 : list (ref * event)) :
  events_of g (log1 ++ log2) = events_of g log1 ++ events_of g log2.
Proof. unfold events_of. rewrite filter_app, map_app. reflexivity. Qed.

Lemma runs_length (s : store) (log : list (ref * event)) (s' : store) :
  runs s log s' -> (length s <= length s')%nat.
Proof.
  induction 1 as [s | s w start log s' _ IH
                  | s fuel g n s1 log s' Hnext _ IH
                  | s fuel g e s1 log s' Hnext _ IH].
  - lia.
  - cbn in IH. rewrite length_app in IH. cbn in IH. lia.
  - destruct (next_cand_frame _ _ _ _ _ Hnext
                (or_introl (ex_intro _ n eq_refl))) as (Hlen & _).
    lia.
  - destruct (next_cand_frame _ _ _ _ _ Hnext
                (or_intror (ex_intro _ e eq_refl))) as (Hlen & _).
    lia.
Qed.

(** No run changes a wheel object. *)
Lemma runs_wheel (s : store) (log : list (ref * event)) (s' : store) :
  runs s log s' ->
  forall (w : ref) (wheel : Wheel),
    lookup s w = Some (OWheel wheel) -> lookup s' w = Some (OWheel wheel).
Proof.
  induction 1 as [s | s w0 start log s' _ IH
                  | s fuel g n s1 log s' Hnext _ IH
                  | s fuel g e s1 log s' Hnext _ IH]; intros w wheel Hw.
  - exact Hw.
  - apply IH. rewrite lookup_new; [exact Hw | apply (lookup_lt _ _ _ Hw)].
  - apply IH.
    apply (next_cand_frame _ _ _ _ _ Hnext
             (or_introl (ex_intro _ n eq_refl))), Hw.
  - apply IH.
    apply (next_cand_frame _ _ _ _ _ Hnext
             (or_intror (ex_intro _ e eq_refl))), Hw.
Qed.

(** In any run, what a generator object hands back is a run of the state
    it was in, whatever else the run calls. *)
Lemma runs_trace (s : store) (log : list (ref * event)) (s' : store) :
  runs s log s' ->
  forall (g : ref) (state : cand_gen),
    cand_at s g state ->
    exists state',
      trace cand_next state (events_of g log) state' /\
      cand_at s' g state'.
Proof.
  induction 1 as [s | s w0 start log s' _ IH
                  | s fuel g0 n s1 log s' Hnext _ IH
                  | s fuel g0 e s1 log s' Hnext _ IH]; intros g state Hat.
  - exists state. split; [constructor | exact Hat].
  - apply IH, cand_at_new, Hat.
  - destruct (next_cand_frame _ _ _ _ _ Hnext
                (or_introl (ex_intro _ n eq_refl))) as (_ & Hother & Hwheels).
    unfold events_of. cbn [filter fst].
    destruct (Nat.eqb_spec g0 g) as [-> | Hne].
    + destruct (next_cand_inv _ _ _ _ Hnext) as (f & st & Hg & Hres & E).
      destruct Hat as (f' & Hg' & Hres').
      assert (st = state) by congruence. subst st.
      destruct (cand_next fuel state) as [m state1 | e state1 |] eqn:Estep;
        try discriminate.
      injection E as <- ->.
      destruct (IH g state1) as (state' & Htr & Hat').
      { exists (FBody state1). split; [| reflexivity].
        apply lookup_update_same, (lookup_lt _ _ _ Hg). }
      exists state'. split; [| exact Hat'].
      cbn [map snd]. eapply trace_yield; [exact Estep | exact Htr].
    + apply IH. apply (cand_at_kept s); [exact Hat | | exact Hwheels].
      apply Hother. congruence.
  - destruct (next_cand_frame _ _ _ _ _ Hnext
                (or_intror (ex_intro _ e eq_refl))) as (_ & Hother & Hwheels).
    unfold events_of. cbn [filter fst].
    destruct (Nat.eqb_spec g0 g) as [-> | Hne].
    + destruct (next_cand_inv _ _ _ _ Hnext) as (f & st & Hg & Hres & E).
      destruct Hat as (f' & Hg' & Hres').
      assert (st = state) by congruence. subst st.
      destruct (cand_next fuel state) as [m state1 | e1 state1 |] eqn:Estep;
        try discriminate.
      injection E as <- ->.
      destruct (IH g state1) as (state' & Htr & Hat').
      { exists (FBody state1). split; [| reflexivity].
        apply lookup_update_same, (lookup_lt _ _ _ Hg). }
      exists state'. split; [| exact Hat'].
      cbn [map snd]. eapply trace_raise; [exact Estep | exact Htr].
    + apply IH. apply (cand_at_kept s); [exact Hat | | exact Hwheels].
      apply Hother. congruence.
Qed.

(** A computed run is a run. *)
Lemma drive_runs (fuel : nat) (calls : list call) :
  forall (s : store) (log : list (ref * event)) (s' : store),
    drive fuel calls s = Some (log, s') -> runs s log s'.
Proof.
  induction calls as [| [w start | g] calls IH]; intros s log s' H;
    cbn [drive] in H.
  - injection H as <- <-. constructor.
  - eapply runs_stream, IH, H.
  - destruct (next_cand fuel s g) as [[n s1 | e s1 |] |] eqn:E;
      try discriminate.
    + destruct (drive fuel calls s1) as [[log1 s2] |] eqn:E1;
        try discriminate.
      injection H as <- <-. eapply runs_yield; [exact E | apply IH, E1].
    + destruct (drive fuel calls s1) as [[log1 s2] |] eqn:E1;
        try discriminate.
      injection H as <- <-. eapply runs_raise; [exact E | apply IH, E1].
Qed.

End Restart.

(** C8: [candidate_stream] is deterministic and restartable, and its
    invocations share no state.  In a store, take a [Wheel] object and two
    invocations [candidate_stream(wheel, start)] on it with the same
    [start], the second made after the first has been used in any way.
    Whatever calls are run and in whatever order, [next()] on either
    generator or on any other and further invocations, none of them
    changes the wheel object, and what the first generator hands back and
    what the second hands back agree element for element as far as both
    have been advanced: both are runs of the one stream that the wheel's
    value and [start] determine. *)
Theorem candidate_stream_restartable (s : store) (w : ref) (wheel : Wheel)
  (start : Z) (log1 log2 : list (ref * event)) (s1 s2 : store) :
  lookup s w = Some (OWheel wheel) ->
  runs (snd (new_cand s w start)) log1 s1 ->
  runs (snd (new_cand s1 w start)) log2 s2 ->
  let a := fst (new_cand s w start) in
  let b := fst (new_cand s1 w start) in
  a <> b /\
  lookup s2 w = Some (OWheel wheel) /\
  (exists ga gb : cand_gen,
      trace cand_next (candidate_stream wheel start)
        (events_of a (log1 ++ log2)) ga /\
      trace cand_next (candidate_stream wheel start)
        (events_of b log2) gb) /\
  forall (i : nat) (ea eb : event),
    nth_error (events_of a (log1 ++ log2)) i = Some ea ->
    nth_error (events_of b log2) i = Some eb ->
    ea = eb.
Proof.
  intros Hw Hrun1 Hrun2 a b.
  assert (Hw0 : lookup (snd (new_cand s w start)) w = Some (OWheel wheel)).
  { rewrite lookup_new; [exact Hw | apply (lookup_lt _ _ _ Hw)]. }
  pose proof (runs_wheel _ _ _ Hrun1 _ _ Hw0) as Hw1.
  assert (Hw1' : lookup (snd (new_cand s1 w start)) w = Some (OWheel wheel)).
  { rewrite lookup_new; [exact Hw1 | apply (lookup_lt _ _ _ Hw1)]. }
  pose proof (runs_wheel _ _ _ Hrun2 _ _ Hw1') as Hw2.
  destruct (runs_trace _ _ _ Hrun1 a _ (cand_at_fresh s w wheel start Hw))
    as (ga1 & Hta1 & Hata1).
  destruct (runs_trace _ _ _ Hrun2 a _ (cand_at_new _ w start _ _ Hata1))
    as (ga & Hta2 & _).
  destruct (runs_trace _ _ _ Hrun2 b _ (cand_at_fresh s1 w wheel start Hw1))
    as (gb & Htb & _).
  pose proof (trace_app _ _ _ _ Hta1 _ _ Hta2) as Hta.
  rewrite <- events_of_app in Hta.
  split.
  - pose proof (runs_length _ _ _ Hrun1) as Hlen. subst a b. cbn in *.
    rewrite length_app in Hlen. cbn in Hlen. lia.
  - split; [exact Hw2 |]. split; [exists ga, gb; split; assumption |].
    intros i ea eb Ha Hb. exact (trace_agree _ _ _ Hta _ _ Htb i ea eb Ha Hb).
Qed.

Lemma candidate_stream_restartable_witness :
  exists (log1 log2 : list (ref * event)) (s1 s2 : store),
    lookup
      [OWheel {| M := 6; residues := [1; 5]; forbidden := [(2, 0); (3, 0)] |}]
      0
    = Some
        (OWheel
           {| M := 6; residues := [1; 5]; forbidden := [(2, 0); (3, 0)] |}) /\
    runs
      (snd
         (new_cand
            [OWheel
               {| M := 6; residues := [1; 5];
                  forbidden := [(2, 0); (3, 0)] |}] 0 2))
      log1 s1 /\
    runs (snd (new_cand s1 0 2)) log2 s2 /\
    (length (events_of 1 log1) = 1000%nat /\
     length (events_of 2 log2) = 1000%nat /\
     firstn 4%nat (events_of 2 log2)
     = [Yielded 5; Yielded 7; Yielded 11; Yielded 13]) /\
    let a :=
      fst
        (new_cand
           [OWheel
              {| M := 6; residues := [1; 5];
                 forbidden := [(2, 0); (3, 0)] |}] 0 2) in
    let b := fst (new_cand s1 0 2) in
    a <> b /\
    lookup s2 0
    = Some
        (OWheel
           {| M := 6; residues := [1; 5]; forbidden := [(2, 0); (3, 0)] |}) /\
    (exists ga gb : cand_gen,
        trace cand_next
          (candidate_stream
             {| M := 6; residues := [1; 5]; forbidden := [(2, 0); (3, 0)] |}
             2)
          (events_of a (log1 ++ log2)) ga /\
        trace cand_next
          (candidate_stream
             {| M := 6; residues := [1; 5]; forbidden := [(2, 0); (3, 0)] |}
             2)
          (events_of b log2) gb) /\
    forall (i : nat) (ea eb : event),
      nth_error (events_of a (log1 ++ log2)) i = Some ea ->
      nth_error (events_of b log2) i = Some eb ->
      ea = eb.
Proof.
  do 4 eexists.
  match goal with
  | |- ?A /\ ?B /\ ?C /\ ?D /\ _ =>
      assert (H0 : A) by reflexivity;
      assert (H1 : B)
        by (apply (drive_runs 4 (repeat (CallNext 1) 1000));
            vm_compute; reflexivity);
      assert (H2 : C)
        by (apply (drive_runs 4
                     (concat (repeat [CallNext 2; CallNext 1] 1000)));
            vm_compute; reflexivity);
      assert (H3 : D) by (vm_compute; repeat split)
  end.
  split; [exact H0 |]. split; [exact H1 |]. split; [exact H2 |].
  split; [exact H3 |].
  exact (candidate_stream_restartable _ _ _ _ _ _ _ _ H0 H1 H2).
Defined.

(** ** The prime stream *)

Section PrimeFacts.

Variable rules : option (list ForbiddenCongruence).
Variable start : Z.

Let wheel : Wheel := wheel_of (rules_of rules).

Let at_loop (cands : cand_gen) : prime_gen :=
  {| pg_forbidden := rules; pg_start := start; pg_pc := PLoop wheel cands |}.

(** A candidate of the wheel built from the rules passes the rules. *)
Lemma candidate_passes (q r : Z) :
  In r (survivors (rules_of rules)) ->
  passes_forbidden (q * period (rules_of rules) + r) (rules_of rules)
  = Ret true.
Proof.
  intros Hin. apply survivors_In in Hin. destruct Hin as [Hr Hp].
  rewrite passes_forbidden_ret by (apply period_nonzero; lia).
  rewrite Z.add_comm, (passes_pure_shift (rules_of rules)), Hp;
    [reflexivity |].
  eapply Forall_impl; [| apply period_divide].
  intros rule H. apply Z.divide_mul_r, H.
Qed.

Lemma candidate_accept (cands cands' : cand_gen) (fuel : nat) (n : Z) :
  cand_state wheel start cands ->
  cand_next fuel cands = Yield n cands' ->
  cand_state wheel start cands' /\
  passes_forbidden n (rules_of rules) = Ret true.
Proof.
  intros Hst Hnext.
  destruct (cand_next_state _ _ _ _ _ _ Hst Hnext)
    as (q & r & rest & Hn & _ & Hg & Hsuf & _).
  split.
  - subst cands'. eapply cand_state_loop, Hsuf.
  - rewrite Hn. apply candidate_passes.
    apply (suffix_of_In _ _ _ Hsuf).
Qed.

(** What the loop of [primes] yields has passed the re-check and the
    oracle. *)
Lemma primes_run_yield (fuel : nat) :
  forall cands n g,
    primes_run accept_checked rules start fuel wheel cands = Yield n g ->
    cand_state wheel start cands ->
    passes_forbidden n (rules_of rules) = Ret true /\
    is_prime_64 n = true /\
    exists cands', g = at_loop cands' /\ cand_state wheel start cands'.
Proof.
  induction fuel as [| fuel IH]; intros cands n g Hrun Hst; [discriminate |].
  cbn [primes_run] in Hrun.
  destruct (cand_next (S fuel) cands) as [m cands' | e g0 |] eqn:E;
    try discriminate.
  destruct (candidate_accept _ _ _ _ Hst E) as [Hst' Hpass].
  unfold accept_checked in Hrun. cbn [forbidden wheel wheel_of] in Hrun.
  rewrite Hpass in Hrun. cbn [bind] in Hrun.
  destruct (is_prime_64 m) eqn:Hprime.
  - injection Hrun as <- <-.
    split; [exact Hpass |]. split; [exact Hprime |].
    exists cands'. split; [reflexivity | exact Hst'].
  - eapply IH; eassumption.
Qed.

(** The re-check never decides: both loops run alike. *)
Lemma primes_run_same (fuel : nat) :
  forall cands,
    cand_state wheel start cands ->
    primes_run accept_checked rules start fuel wheel cands =
    primes_run accept_unchecked rules start fuel wheel cands.
Proof.
  induction fuel as [| fuel IH]; intros cands Hst; [reflexivity |].
  cbn [primes_run].
  destruct (cand_next (S fuel) cands) as [m cands' | e g0 |] eqn:E;
    try reflexivity.
  destruct (candidate_accept _ _ _ _ Hst E) as [Hst' Hpass].
  unfold accept_checked, accept_unchecked. cbn [forbidden wheel wheel_of].
  rewrite Hpass. cbn [bind].
  destruct (is_prime_64 m); [reflexivity | apply IH, Hst'].
Qed.

Lemma prime_state_fresh : prime_state rules start (primes rules start).
Proof. repeat split. Qed.

Lemma primes_next_yield (fuel : nat) (g g' : prime_gen) (n : Z) :
  prime_state rules start g ->
  primes_next fuel g = Yield n g' ->
  passes_forbidden n (rules_of rules) = Ret true /\
  is_prime_64 n = true /\
  prime_state rules start g'.
Proof.
  intros (Hr & Hs & Hpc) Hnext.
  unfold primes_next, primes_next_with in Hnext. rewrite Hr, Hs in Hnext.
  fold (rules_of rules) in Hnext.
  assert (Hloop : forall cands,
             primes_run accept_checked rules start fuel wheel cands
             = Yield n g' ->
             cand_state wheel start cands ->
             passes_forbidden n (rules_of rules) = Ret true /\
             is_prime_64 n = true /\ prime_state rules start g').
  { intros cands Hrun Hst.
    destruct (primes_run_yield _ _ _ _ Hrun Hst)
      as (Hp & Hq & cands' & -> & Hst').
    split; [exact Hp |]. split; [exact Hq |].
    split; [reflexivity |]. split; [reflexivity |].
    split; [reflexivity | exact Hst']. }
  destruct (pg_pc g) as [| w cands |]; [| | destruct Hpc].
  - rewrite build_wheel_ret in Hnext.
    eapply Hloop; [exact Hnext | apply cand_state_fresh].
  - destruct Hpc as [-> Hst]. eapply Hloop; [exact Hnext | exact Hst].
Qed.

Lemma primes_next_same (fuel : nat) (g : prime_gen) :
  prime_state rules start g ->
  primes_next fuel g = primes_next_unchecked fuel g.
Proof.
  intros (Hr & Hs & Hpc).
  unfold primes_next, primes_next_unchecked, primes_next_with.
  rewrite Hr, Hs. fold (rules_of rules).
  destruct (pg_pc g) as [| w cands |]; [| | destruct Hpc].
  - rewrite build_wheel_ret. apply primes_run_same, cand_state_fresh.
  - destruct Hpc as [-> Hst]. apply primes_run_same, Hst.
Qed.

Lemma emits_primes_sound (g : prime_gen) (l : list Z) (g' : prime_gen) :
  emits primes_next g l g' ->
  prime_state rules start g ->
  Forall (fun n => passes_forbidden n (rules_of rules) = Ret true /\
                   is_prime_64 n = true) l.
Proof.
  induction 1 as [g | g fuel n g1 l g2 Hnext _ IH]; intros Hst;
    [constructor |].
  destruct (primes_next_yield _ _ _ _ Hst Hnext) as (Hp & Hq & Hst1).
  constructor; [split; assumption | apply IH, Hst1].
Qed.

Lemma first_n_same (fuel : nat) (k : nat) :
  forall g,
    prime_state rules start g ->
    first_n primes_next fuel k g = first_n primes_next_unchecked fuel k g.
Proof.
  induction k as [| k IH]; intros g Hst; [reflexivity |].
  cbn [first_n]. rewrite <- (primes_next_same fuel g Hst).
  destruct (primes_next fuel g) as [n g' | e g0 |] eqn:E; try reflexivity.
  destruct (primes_next_yield _ _ _ _ Hst E) as (_ & _ & Hst').
  rewrite (IH g' Hst'). reflexivity.
Qed.

End PrimeFacts.

(** C7: with the wheel built from the very rule list, the re-check of
    [passes_forbidden] inside [primes] is redundant.  For every rule list
    (or none) and every [start], the stream of [primes] and the stream
    that applies only [is_prime_64] to the candidates agree on their
    first [k] values for every [k], and fail alike: the re-check rejects
    no candidate the wheel admits. *)
Theorem recheck_redundant (rules : option (list ForbiddenCongruence))
  (start : Z) (fuel k : nat) :
  first_n primes_next fuel k (primes rules start) =
  first_n primes_next_unchecked fuel k (primes rules start).
Proof. apply (first_n_same rules start), prime_state_fresh. Qed.

(** First values of a stream, read off a run. *)
Lemma first_n_emits {G : Type} (next : nat -> G -> gen_step G)
  (fuel : nat) (k : nat) :
  forall (g : G) (l : list Z),
    first_n next fuel k g = Ret l -> exists g', emits next g l g'.
Proof.
  induction k as [| k IH]; intros g l Hrun; cbn [first_n] in Hrun.
  - injection Hrun as <-. exists g. constructor.
  - destruct (next fuel g) as [n g1 | e g0 |] eqn:E; try discriminate.
    destruct (first_n next fuel k g1) as [l1 | e |] eqn:E1;
      try discriminate.
    injection Hrun as <-. destruct (IH _ _ E1) as [g' Hem].
    exists g'. econstructor; eassumption.
Qed.

(** C6: with [rules = [(2, 0)]] and [start = 2] the prime stream does not
    contain 2, which the rule excludes, and its first value is 3. *)
Theorem primes_without_evens :
  (forall (l : list Z) (g : prime_gen),
      emits primes_next (primes (Some [(2, 0)]) 2) l g -> ~ In 2 l) /\
  (forall (fuel : nat) (n : Z) (g : prime_gen),
      primes_next fuel (primes (Some [(2, 0)]) 2) = Yield n g -> n = 3) /\
  first_n primes_next 1 1 (primes (Some [(2, 0)]) 2) = Ret [3].
Proof.
  split; [| split].
  - intros l g Hem Hin.
    pose proof (emits_primes_sound _ _ _ _ _ Hem (prime_state_fresh _ _))
      as Hall.
    rewrite Forall_forall in Hall. destruct (Hall 2 Hin) as [Hp _].
    discriminate.
  - intros fuel n g Hnext. destruct fuel as [| fuel]; [discriminate |].
    vm_compute in Hnext. injection Hnext as <- _. reflexivity.
  - vm_compute. reflexivity.
Qed.

(** C3: the code breaks the claim.  With the rules omitted and
    [start = 2], [primes()] begins 17, 19, 23, 29, 31, 37, 41, 43, 47, 53
    and not 2, 3, 5, 7, 11, 13, 17, 19, 23, 29: no run of it ever yields
    one of 2, 3, 5, 7, 11 and 13, although each of them is at least
    [start] and accepted by [is_prime_64], because the default rules put
    these six primes themselves into forbidden classes.  With an empty
    rule list the same generator does begin with the ten values of the
    claim. *)
Theorem primes_default_drops_small_primes :
  first_n primes_next 10 10 (primes None 2) =
  Ret [17; 19; 23; 29; 31; 37; 41; 43; 47; 53] /\
  (forall (l : list Z) (g : prime_gen),
      emits primes_next (primes None 2) l g ->
      forall p : Z, In p [2; 3; 5; 7; 11; 13] -> ~ In p l) /\
  Forall (fun p => 2 <= p /\ is_prime_64 p = true) [2; 3; 5; 7; 11; 13] /\
  first_n primes_next 10 10 (primes (Some []) 2) =
  Ret [2; 3; 5; 7; 11; 13; 17; 19; 23; 29].
Proof.
  split; [vm_compute; reflexivity |]. split; [| split].
  - intros l g Hem p Hp Hin.
    pose proof (emits_primes_sound _ _ _ _ _ Hem (prime_state_fresh _ _))
      as Hall.
    rewrite Forall_forall in Hall. destruct (Hall p Hin) as [Hpass _].
    cbn [In] in Hp.
    repeat (destruct Hp as [<- | Hp]; [discriminate Hpass |]).
    destruct Hp.
  - repeat constructor; try lia; vm_compute; reflexivity.
  - vm_compute. reflexivity.
Qed.

(** ** The oracle against trial division *)

Section FastRefines.

Local Abbreviation phi := Uint63.to_Z.

Lemma eqb_phi (x y : int) : (x =? y)%uint63 = (phi x =? phi y).
Proof.
  destruct (eqbP x y) as [E | E]; destruct (Z.eqb_spec (phi x) (phi y));
    congruence.
Qed.

Lemma ltb_phi (x y : int) : (x <? y)%uint63 = (phi x <? phi y).
Proof.
  destruct (ltbP x y) as [E | E]; destruct (Z.ltb_spec (phi x) (phi y));
    try reflexivity; lia.
Qed.

Lemma mul_phi (x y : int) :
  phi x * phi y < wB -> phi (x * y)%uint63 = phi x * phi y.
Proof.
  intros H. rewrite mul_spec. apply Z.mod_small.
  pose proof (to_Z_bounded x). pose proof (to_Z_bounded y). nia.
Qed.

Lemma pred_phi (x : int) : 0 < phi x -> phi (x - 1)%uint63 = phi x - 1.
Proof.
  intros H. rewrite sub_spec, to_Z_1. apply Z.mod_small.
  pose proof (to_Z_bounded x). lia.
Qed.

Lemma trial_refines (n : int) (ps : list int) :
  Fast.trial n ps = trial_pure (phi n) (map phi ps).
Proof.
  induction ps as [| p ps IH]; simpl; [reflexivity |].
  rewrite eqb_phi, eqb_phi, mod_spec, to_Z_0, IH. reflexivity.
Qed.

Lemma split_refines (p : positive) :
  forall (fuel : nat) (d : int) (k : nat),
    phi d = Zpos p -> (Pos.size_nat p <= fuel)%nat ->
    phi (fst (Fast.split fuel d k)) = Zpos (odd_part p) /\
    Z.of_nat (snd (Fast.split fuel d k)) = Z.of_nat k + two_val p.
Proof.
  induction p as [p _ | p IH |]; intros fuel d k Hd Hf;
    (destruct fuel as [| fuel]; [simpl in Hf; lia |]);
    cbn [Fast.split]; rewrite eqb_phi, mod_spec, to_Z_0, Hd.
  - change (phi 2) with 2. rewrite Pos2Z.inj_xI.
    replace ((2 * Z.pos p + 1) mod 2) with 1
      by (rewrite Z.add_comm, Z.mul_comm, Z_mod_plus_full; reflexivity).
    cbn [Z.eqb fst snd odd_part two_val]. rewrite Hd.
    split; [reflexivity | lia].
  - change (phi 2) with 2. rewrite Pos2Z.inj_xO.
    replace ((2 * Z.pos p) mod 2) with 0
      by (rewrite Z.mul_comm, Z_mod_mult; reflexivity).
    cbn [Z.eqb]. 
    destruct (IH fuel (d / 2)%uint63 (S k)) as [H1 H2].
    + rewrite div_spec, Hd. change (phi 2) with 2. rewrite Pos2Z.inj_xO.
      rewrite Z.mul_comm, Z_div_mult by lia. reflexivity.
    + simpl in Hf. lia.
    + split; [exact H1 |]. rewrite H2. cbn [two_val]. lia.
  - change (phi 2) with 2. change (1 mod 2) with 1.
    cbn [Z.eqb fst snd odd_part two_val]. rewrite Hd.
    split; [reflexivity | lia].
Qed.

Lemma pow_mod_pos_range (a : Z) (p : positive) (n : Z) :
  0 < n -> 0 <= Py.pow_mod_pos a p n < n.
Proof.
  intros Hn. destruct p; cbn [Py.pow_mod_pos]; apply Z.mod_pos_bound, Hn.
Qed.

Section Bounded.

Variable n : int.
Hypothesis Hpos : 0 < phi n.
Hypothesis Hsmall : phi n < 2 ^ 31.

Lemma sq_phi (y : int) :
  0 <= phi y < phi n -> phi ((y * y) mod n)%uint63 = (phi y * phi y) mod phi n.
Proof.
  intros Hy. rewrite mod_spec, mul_phi; [reflexivity |].
  change wB with (2 ^ 63). 
  assert (phi y * phi y < 2 ^ 31 * 2 ^ 31) by nia.
  change (2 ^ 31 * 2 ^ 31) with (2 ^ 62) in *. 
  assert (2 ^ 62 < 2 ^ 63) by reflexivity. lia.
Qed.

Lemma mulmod_phi (y a : int) :
  0 <= phi y < phi n -> 0 <= phi a < phi n ->
  phi ((y * a) mod n)%uint63 = (phi y * phi a) mod phi n.
Proof.
  intros Hy Ha. rewrite mod_spec, mul_phi; [reflexivity |].
  change wB with (2 ^ 63). 
  assert (phi y * phi a < 2 ^ 31 * 2 ^ 31) by nia.
  change (2 ^ 31 * 2 ^ 31) with (2 ^ 62) in *. 
  assert (2 ^ 62 < 2 ^ 63) by reflexivity. lia.
Qed.

Lemma pow_mod_refines (a : int) (p : positive) :
  0 <= phi a < phi n ->
  forall (fuel : nat) (e : int),
    phi e = Zpos p -> (Pos.size_nat p <= fuel)%nat ->
    phi (Fast.pow_mod fuel a e n) = Py.pow_mod_pos (phi a) p (phi n).
Proof.
  intros Ha.
  induction p as [p IH | p IH |]; intros fuel e He Hf;
    (destruct fuel as [| fuel]; [simpl in Hf; lia |]);
    cbn [Fast.pow_mod Py.pow_mod_pos]; rewrite eqb_phi, He, to_Z_1.
  - cbn [Z.eqb Pos.eqb]. rewrite eqb_phi, mod_spec, He, to_Z_0.
    change (phi 2) with 2. rewrite Pos2Z.inj_xI.
    replace ((2 * Z.pos p + 1) mod 2) with 1
      by (rewrite Z.add_comm, Z.mul_comm, Z_mod_plus_full; reflexivity).
    cbn [Z.eqb].
    assert (Hy : phi (Fast.pow_mod fuel a (e / 2)%uint63 n)
                 = Py.pow_mod_pos (phi a) p (phi n)).
    { apply IH; [| simpl in Hf; lia].
      rewrite div_spec, He. change (phi 2) with 2. rewrite Pos2Z.inj_xI.
      rewrite Z.add_comm, Z.mul_comm, Z_div_plus_full by lia. reflexivity. }
    pose proof (pow_mod_pos_range (phi a) p (phi n) Hpos) as Hr.
    rewrite mulmod_phi; [| rewrite sq_phi by (rewrite Hy; exact Hr);
                           apply Z.mod_pos_bound, Hpos | exact Ha].
    rewrite sq_phi by (rewrite Hy; exact Hr). rewrite Hy. reflexivity.
  - cbn [Z.eqb Pos.eqb]. rewrite eqb_phi, mod_spec, He, to_Z_0.
    change (phi 2) with 2. rewrite Pos2Z.inj_xO.
    replace ((2 * Z.pos p) mod 2) with 0
      by (rewrite Z.mul_comm, Z_mod_mult; reflexivity).
    cbn [Z.eqb].
    assert (Hy : phi (Fast.pow_mod fuel a (e / 2)%uint63 n)
                 = Py.pow_mod_pos (phi a) p (phi n)).
    { apply IH; [| simpl in Hf; lia].
      rewrite div_spec, He. change (phi 2) with 2. rewrite Pos2Z.inj_xO.
      rewrite Z.mul_comm, Z_div_mult by lia. reflexivity. }
    pose proof (pow_mod_pos_range (phi a) p (phi n) Hpos) as Hr.
    rewrite sq_phi by (rewrite Hy; exact Hr). rewrite Hy. reflexivity.
  - cbn [Z.eqb Pos.eqb]. apply mod_spec.
Qed.

Lemma squares_refines (k : nat) :
  forall x : int,
    0 <= phi x < phi n ->
    Fast.squares k x n = squares k (phi x) (phi n).
Proof.
  induction k as [| k IH]; intros x Hx; cbn [Fast.squares squares];
    [reflexivity |].
  rewrite eqb_phi, sq_phi, pred_phi by assumption.
  destruct (phi x * phi x mod phi n =? phi n - 1); [reflexivity |].
  rewrite <- (sq_phi x Hx). apply IH.
  rewrite sq_phi by assumption. apply Z.mod_pos_bound, Hpos.
Qed.

Lemma witness_refines (a d : int) (k : nat) (p : positive) :
  phi d = Zpos p ->
  Fast.witness_ok a d k n =
  witness_ok (phi a) (Zpos p) (Z.of_nat k) (phi n).
Proof.
  intros Hd. unfold Fast.witness_ok, witness_ok.
  pose proof (Z.mod_pos_bound (phi a) (phi n) Hpos) as Ha.
  rewrite <- mod_spec in Ha.
  rewrite eqb_phi, mod_spec, to_Z_0.
  destruct (phi a mod phi n =? 0); [reflexivity |].
  assert (Hx : phi (Fast.pow_mod 63 (a mod n)%uint63 d n)
               = Py.pow_mod (phi a mod phi n) (Zpos p) (phi n)).
  { cbn [Py.pow_mod]. rewrite <- mod_spec.
    apply pow_mod_refines; [exact Ha | exact Hd |].
    pose proof (to_Z_bounded d) as Hb. rewrite Hd in Hb.
    change wB with (2 ^ 63) in Hb.
    rewrite size_nat_log2.
    assert (Z.log2 (Z.pos p) < 63) by (apply Z.log2_lt_pow2; lia). lia. }
  rewrite !eqb_phi, Hx, to_Z_1, pred_phi by exact Hpos.
  destruct ((Py.pow_mod (phi a mod phi n) (Z.pos p) (phi n) =? 1)
            || (Py.pow_mod (phi a mod phi n) (Z.pos p) (phi n) =? phi n - 1));
    [reflexivity |].
  rewrite squares_refines.
  - rewrite Hx. f_equal. lia.
  - rewrite Hx. cbn [Py.pow_mod]. apply pow_mod_pos_range, Hpos.
Qed.

End Bounded.

Lemma is_prime_refines (n : int) :
  phi n < 2 ^ 31 -> Fast.is_prime n = is_prime_pure (phi n).
Proof.
  intros Hsmall. unfold Fast.is_prime, is_prime_pure.
  rewrite ltb_phi. change (phi 2) with 2.
  destruct (Z.ltb_spec (phi n) 2) as [| Hn]; [reflexivity |].
  rewrite trial_refines. change (map phi Fast.small) with small.
  destruct (trial_pure (phi n) small); [reflexivity |].
  assert (Hpred : phi (n - 1)%uint63 = phi n - 1) by (apply pred_phi; lia).
  destruct (phi n - 1) as [| p | p] eqn:E; try lia.
  destruct (split_refines p 63 (n - 1)%uint63 0 Hpred) as [Hd Hk].
  { pose proof (to_Z_bounded n) as Hb. change wB with (2 ^ 63) in Hb.
    rewrite size_nat_log2.
    assert (Z.log2 (Z.pos p) < 63) by (apply Z.log2_lt_pow2; lia). lia. }
  destruct (Fast.split 63 (n - 1)%uint63 0) as [d k]. cbn [fst snd] in *.
  change (map phi Fast.bases) with bases.
  assert (Hb : forall l : list int,
             forallb (fun a => Fast.witness_ok a d k n) l =
             forallb (fun a => witness_ok a (Z.pos (odd_part p)) (two_val p)
                                 (phi n)) (map phi l)).
  { induction l as [| a l IH]; [reflexivity |]. cbn [forallb map].
    rewrite IH, (witness_refines n) with (p := odd_part p);
      [| lia | exact Hsmall | exact Hd].
    rewrite Hk. reflexivity. }
  rewrite Hb. reflexivity.
Qed.

End FastRefines.

Section CompositesRejected.

Local Abbreviation phi := Uint63.to_Z.

Lemma forallb_false {A : Type} (f : A -> bool) (l : list A) :
  forallb f l = false -> exists x, In x l /\ f x = false.
Proof.
  induction l as [| a l IH]; simpl; [discriminate |].
  destruct (f a) eqn:E; simpl; intros H.
  - destruct (IH H) as (x & Hx & Hf). exists x. split; [right |]; assumption.
  - exists a. split; [left; reflexivity | exact E].
Qed.

(** A failed trial division exhibits a factorisation. *)
Lemma trial_division_false (n : Z) :
  2 <= n -> trial_division n = false ->
  exists a b, n = a * b /\ 2 <= a <= b /\ a <= Z.sqrt n.
Proof.
  intros Hn H. unfold trial_division in H.
  destruct (Z.leb_spec 2 n); [| lia]. simpl in H.
  apply forallb_false in H. destruct H as (d & Hd & Hz).
  apply range_from_In in Hd. apply negb_false_iff, Z.eqb_eq in Hz.
  pose proof (Z.sqrt_spec n ltac:(lia)) as Hs. cbv zeta in Hs.
  assert (Hsq : 0 <= Z.sqrt n) by apply Z.sqrt_nonneg.
  assert (Hle : 2 <= d <= Z.sqrt n) by lia. clear Hd.
  exists d, (n / d). split; [| split; [split |]]; try lia.
  - apply Z_div_exact_2; lia.
  - apply Z.div_le_lower_bound; [lia |].
    apply Z.le_trans with (Z.sqrt n * Z.sqrt n);
      [apply Z.mul_le_mono_nonneg; lia | lia].
Qed.

Lemma trial_pure_divisor (n : Z) (ps : list Z) :
  (exists p, In p ps /\ n mod p = 0) ->
  (forall p, In p ps -> n <> p) ->
  trial_pure n ps = Some false.
Proof.
  induction ps as [| q ps IH]; intros (p & Hin & Hp) Hne;
    [destruct Hin |].
  cbn [trial_pure].
  destruct (Z.eqb_spec n q) as [E | _]; [exfalso; eapply Hne; [left |]; eauto |].
  destruct (Z.eqb_spec (n mod q) 0) as [| Hq]; [reflexivity |].
  apply IH.
  - destruct Hin as [-> | Hin]; [contradiction |]. exists p. tauto.
  - intros p' Hp'. apply Hne. right. exact Hp'.
Qed.

(** No member of [small] is a product of two factors from 2 on. *)
Lemma small_not_product (a b : Z) :
  2 <= a <= b -> ~ In (a * b) small.
Proof.
  intros Hab Hin. assert (Ha : a < 7).
  { assert (a * b <= 37).
    { unfold small in Hin. simpl in Hin.
      repeat (destruct Hin as [<- | Hin]; [lia |]). destruct Hin. }
    nia. }
  assert (Hcase : a = 2 \/ a = 3 \/ a = 4 \/ a = 5 \/ a = 6) by lia.
  unfold small in Hin. simpl in Hin.
  repeat (destruct Hin as [Hin | Hin];
          [destruct Hcase as [-> | [-> | [-> | [-> | ->]]]]; lia |]).
  destruct Hin.
Qed.

Lemma small_factor_rejected (a b : Z) :
  2 <= a <= b -> has_small_factor a = true -> is_prime_pure (a * b) = false.
Proof.
  intros Hab Hf. unfold is_prime_pure.
  destruct (Z.ltb_spec (a * b) 2); [reflexivity |].
  rewrite trial_pure_divisor; [reflexivity | |].
  - unfold has_small_factor in Hf. apply existsb_exists in Hf.
    destruct Hf as (p & Hp & Hz). apply Z.eqb_eq in Hz.
    exists p. split; [exact Hp |].
    destruct (Z.eq_dec p 0) as [-> | Hnz].
    + rewrite Z.mod_0_r in *. subst. reflexivity.
    + apply Z.mod_divide; [exact Hnz |].
      apply Z.divide_mul_l, Z.mod_divide; assumption.
  - intros p Hp E. apply (small_not_product a b Hab). rewrite E. exact Hp.
Qed.

Lemma succ_phi (b : int) : phi b + 1 < wB -> phi (b + 1)%uint63 = phi b + 1.
Proof.
  intros H. rewrite add_spec, to_Z_1. apply Z.mod_small.
  pose proof (to_Z_bounded b). lia.
Qed.

(** What a run of the inner loop has checked. *)
Lemma iter_step_b (a : int) (k : nat) :
  forall (b : int) (ok : bool),
    phi b + Z.of_nat k < wB ->
    snd (Nat.iter k (Fast.step_b a) (b, ok)) = true ->
    ok = true /\
    forall z, phi b <= z < phi b + Z.of_nat k ->
      Fast.is_prime (a * of_Z z)%uint63 = false.
Proof.
  induction k as [| k IH]; intros b ok Hb Hrun.
  - split; [exact Hrun | intros z Hz; lia].
  - rewrite Nat.iter_succ_r in Hrun. cbn [Fast.step_b] in Hrun.
    apply IH in Hrun; [| rewrite succ_phi; lia].
    destruct Hrun as [Hok Hall]. apply andb_true_iff in Hok.
    destruct Hok as [Hok Hb0]. split; [exact Hok |].
    intros z Hz. destruct (Z.eq_dec z (phi b)) as [-> | Hne].
    + rewrite of_to_Z. apply negb_true_iff, Hb0.
    + apply Hall. rewrite succ_phi; lia.
Qed.

Lemma of_Z_phi (z : Z) : 0 <= z < wB -> phi (of_Z z) = z.
Proof. intros H. rewrite of_Z_spec. apply Z.mod_small, H. Qed.

Lemma check_factor_spec (a b : Z) :
  2 <= a <= b -> a * b < limit -> check_factor a = true ->
  is_prime_pure (a * b) = false.
Proof.
  intros Hab Hlim Hc. unfold check_factor in Hc.
  apply orb_true_iff in Hc. destruct Hc as [Hc | Hc];
    [apply small_factor_rejected; assumption |].
  rewrite N2Nat.inj_iter in Hc. unfold limit in *.
  assert (Hw : 10000000 < 2 ^ 31) by reflexivity.
  assert (Hw' : 2 ^ 31 < wB) by reflexivity.
  assert (Hb : b <= (10000000 - 1) / a)
    by (apply Z.div_le_lower_bound; lia).
  assert (Hbound : a < 10000000 /\ b < 10000000).
  { assert (2 * b <= a * b) by (apply Z.mul_le_mono_nonneg_r; lia). lia. }
  assert (Ha : phi (of_Z a) = a) by (apply of_Z_phi; lia).
  assert (Hb' : phi (of_Z b) = b) by (apply of_Z_phi; lia).
  assert (Hmul : phi (of_Z a * of_Z b)%uint63 = a * b).
  { rewrite mul_phi; rewrite Ha, Hb'; [reflexivity | lia]. }
  assert (Hfuel : phi (of_Z a)
                  + Z.of_nat (N.to_nat (Z.to_N ((10000000 - 1) / a - a + 1)))
                  < wB).
  { rewrite Ha. assert ((10000000 - 1) / a <= 10000000 - 1).
    { apply Z.div_le_upper_bound; lia. } lia. }
  pose proof (iter_step_b _ _ _ _ Hfuel Hc) as [_ Hall].
  specialize (Hall b). rewrite Ha in Hall.
  rewrite is_prime_refines, Hmul in Hall by (rewrite Hmul; lia).
  apply Hall. lia.
Qed.

(** The check itself: every [a] from 2 to 3162, the square root of
    [limit - 1], passes [check_factor]. *)
Lemma check_all_true : forallb check_factor (Py.range_from 3161 2) = true.
Proof. vm_compute. reflexivity. Qed.

Lemma range_3161 (a : Z) : 2 <= a <= 3162 -> In a (Py.range_from 3161 2).
Proof. intros H. apply range_from_In. lia. Qed.

(** Below [limit], whatever trial division finds composite the oracle
    rejects. *)
Lemma composite_rejected (n : Z) :
  2 <= n < limit -> trial_division n = false -> is_prime_pure n = false.
Proof.
  intros Hn Ht.
  destruct (trial_division_false n ltac:(lia) Ht) as (a & b & -> & Hab & Hs).
  assert (Hr : Z.sqrt (a * b) <= Z.sqrt (limit - 1))
    by (apply Z.sqrt_le_mono; lia).
  change (Z.sqrt (limit - 1)) with 3162 in Hr.
  apply check_factor_spec; [exact Hab | lia |].
  apply (proj1 (forallb_forall check_factor _) check_all_true).
  apply range_3161. lia.
Qed.

End CompositesRejected.

Section PrimesAccepted.

(** Trial division up to the square root decides primality. *)
Lemma trial_division_prime (n : Z) :
  trial_division n = true -> Z.prime n.
Proof.
  intros H. unfold trial_division in H. apply andb_true_iff in H.
  destruct H as [Hn Hall]. apply Z.leb_le in Hn.
  rewrite forallb_forall in Hall.
  assert (Hnd : forall d, 2 <= d <= Z.sqrt n -> ~ (d | n)).
  { intros d Hd Hdiv. specialize (Hall d).
    rewrite range_from_In in Hall.
    assert (Hz : negb (n mod d =? 0) = true) by (apply Hall; lia).
    apply negb_true_iff, Z.eqb_neq in Hz. apply Hz.
    apply Z.mod_divide; [lia | exact Hdiv]. }
  pose proof (Z.sqrt_spec n ltac:(lia)) as Hs. cbv zeta in Hs.
  assert (Hsq : 0 <= Z.sqrt n) by apply Z.sqrt_nonneg.
  split; [lia |]. intros d Hd [c Hc].
  destruct (Z_le_gt_dec d (Z.sqrt n)) as [Hle | Hgt].
  - apply (Hnd d); [lia | exists c; exact Hc].
  - assert (Hc2 : 2 <= c) by nia.
    apply (Hnd c).
    + split; [exact Hc2 |].
      destruct (Z_le_gt_dec c (Z.sqrt n)) as [| Hc3]; [assumption |].
      exfalso.
      assert (Z.succ (Z.sqrt n) * Z.succ (Z.sqrt n) <= c * d)
        by (apply Z.mul_le_mono_nonneg; lia).
      lia.
    + exists d. rewrite Z.mul_comm. exact Hc.
Qed.

Lemma prime_trial_pure (n : Z) (ps : list Z) :
  Z.prime n -> Forall (fun p => 1 < p) ps ->
  trial_pure n ps = Some true \/ trial_pure n ps = None.
Proof.
  intros [Hn Hp]. induction 1 as [| p ps Hgt _ IH]; cbn [trial_pure];
    [right; reflexivity |].
  destruct (Z.eqb_spec n p) as [| Hne]; [left; reflexivity |].
  destruct (Z.eqb_spec (n mod p) 0) as [Hz | _]; [| exact IH].
  exfalso. apply Z.mod_divide in Hz; [| lia].
  apply (Hp p); [| exact Hz].
  pose proof (Z.divide_pos_le p n ltac:(lia) Hz). lia.
Qed.

Lemma small_gt_1 : Forall (fun p => 1 < p) small.
Proof. unfold small. repeat constructor. Qed.

Lemma odd_part_spec (p : positive) :
  Zpos p = Zpos (odd_part p) * 2 ^ two_val p /\ 0 <= two_val p.
Proof.
  induction p as [p _ | p [IH1 IH2] |]; cbn [odd_part two_val].
  - rewrite Z.pow_0_r. lia.
  - split; [| lia]. rewrite Z.pow_add_r, Z.pow_1_r by lia.
    rewrite Pos2Z.inj_xO, IH1 at 1. ring.
  - rewrite Z.pow_0_r. lia.
Qed.

Lemma pow_mod_pos_spec (a : Z) (p : positive) (n : Z) :
  Py.pow_mod_pos a p n = a ^ Zpos p mod n.
Proof.
  induction p as [p IH | p IH |]; cbn [Py.pow_mod_pos].
  - rewrite IH, Pos2Z.inj_xI.
    rewrite Z.pow_add_r, Z.pow_1_r, Z.pow_mul_r, Z.pow_2_r by lia.
    replace ((a * a) ^ Z.pos p) with (a ^ Z.pos p * a ^ Z.pos p)
      by (rewrite Z.pow_mul_l; reflexivity).
    rewrite <- Zmult_mod. rewrite Zmult_mod_idemp_l. reflexivity.
  - rewrite IH, Pos2Z.inj_xO. rewrite Z.pow_mul_r, Z.pow_2_r by lia.
    replace ((a * a) ^ Z.pos p) with (a ^ Z.pos p * a ^ Z.pos p)
      by (rewrite Z.pow_mul_l; reflexivity).
    rewrite <- Zmult_mod. reflexivity.
  - rewrite Z.pow_1_r. reflexivity.
Qed.

Lemma sq_iter_pow (n : Z) (k : nat) :
  forall x, sq_iter k (x mod n) n = x ^ (2 ^ Z.of_nat k) mod n.
Proof.
  induction k as [| k IH]; intros x; cbn [sq_iter].
  - rewrite Z.pow_0_r, Z.pow_1_r. reflexivity.
  - rewrite <- Zmult_mod, IH.
    rewrite Nat2Z.inj_succ, Z.pow_succ_r, Z.pow_mul_r, Z.pow_2_r by lia.
    reflexivity.
Qed.

(** Modulo a prime, 1 has the square roots 1 and -1 only. *)
Lemma sqrt_unity (n x : Z) :
  Z.prime n -> 0 <= x < n -> (x * x) mod n = 1 -> x = 1 \/ x = n - 1.
Proof.
  intros Hp Hx Hsq. pose proof (Z.prime_ge_2 n Hp) as Hn.
  assert (Hdiv : (n | (x - 1) * (x + 1))).
  { replace ((x - 1) * (x + 1)) with (x * x - 1) by ring.
    apply Z.mod_divide; [lia |].
    rewrite Zminus_mod, Hsq, Z.mod_1_l by lia. reflexivity. }
  apply Z.divide_prime_mul in Hdiv; [| exact Hp].
  destruct Hdiv as [[c Hc] | [c Hc]]; [left | right].
  - assert (c = 0); [| subst c; lia].
    destruct (Z_lt_le_dec c 0); [nia |]. destruct (Z_lt_le_dec 0 c); nia.
  - assert (c = 1); [| subst c; lia].
    destruct (Z_lt_le_dec c 1); [nia |]. destruct (Z_lt_le_dec 1 c); nia.
Qed.

Lemma squares_reach (n : Z) :
  Z.prime n ->
  forall (k : nat) (x : Z),
    0 <= x < n -> x <> 1 -> x <> n - 1 ->
    sq_iter (S k) x n = 1 -> squares k x n = true.
Proof.
  intros Hp. pose proof (Z.prime_ge_2 n Hp) as Hn.
  induction k as [| k IH]; intros x Hx H1 Hm Hsq.
  - cbn [sq_iter] in Hsq. destruct (sqrt_unity n x Hp Hx Hsq); contradiction.
  - cbn [squares]. cbn [sq_iter] in Hsq. 
    destruct (Z.eqb_spec ((x * x) mod n) (n - 1)) as [| Hne]; [reflexivity |].
    apply IH.
    + apply Z.mod_pos_bound. lia.
    + intros E. destruct (sqrt_unity n x Hp Hx E); contradiction.
    + exact Hne.
    + exact Hsq.
Qed.

Lemma witness_ok_prime (n a : Z) (p : positive) :
  Z.prime n -> n - 1 = Zpos p -> 1 <= two_val p ->
  witness_ok a (Zpos (odd_part p)) (two_val p) n = true.
Proof.
  intros Hp Hn Hs. pose proof (Z.prime_ge_2 n Hp) as Hn2.
  unfold witness_ok. cbv zeta.
  destruct (Z.eqb_spec (a mod n) 0) as [| Ha]; [reflexivity |].
  cbn [Py.pow_mod]. rewrite pow_mod_pos_spec.
  set (x := (a mod n) ^ Z.pos (odd_part p) mod n).
  destruct (Z.eqb_spec x 1) as [| H1]; [reflexivity |].
  destruct (Z.eqb_spec x (n - 1)) as [| Hm]; [reflexivity |].
  cbn [orb]. apply squares_reach; try assumption.
  - apply Z.mod_pos_bound. lia.
  - replace (S (Z.to_nat (two_val p - 1))) with (Z.to_nat (two_val p))
      by lia.
    unfold x. rewrite sq_iter_pow, Z2Nat.id by lia.
    rewrite <- Z.pow_mul_r by (try apply Z.pow_nonneg; lia).
    destruct (odd_part_spec p) as [<- _]. rewrite <- Hn.
    apply Z.fermat_nz; [exact Hp |].
    rewrite Z.mod_mod by lia. exact Ha.
Qed.

Lemma trial_pure_odd (n : Z) :
  trial_pure n small = None -> n mod 2 <> 0.
Proof.
  unfold small. cbn [trial_pure].
  destruct (n =? 2); [discriminate |].
  destruct (Z.eqb_spec (n mod 2) 0); [discriminate | intros _; assumption].
Qed.

(** Every prime, of whatever size, is accepted. *)
Lemma prime_accepted (n : Z) : Z.prime n -> is_prime_pure n = true.
Proof.
  intros Hp. pose proof (Z.prime_ge_2 n Hp) as Hn.
  unfold is_prime_pure.
  destruct (Z.ltb_spec n 2); [lia |].
  destruct (prime_trial_pure n small Hp small_gt_1) as [E | E]; rewrite E;
    [reflexivity |].
  apply trial_pure_odd in E.
  destruct (n - 1) as [| p | p] eqn:Hn1; try lia.
  assert (Hs : 1 <= two_val p).
  { destruct p as [p | p |]; cbn [two_val].
    - exfalso. apply E. replace n with (2 * (Z.pos p + 1)) by lia.
      rewrite Z.mul_comm. apply Z_mod_mult.
    - pose proof (odd_part_spec p). lia.
    - exfalso. apply E. replace n with 2 by lia. reflexivity. }
  apply forallb_forall. intros a _. apply witness_ok_prime; assumption.
Qed.

End PrimesAccepted.

(** C1: for every integer [n] with [0 <= n < 10,000,000] the oracle
    returns what trial division up to the square root of [n] finds, true
    exactly for the primes; and for every [n < 2], negative [n] included,
    it returns false. *)
Theorem is_prime_64_agrees :
  (forall n : Z,
      0 <= n < 10000000 ->
      is_prime_64_run (fuel_for n) n = Ret (trial_division n) /\
      is_prime_64 n = trial_division n) /\
  (forall (n : Z) (fuel : nat),
      n < 2 -> is_prime_64_run fuel n = Ret false /\ is_prime_64 n = false).
Proof.
  split.
  - intros n Hn.
    assert (E : is_prime_pure n = trial_division n).
    { destruct (Z_lt_le_dec n 2) as [Hlt | Hge].
      - unfold is_prime_pure, trial_division.
        destruct (Z.ltb_spec n 2); [| lia].
        destruct (Z.leb_spec 2 n); [lia | reflexivity].
      - destruct (trial_division n) eqn:E.
        + apply prime_accepted, trial_division_prime, E.
        + apply composite_rejected; [unfold limit; lia | exact E]. }
    rewrite is_prime_64_pure, is_prime_64_run_ret by lia.
    rewrite E. split; reflexivity.
  - intros n fuel Hn. split.
    + unfold is_prime_64_run. destruct (Z.ltb_spec n 2); [reflexivity | lia].
    + rewrite is_prime_64_pure. unfold is_prime_pure.
      destruct (Z.ltb_spec n 2); [reflexivity | lia].
Qed.

Lemma is_prime_64_agrees_witness :
  0 <= 9999991 < 10000000 /\
  is_prime_64_run (fuel_for 9999991) 9999991 = Ret (trial_division 9999991) /\
  is_prime_64 9999991 = trial_division 9999991.
Proof.
  assert (H : 0 <= 9999991 < 10000000) by lia.
  split; [exact H |]. exact (proj1 is_prime_64_agrees 9999991 H).
Defined.

(** * Further properties *)

(** ** Rules and the period of the wheel *)

Section RuleFacts.

Lemma passes_forbidden_true (n : Z) (rules : list ForbiddenCongruence) :
  passes_forbidden n rules = Ret true <-> Forall (rule_misses n) rules.
Proof.
  induction rules as [| [m r] rules IH]; cbn [passes_forbidden].
  - split; [constructor | reflexivity].
  - unfold Py.mod_. destruct (Z.eqb_spec m 0) as [-> | Hm]; cbn [bind].
    + split; [discriminate |]. intros H. apply Forall_inv in H.
      destruct H as [H _]. contradiction.
    + destruct (Z.eqb_spec (n mod m) r) as [E | E].
      * split; [discriminate |]. intros H. apply Forall_inv in H.
        destruct H as [_ H]. contradiction.
      * rewrite IH. split.
        -- intros H. constructor; [split; assumption | exact H].
        -- intros H. apply Forall_inv_tail in H. exact H.
Qed.

Lemma passes_forbidden_false (n : Z) (rules : list ForbiddenCongruence) :
  passes_forbidden n rules = Ret false <->
  exists pre m post,
    rules = pre ++ (m, n mod m) :: post /\ m <> 0 /\
    Forall (rule_misses n) pre.
Proof.
  induction rules as [| [m r] rules IH]; cbn [passes_forbidden].
  - split; [discriminate |]. intros (pre & m & post & E & _).
    destruct pre; discriminate.
  - unfold Py.mod_. destruct (Z.eqb_spec m 0) as [-> | Hm]; cbn [bind].
    + split; [discriminate |]. intros (pre & m & post & E & Hm & Hpre).
      destruct pre as [| rule pre]; simpl in E; injection E as E1 E2.
      * congruence.
      * subst rule. apply Forall_inv in Hpre. destruct Hpre as [H _].
        contradiction.
    + destruct (Z.eqb_spec (n mod m) r) as [E | E].
      * split; [intros _ | reflexivity].
        exists [], m, rules. subst r. repeat split; [exact Hm | constructor].
      * rewrite IH. split.
        -- intros (pre & m' & post & -> & Hm' & Hpre).
           exists ((m, r) :: pre), m', post.
           repeat split; [exact Hm' |].
           constructor; [split; assumption | exact Hpre].
        -- intros (pre & m' & post & E' & Hm' & Hpre).
           destruct pre as [| rule pre]; simpl in E'; injection E' as E1 E2.
           ++ congruence.
           ++ exists pre, m', post. apply Forall_inv_tail in Hpre.
              repeat split; assumption.
Qed.

Lemma passes_forbidden_raise (n : Z) (rules : list ForbiddenCongruence)
  (e : exn) :
  passes_forbidden n rules = Raise e <->
  e = ZeroDivisionError /\
  exists pre r post,
    rules = pre ++ (0, r) :: post /\ Forall (rule_misses n) pre.
Proof.
  induction rules as [| [m r] rules IH]; cbn [passes_forbidden].
  - split; [discriminate |]. intros (_ & pre & r & post & E & _).
    destruct pre; discriminate.
  - unfold Py.mod_. destruct (Z.eqb_spec m 0) as [-> | Hm]; cbn [bind].
    + split.
      * intros H. injection H as <-. split; [reflexivity |].
        exists [], r, rules. split; [reflexivity | constructor].
      * intros [-> _]. reflexivity.
    + destruct (Z.eqb_spec (n mod m) r) as [E | E].
      * split; [discriminate |].
        intros (_ & pre & r' & post & E' & Hpre).
        destruct pre as [| rule pre]; simpl in E'; injection E' as E1 E2.
        -- congruence.
        -- subst rule. apply Forall_inv in Hpre. destruct Hpre as [_ H].
           contradiction.
      * rewrite IH. split.
        -- intros (-> & pre & r' & post & -> & Hpre).
           split; [reflexivity |]. exists ((m, r) :: pre), r', post.
           split; [reflexivity |].
           constructor; [split; assumption | exact Hpre].
        -- intros (-> & pre & r' & post & E' & Hpre).
           split; [reflexivity |].
           destruct pre as [| rule pre]; simpl in E'; injection E' as E1 E2.
           ++ congruence.
           ++ exists pre, r', post. apply Forall_inv_tail in Hpre.
              split; assumption.
Qed.

Lemma passes_forbidden_returns (n : Z) (rules : list ForbiddenCongruence) :
  passes_forbidden n rules <> Diverge.
Proof.
  induction rules as [| [m r] rules IH]; cbn [passes_forbidden];
    [discriminate |].
  unfold Py.mod_. destruct (m =? 0); cbn [bind]; [discriminate |].
  destruct (n mod m =? r); [discriminate | exact IH].
Qed.

(** Shifting [n] by a common multiple of the moduli changes nothing, not
    even which rule raises. *)
Lemma passes_forbidden_shift (n k : Z) (rules : list ForbiddenCongruence) :
  Forall (fun rule => (fst rule | k)) rules ->
  passes_forbidden (n + k) rules = passes_forbidden n rules.
Proof.
  induction 1 as [| [m r] rules Hm _ IH]; cbn [passes_forbidden];
    [reflexivity |].
  unfold Py.mod_. destruct (m =? 0); [reflexivity |]. cbn [bind].
  rewrite mod_shift by exact Hm. rewrite IH. reflexivity.
Qed.

Lemma product_perm (l l' : list Z) :
  Permutation l l' -> product l = product l'.
Proof.
  unfold product.
  induction 1 as [| x l l' _ IH | x y l | l l' l'' _ IH1 _ IH2]; cbn.
  - reflexivity.
  - rewrite IH. reflexivity.
  - ring.
  - rewrite IH1. exact IH2.
Qed.

Lemma passes_pure_true (n : Z) (rules : list ForbiddenCongruence) :
  passes_pure n rules = true <->
  forall rule, In rule rules -> n mod fst rule <> snd rule.
Proof.
  induction rules as [| [m r] rules IH]; cbn [passes_pure].
  - split; [intros _ rule [] | reflexivity].
  - destruct (Z.eqb_spec (n mod m) r) as [E | E].
    + split; [discriminate |]. intros H. exfalso.
      apply (H (m, r)); [left; reflexivity | exact E].
    + rewrite IH. split.
      * intros H rule [<- | Hin]; [exact E | apply H, Hin].
      * intros H rule Hin. apply H. right. exact Hin.
Qed.

Lemma passes_pure_same_set (n : Z) (rules rules' : list ForbiddenCongruence) :
  (forall rule, In rule rules <-> In rule rules') ->
  passes_pure n rules = passes_pure n rules'.
Proof.
  intros Hset.
  destruct (passes_pure n rules) eqn:E; destruct (passes_pure n rules') eqn:E';
    try reflexivity; exfalso.
  - rewrite passes_pure_true in E.
    assert (H : passes_pure n rules' = true).
    { apply passes_pure_true. intros rule Hin. apply E, Hset, Hin. }
    congruence.
  - rewrite passes_pure_true in E'.
    assert (H : passes_pure n rules = true).
    { apply passes_pure_true. intros rule Hin. apply E', Hset, Hin. }
    congruence.
Qed.

Lemma period_same_set (rules rules' : list ForbiddenCongruence) :
  (forall rule, In rule rules <-> In rule rules') ->
  period rules = period rules'.
Proof.
  intros Hset.
  destruct (period_product rules) as (mods & _ & -> & Hnd & Hin).
  destruct (period_product rules') as (mods' & _ & -> & Hnd' & Hin').
  apply product_perm, NoDup_Permutation; try assumption.
  intros z. rewrite Hin, Hin', !in_map_iff.
  split; intros (rule & E & H); exists rule; (split; [exact E |]);
    apply Hset, H.
Qed.

End RuleFacts.

(** X1: which rule list gives which outcome of [passes_forbidden].  It
    returns true exactly when every rule has a nonzero modulus and misses
    [n]; false exactly when some rule matches [n] and all rules before it
    have nonzero moduli and miss; it raises, and then
    [ZeroDivisionError], exactly when a zero modulus comes before any
    match; and it always returns or raises. *)
Theorem passes_forbidden_outcome (n : Z) (rules : list ForbiddenCongruence) :
  (passes_forbidden n rules = Ret true <-> Forall (rule_misses n) rules) /\
  (passes_forbidden n rules = Ret false <->
   exists pre m post,
     rules = pre ++ (m, n mod m) :: post /\ m <> 0 /\
     Forall (rule_misses n) pre) /\
  (forall e : exn,
      passes_forbidden n rules = Raise e <->
      e = ZeroDivisionError /\
      exists pre r post,
        rules = pre ++ (0, r) :: post /\ Forall (rule_misses n) pre) /\
  passes_forbidden n rules <> Diverge.
Proof.
  split; [apply passes_forbidden_true |].
  split; [apply passes_forbidden_false |].
  split; [intros e; apply passes_forbidden_raise |].
  apply passes_forbidden_returns.
Qed.

(** X2: [passes_forbidden] against the rules of a built wheel is periodic
    with period [wheel.M]: shifting [n] by any multiple of [M] changes
    neither the answer nor the exception, for every rule list. *)
Theorem passes_forbidden_periodic (rules : list ForbiddenCongruence) :
  exists wheel : Wheel,
    build_wheel rules = Ret wheel /\
    forall n k : Z,
      passes_forbidden (n + k * M wheel) (forbidden wheel) =
      passes_forbidden n (forbidden wheel).
Proof.
  eexists. split; [apply build_wheel_ret |]. intros n k. cbn [M forbidden].
  apply passes_forbidden_shift.
  eapply Forall_impl; [| apply period_divide].
  intros rule H. apply Z.divide_mul_r, H.
Qed.

(** X3: [wheel.M] is the product of the distinct moduli of the rule list,
    each taken once however often it occurs. *)
Theorem wheel_modulus_product (rules : list ForbiddenCongruence) :
  exists (wheel : Wheel) (mods : list Z),
    build_wheel rules = Ret wheel /\
    NoDup mods /\
    (forall m, In m mods <-> In m (map fst rules)) /\
    M wheel = product mods.
Proof.
  destruct (period_product rules) as (mods & _ & E & Hnd & Hin).
  eexists. exists mods. split; [apply build_wheel_ret |].
  repeat split; try assumption; apply Hin.
Qed.

(** X4: the period and the residues of the built wheel depend only on the
    set of rules: two rule lists with the same members, in any order and
    with any repetitions, give the same [M] and the same [residues]. *)
Theorem wheel_same_rule_set (rules rules' : list ForbiddenCongruence) :
  (forall rule, In rule rules <-> In rule rules') ->
  exists wheel wheel' : Wheel,
    build_wheel rules = Ret wheel /\ build_wheel rules' = Ret wheel' /\
    M wheel = M wheel' /\ residues wheel = residues wheel'.
Proof.
  intros Hset. do 2 eexists.
  split; [apply build_wheel_ret |]. split; [apply build_wheel_ret |].
  cbn [M residues]. pose proof (period_same_set _ _ Hset) as E.
  split; [exact E |]. unfold survivors. rewrite E.
  apply filter_ext. intros r. apply passes_pure_same_set, Hset.
Qed.

Lemma wheel_same_rule_set_witness :
  (forall rule,
      In rule [(2, 0); (3, 0)] <-> In rule [(3, 0); (2, 0); (3, 0)]) /\
  exists wheel wheel' : Wheel,
    build_wheel [(2, 0); (3, 0)] = Ret wheel /\
    build_wheel [(3, 0); (2, 0); (3, 0)] = Ret wheel' /\
    M wheel = M wheel' /\ residues wheel = residues wheel'.
Proof.
  assert (H : forall rule,
             In rule [(2, 0); (3, 0)] <-> In rule [(3, 0); (2, 0); (3, 0)])
    by (intros rule; simpl; tauto).
  split; [exact H |]. exact (wheel_same_rule_set _ _ H).
Defined.

(** ** The oracle and the prime stream *)

Section OracleExtras.

(** No member of [small] divides another one. *)
Lemma small_coprime (p q : Z) :
  In p small -> In q small -> (p | q) -> p = q.
Proof.
  intros Hp Hq Hdiv.
  assert (Hall : forallb
                   (fun p => forallb
                      (fun q => implb (q mod p =? 0) (p =? q)) small) small
                 = true) by reflexivity.
  rewrite forallb_forall in Hall. specialize (Hall p Hp).
  rewrite forallb_forall in Hall. specialize (Hall q Hq).
  assert (Hz : q mod p = 0).
  { apply Z.mod_divide; [| exact Hdiv].
    intros ->. unfold small in Hp. simpl in Hp.
    repeat (destruct Hp as [Hp | Hp]; [discriminate |]). destruct Hp. }
  rewrite Hz in Hall. cbn in Hall. apply Z.eqb_eq, Hall.
Qed.

Lemma small_multiple_rejected (n p : Z) :
  In p small -> (p | n) -> n <> p -> is_prime_pure n = false.
Proof.
  intros Hp Hdiv Hne. unfold is_prime_pure.
  destruct (Z.ltb_spec n 2); [reflexivity |].
  rewrite trial_pure_divisor; [reflexivity | |].
  - exists p. split; [exact Hp |]. apply Z.mod_divide; [| exact Hdiv].
    intros ->. destruct Hdiv as [c Hc]. lia.
  - intros q Hq ->. apply Hne. symmetry.
    apply small_coprime; assumption.
Qed.

(** Below [limit] the oracle accepts primes only. *)
Lemma accepted_is_prime (n : Z) :
  n < limit -> is_prime_pure n = true -> Z.prime n.
Proof.
  intros Hn Hacc. apply trial_division_prime.
  destruct (trial_division n) eqn:E; [reflexivity |].
  assert (Hge : 2 <= n).
  { unfold is_prime_pure in Hacc.
    destruct (Z.ltb_spec n 2); [discriminate | assumption]. }
  rewrite composite_rejected in Hacc; [discriminate | lia | exact E].
Qed.

End OracleExtras.

(** X5: [is_prime_64] has no false negative, whatever the size of [n]:
    every prime is accepted. *)
Theorem is_prime_64_accepts_primes (n : Z) :
  Z.prime n ->
  is_prime_64 n = true /\
  forall fuel : nat,
    (fuel_for n <= fuel)%nat -> is_prime_64_run fuel n = Ret true.
Proof.
  intros Hp. pose proof (prime_accepted n Hp) as E. split.
  - rewrite is_prime_64_pure. exact E.
  - intros fuel Hf. rewrite is_prime_64_run_ret by exact Hf.
    rewrite E. reflexivity.
Qed.

Lemma is_prime_64_accepts_primes_witness :
  Z.prime 1000003 /\
  is_prime_64 1000003 = true /\
  forall fuel : nat,
    (fuel_for 1000003 <= fuel)%nat -> is_prime_64_run fuel 1000003 = Ret true.
Proof.
  assert (H : Z.prime 1000003)
    by (apply trial_division_prime; vm_compute; reflexivity).
  split; [exact H |]. exact (is_prime_64_accepts_primes 1000003 H).
Defined.

(** X6: [is_prime_64] rejects every integer, of whatever size, that one of
    the twelve small primes divides, unless it is that prime. *)
Theorem is_prime_64_rejects_small_multiples (n p : Z) :
  In p small -> (p | n) -> n <> p -> is_prime_64 n = false.
Proof.
  intros Hp Hdiv Hne. rewrite is_prime_64_pure.
  apply small_multiple_rejected with (p := p); assumption.
Qed.

Lemma is_prime_64_rejects_small_multiples_witness :
  In 37 small /\ (37 | 37 * 2 ^ 100) /\ 37 * 2 ^ 100 <> 37 /\
  is_prime_64 (37 * 2 ^ 100) = false.
Proof.
  assert (H1 : In 37 small) by (unfold small; simpl; tauto).
  assert (H2 : (37 | 37 * 2 ^ 100)) by (exists (2 ^ 100); ring).
  assert (H3 : 37 * 2 ^ 100 <> 37) by (vm_compute; discriminate).
  split; [exact H1 |]. split; [exact H2 |]. split; [exact H3 |].
  exact (is_prime_64_rejects_small_multiples _ 37 H1 H2 H3).
Defined.

Section PrimeStream.

Variable rules : option (list ForbiddenCongruence).
Variable start : Z.

Let wheel : Wheel := wheel_of (rules_of rules).

Let at_loop (cands : cand_gen) : prime_gen :=
  {| pg_forbidden := rules; pg_start := start; pg_pc := PLoop wheel cands |}.

Lemma wheel_of_ok : wheel_ok wheel.
Proof. apply survivors_ok. Qed.

(** The filter of [primes] on a candidate of its wheel is the oracle. *)
Lemma accept_candidate (cands cands' : cand_gen) (fuel : nat) (m : Z) :
  cand_state wheel start cands ->
  cand_next fuel cands = Yield m cands' ->
  accept_checked wheel m = Ret (is_prime_64 m).
Proof.
  intros Hst Hnext.
  destruct (candidate_accept rules start _ _ _ _ Hst Hnext) as [_ Hpass].
  unfold accept_checked. cbn [forbidden wheel wheel_of].
  rewrite Hpass. cbn [bind]. reflexivity.
Qed.

(** More fuel does not change what the loop of [primes] yields. *)
Lemma primes_run_more (fuel : nat) :
  forall (fuel' : nat) cands n g,
    (fuel <= fuel')%nat ->
    cand_state wheel start cands ->
    primes_run accept_checked rules start fuel wheel cands = Yield n g ->
    primes_run accept_checked rules start fuel' wheel cands = Yield n g.
Proof.
  induction fuel as [| fuel IH]; intros fuel' cands n g Hle Hst Hrun;
    [discriminate |].
  destruct fuel' as [| fuel']; [lia |].
  cbn [primes_run] in *.
  destruct (cand_next (S fuel) cands) as [m cands' | e g0 |] eqn:E;
    try discriminate.
  rewrite (cand_next_more (S fuel) (S fuel') cands)
    by (try lia; rewrite E; discriminate).
  rewrite E.
  rewrite (accept_candidate _ _ _ _ Hst E) in *.
  destruct (is_prime_64 m); [exact Hrun |].
  apply IH; [lia | | exact Hrun].
  apply (candidate_accept rules start _ _ _ _ Hst E).
Qed.

(** A yield of the loop: the value exceeds every bound the candidate
    generator was above, and the new candidate generator is above it. *)
Lemma primes_run_ok (fuel : nat) :
  forall cands n g,
    cand_state wheel start cands ->
    primes_run accept_checked rules start fuel wheel cands = Yield n g ->
    exists cands',
      g = at_loop cands' /\ cand_state wheel start cands' /\
      below wheel start n cands' /\ start <= n /\ 0 < M wheel /\
      forall b, below wheel start b cands -> b < n.
Proof.
  induction fuel as [| fuel IH]; intros cands n g Hst Hrun; [discriminate |].
  cbn [primes_run] in Hrun.
  destruct (cand_next (S fuel) cands) as [m cands' | e g0 |] eqn:E;
    try discriminate.
  destruct (cand_next_ok wheel start wheel_of_ok _ _ _ _ Hst E)
    as (Hst' & Hbelow & Hge & Hres & Hup).
  assert (HM : 0 < M wheel).
  { pose proof (residue_range wheel wheel_of_ok _ Hres). lia. }
  rewrite (accept_candidate _ _ _ _ Hst E) in Hrun.
  destruct (is_prime_64 m).
  - injection Hrun as <- <-. exists cands'.
    split; [reflexivity |]. split; [exact Hst' |].
    split; [exact Hbelow |]. split; [exact Hge |].
    split; [exact HM | exact Hup].
  - destruct (IH _ _ _ Hst' Hrun) as (c & Hg & Hc & Hb & Hs & _ & Hup').
    exists c. split; [exact Hg |]. split; [exact Hc |].
    split; [exact Hb |]. split; [exact Hs |]. split; [exact HM |].
    intros b Hb0. specialize (Hup b Hb0). specialize (Hup' m Hbelow). lia.
Qed.

(** With a period that is not zero nothing in the loop raises. *)
Lemma primes_run_no_raise (fuel : nat) :
  M wheel <> 0 ->
  forall cands e g,
    cand_state wheel start cands ->
    primes_run accept_checked rules start fuel wheel cands <> GRaise e g.
Proof.
  intros HM. induction fuel as [| fuel IH]; intros cands e g Hst;
    [discriminate |].
  cbn [primes_run].
  destruct (cand_next (S fuel) cands) as [m cands' | e' cands' |] eqn:E;
    try discriminate.
  - rewrite (accept_candidate _ _ _ _ Hst E).
    destruct (is_prime_64 m); [discriminate |].
    apply IH. apply (candidate_accept rules start _ _ _ _ Hst E).
  - exfalso. destruct Hst as (Hw & Hs & Hpc). unfold cand_next in E.
    rewrite Hw, Hs in E.
    destruct (cg_pc cands) as [| q rest |]; [| | exact Hpc].
    + rewrite floordiv_ret in E by exact HM.
      apply cand_run_yield_or_diverge in E. exact E.
    + apply cand_run_yield_or_diverge in E. exact E.
Qed.

Lemma primes_next_fresh (fuel : nat) :
  primes_next fuel (primes rules start) =
  primes_run accept_checked rules start fuel wheel
    (candidate_stream wheel start).
Proof.
  unfold primes_next, primes_next_with. cbn [pg_pc primes pg_forbidden pg_start].
  fold (rules_of rules). rewrite build_wheel_ret. reflexivity.
Qed.

Lemma primes_next_run (fuel : nat) (g : prime_gen) :
  prime_state rules start g ->
  exists cands,
    cand_state wheel start cands /\
    (forall b, prime_below start b g -> below wheel start b cands) /\
    primes_next fuel g =
    primes_run accept_checked rules start fuel wheel cands.
Proof.
  intros (Hr & Hs & Hpc). unfold prime_below.
  unfold primes_next, primes_next_with. rewrite Hr, Hs.
  fold (rules_of rules).
  destruct (pg_pc g) as [| w cands |]; [| | destruct Hpc].
  - exists (candidate_stream wheel start).
    split; [apply cand_state_fresh |]. split; [intros b Hb; exact Hb |].
    rewrite build_wheel_ret. reflexivity.
  - destruct Hpc as [-> Hst]. exists cands.
    split; [exact Hst |]. split; [intros b Hb; exact Hb | reflexivity].
Qed.

Lemma prime_state_loop (cands : cand_gen) :
  cand_state wheel start cands -> prime_state rules start (at_loop cands).
Proof.
  intros H. split; [reflexivity |]. split; [reflexivity |].
  split; [reflexivity | exact H].
Qed.

Lemma primes_next_ok (fuel : nat) (g g' : prime_gen) (n : Z) :
  prime_state rules start g ->
  primes_next fuel g = Yield n g' ->
  prime_state rules start g' /\ prime_below start n g' /\ start <= n /\
  0 < M wheel /\
  forall b, prime_below start b g -> b < n.
Proof.
  intros Hst Hnext.
  destruct (primes_next_run fuel g Hst) as (cands & Hc & Hb & E).
  rewrite E in Hnext.
  destruct (primes_run_ok _ _ _ _ Hc Hnext)
    as (c & -> & Hc' & Hbelow & Hge & HM & Hup).
  split; [apply prime_state_loop, Hc' |].
  split; [exact Hbelow |]. split; [exact Hge |]. split; [exact HM |].
  intros b Hb0. apply Hup, Hb, Hb0.
Qed.

Lemma emits_primes_sorted (g : prime_gen) (l : list Z) (g' : prime_gen) :
  emits primes_next g l g' ->
  prime_state rules start g ->
  StronglySorted Z.lt l /\ Forall (Z.le start) l /\
  forall b, prime_below start b g -> Forall (Z.lt b) l.
Proof.
  induction 1 as [g | g fuel n g1 l g2 Hnext _ IH]; intros Hst.
  - repeat split; constructor.
  - destruct (primes_next_ok _ _ _ _ Hst Hnext)
      as (Hst1 & Hb1 & Hge & _ & Hup).
    destruct (IH Hst1) as (Hsorted & Hall & Hbound).
    split; [constructor; [exact Hsorted | apply Hbound, Hb1] |].
    split; [constructor; assumption |].
    intros b Hb. constructor; [apply Hup, Hb |].
    specialize (Hbound n Hb1). specialize (Hup b Hb).
    eapply Forall_impl; [| exact Hbound]. intros x Hx. simpl in Hx. lia.
Qed.

Lemma primes_next_loop (fuel : nat) (cands : cand_gen) :
  primes_next fuel (at_loop cands) =
  primes_run accept_checked rules start fuel wheel cands.
Proof. reflexivity. Qed.

(** A state that yields whatever another state yields, yields the values
    of its runs. *)
Lemma emits_primes_skip (g1 g2 g' : prime_gen) (l : list Z) (n : Z) :
  (forall fuel m g,
      primes_next fuel g2 = Yield m g ->
      exists fuel', primes_next fuel' g1 = Yield m g) ->
  emits primes_next g2 l g' -> In n l ->
  exists l' g'', emits primes_next g1 l' g'' /\ In n l'.
Proof.
  intros Hskip Hem Hin. destruct Hem as [g2 | g2 fuel m g3 l g' Hnext Hem].
  - destruct Hin.
  - exists (m :: l), g'. split; [| exact Hin].
    destruct (Hskip _ _ _ Hnext) as [fuel' Hnext'].
    apply emits_cons with (fuel := fuel') (g1 := g3); assumption.
Qed.

(** What the oracle accepts among the candidates is yielded. *)
Lemma primes_lift (n : Z) (cands : cand_gen) (l : list Z)
  (cands' : cand_gen) :
  emits cand_next cands l cands' ->
  cand_state wheel start cands ->
  In n l -> is_prime_64 n = true ->
  exists l' g',
    emits primes_next (at_loop cands) l' g' /\ In n l'.
Proof.
  intros Hem. induction Hem as [c | c fuel m c1 l c2 Hnext Hem IH];
    intros Hst Hin Hacc; [destruct Hin |].
  pose proof (accept_candidate _ _ _ _ Hst Hnext) as Hfilter.
  destruct (candidate_accept rules start _ _ _ _ Hst Hnext) as [Hst1 _].
  assert (Hstep : forall k, cand_next (S (fuel + k)) c = Yield m c1).
  { intros k. rewrite (cand_next_more fuel (S (fuel + k)) c)
      by (try lia; rewrite Hnext; discriminate). exact Hnext. }
  destruct (is_prime_64 m) eqn:Em.
  - assert (Hy : primes_next (S fuel) (at_loop c) = Yield m (at_loop c1)).
    { rewrite primes_next_loop. cbn [primes_run].
      rewrite <- (Nat.add_0_r fuel) at 1. rewrite Hstep, Hfilter.
      reflexivity. }
    destruct Hin as [<- | Hin].
    + exists [m], (at_loop c1). split; [| left; reflexivity].
      econstructor; [exact Hy | constructor].
    + destruct (IH Hst1 Hin Hacc) as (l' & g' & Hem' & Hin').
      exists (m :: l'), g'. split; [| right; exact Hin'].
      econstructor; eassumption.
  - destruct Hin as [<- | Hin]; [congruence |].
    destruct (IH Hst1 Hin Hacc) as (l' & g' & Hem' & Hin').
    refine (emits_primes_skip _ _ _ _ _ _ Hem' Hin').
    intros fuel' x g Hx. exists (S (fuel + fuel')).
    rewrite primes_next_loop in *. cbn [primes_run].
    rewrite Hstep, Hfilter.
    apply primes_run_more with (fuel := fuel'); [lia | exact Hst1 | exact Hx].
Qed.

Lemma primes_reach (n : Z) :
  0 < M wheel ->
  start <= n ->
  passes_forbidden n (rules_of rules) = Ret true ->
  is_prime_64 n = true ->
  exists l g, emits primes_next (primes rules start) l g /\ In n l.
Proof.
  intros HM Hge Hpass Hacc.
  assert (Hin : In (n mod M wheel) (residues wheel)).
  { cbn [M residues wheel wheel_of] in *. apply survivors_In.
    split; [apply Z.mod_pos_bound; exact HM |].
    rewrite passes_pure_mod.
    rewrite passes_forbidden_ret in Hpass by (apply period_nonzero; lia).
    congruence. }
  destruct (reach_from_fresh wheel start n wheel_of_ok Hge Hin)
    as (l & c & Hem & Hl).
  destruct (primes_lift n _ _ _ Hem (cand_state_fresh _ _) Hl Hacc)
    as (l' & g' & Hem' & Hl').
  refine (emits_primes_skip _ _ _ _ _ _ Hem' Hl').
  intros fuel x g Hx. exists fuel.
  rewrite primes_next_fresh. rewrite primes_next_loop in Hx. exact Hx.
Qed.

(** The first value is below every later one and every other run's
    first value is the same. *)
Lemma primes_first_least (fuel : nat) (n : Z) (g : prime_gen) :
  primes_next fuel (primes rules start) = Yield n g ->
  forall (l : list Z) (g' : prime_gen) (m : Z),
    emits primes_next (primes rules start) l g' -> In m l -> n <= m.
Proof.
  intros Hfirst l g' m Hem Hin.
  destruct (emits_primes_sorted _ _ _ Hem (prime_state_fresh _ _))
    as (Hsorted & _ & _).
  remember (primes rules start) as g0 eqn:Eg.
  destruct Hem as [g0 | g0 fuel' x g1 l g' Hx Hem]; [destruct Hin |].
  subst g0. rewrite primes_next_fresh in Hfirst, Hx.
  assert (E : x = n).
  { pose proof (primes_run_more fuel (Nat.max fuel fuel') _ _ _
                  (Nat.le_max_l _ _) (cand_state_fresh _ _) Hfirst) as H1.
    pose proof (primes_run_more fuel' (Nat.max fuel fuel') _ _ _
                  (Nat.le_max_r _ _) (cand_state_fresh _ _) Hx) as H2.
    congruence. }
  subst x. apply StronglySorted_inv in Hsorted. destruct Hsorted as [_ Hlt].
  destruct Hin as [<- | Hin]; [lia |].
  rewrite Forall_forall in Hlt. apply Hlt in Hin. lia.
Qed.

Lemma emits_prime_state (g : prime_gen) (l : list Z) (g' : prime_gen) :
  emits primes_next g l g' ->
  prime_state rules start g -> prime_state rules start g'.
Proof.
  induction 1 as [g | g fuel n g1 l g2 Hnext _ IH]; intros Hst;
    [exact Hst |].
  apply IH. apply (primes_next_ok _ _ _ _ Hst Hnext).
Qed.

Lemma zero_modulus_period :
  Exists (fun rule => fst rule = 0) (rules_of rules) -> M wheel = 0.
Proof.
  intros Hex. cbn [M wheel wheel_of].
  destruct (Z.eq_dec (period (rules_of rules)) 0) as [E | Hne];
    [exact E | exfalso].
  apply period_nonzero in Hne. rewrite Forall_forall in Hne.
  apply Exists_exists in Hex. destruct Hex as (rule & Hin & Hz).
  apply (Hne rule Hin Hz).
Qed.

End PrimeStream.

(** X8: the values of [primes(rules, start)] are strictly increasing, and
    each is at least [start], passes every rule and is accepted by the
    oracle; for every rule list. *)
Theorem primes_increasing_and_sound
  (rules : option (list ForbiddenCongruence)) (start : Z)
  (l : list Z) (g : prime_gen) :
  emits primes_next (primes rules start) l g ->
  StronglySorted Z.lt l /\
  Forall (fun n => start <= n /\
                   passes_forbidden n (rules_of rules) = Ret true /\
                   is_prime_64 n = true) l.
Proof.
  intros Hem.
  destruct (emits_primes_sorted rules start _ _ _ Hem (prime_state_fresh _ _))
    as (Hsorted & Hge & _).
  pose proof (emits_primes_sound rules start _ _ _ Hem
                (prime_state_fresh _ _)) as Hsound.
  split; [exact Hsorted |].
  rewrite Forall_forall in *. intros n Hin.
  destruct (Hsound n Hin) as [Hp Hq].
  split; [apply Hge, Hin |]. split; assumption.
Qed.

Lemma primes_increasing_and_sound_witness :
  (exists g, emits primes_next (primes (Some [(2, 0)]) 2) [3; 5; 7] g) /\
  StronglySorted Z.lt [3; 5; 7] /\
  Forall (fun n => 2 <= n /\
                   passes_forbidden n (rules_of (Some [(2, 0)])) = Ret true /\
                   is_prime_64 n = true) [3; 5; 7].
Proof.
  assert (H : exists g,
             emits primes_next (primes (Some [(2, 0)]) 2) [3; 5; 7] g).
  { apply (first_n_emits primes_next 5 3). vm_compute. reflexivity. }
  split; [exact H |]. destruct H as [g Hem].
  exact (primes_increasing_and_sound (Some [(2, 0)]) 2 [3; 5; 7] g Hem).
Defined.

(** X9: [primes] misses nothing.  When the built wheel has a positive
    period, every integer from [start] on that passes the rules and that
    the oracle accepts is yielded. *)
Theorem primes_complete
  (rules : option (list ForbiddenCongruence)) (start : Z)
  (wheel : Wheel) (n : Z) :
  build_wheel (rules_of rules) = Ret wheel -> 0 < M wheel ->
  start <= n ->
  passes_forbidden n (rules_of rules) = Ret true ->
  is_prime_64 n = true ->
  exists (l : list Z) (g : prime_gen),
    emits primes_next (primes rules start) l g /\ In n l.
Proof.
  intros Hbuild HM Hge Hpass Hacc. rewrite build_wheel_ret in Hbuild.
  injection Hbuild as <-. apply primes_reach; assumption.
Qed.

Lemma primes_complete_witness :
  build_wheel (rules_of (Some [(2, 0)])) =
  Ret {| M := 2; residues := [1]; forbidden := [(2, 0)] |} /\
  0 < 2 /\ 2 <= 1000003 /\
  passes_forbidden 1000003 (rules_of (Some [(2, 0)])) = Ret true /\
  is_prime_64 1000003 = true /\
  exists (l : list Z) (g : prime_gen),
    emits primes_next (primes (Some [(2, 0)]) 2) l g /\ In 1000003 l.
Proof.
  assert (H1 : build_wheel (rules_of (Some [(2, 0)])) =
               Ret {| M := 2; residues := [1]; forbidden := [(2, 0)] |})
    by reflexivity.
  assert (H2 : 0 < 2) by lia.
  assert (H3 : 2 <= 1000003) by lia.
  assert (H4 : passes_forbidden 1000003 (rules_of (Some [(2, 0)])) = Ret true)
    by reflexivity.
  assert (H5 : is_prime_64 1000003 = true) by (vm_compute; reflexivity).
  repeat (split; [assumption |]).
  exact (primes_complete (Some [(2, 0)]) 2 _ 1000003 H1 H2 H3 H4 H5).
Defined.

(** X10: with positive moduli every prime number from [start] on that
    passes the rules is yielded by [primes], however large. *)
Theorem primes_yields_every_prime
  (rules : option (list ForbiddenCongruence)) (start : Z) (n : Z) :
  Forall (fun rule => 0 < fst rule) (rules_of rules) ->
  Z.prime n -> start <= n ->
  passes_forbidden n (rules_of rules) = Ret true ->
  exists (l : list Z) (g : prime_gen),
    emits primes_next (primes rules start) l g /\ In n l.
Proof.
  intros Hpos Hp Hge Hpass. apply primes_reach; try assumption.
  - cbn [M]. apply period_pos, Hpos.
  - rewrite is_prime_64_pure. apply prime_accepted, Hp.
Qed.

Lemma primes_yields_every_prime_witness :
  Forall (fun rule : ForbiddenCongruence => 0 < fst rule)
    (rules_of (Some [(2, 0); (3, 0)])) /\
  Z.prime 1000003 /\ 5 <= 1000003 /\
  passes_forbidden 1000003 (rules_of (Some [(2, 0); (3, 0)])) = Ret true /\
  exists (l : list Z) (g : prime_gen),
    emits primes_next (primes (Some [(2, 0); (3, 0)]) 5) l g /\
    In 1000003 l.
Proof.
  assert (H1 : Forall (fun rule : ForbiddenCongruence => 0 < fst rule)
                 (rules_of (Some [(2, 0); (3, 0)])))
    by (repeat constructor).
  assert (H2 : Z.prime 1000003)
    by (apply trial_division_prime; vm_compute; reflexivity).
  assert (H3 : 5 <= 1000003) by lia.
  assert (H4 : passes_forbidden 1000003 (rules_of (Some [(2, 0); (3, 0)]))
               = Ret true) by reflexivity.
  repeat (split; [assumption |]).
  exact (primes_yields_every_prime (Some [(2, 0); (3, 0)]) 5 1000003
           H1 H2 H3 H4).
Defined.

(** X11: every value below 10,000,000 that [primes] yields is a prime
    number, for every rule list and [start]. *)
Theorem primes_below_limit_are_prime
  (rules : option (list ForbiddenCongruence)) (start : Z)
  (l : list Z) (g : prime_gen) :
  emits primes_next (primes rules start) l g ->
  Forall (fun n => n < 10000000 -> Z.prime n) l.
Proof.
  intros Hem.
  pose proof (emits_primes_sound rules start _ _ _ Hem
                (prime_state_fresh _ _)) as Hsound.
  eapply Forall_impl; [| exact Hsound].
  intros n [_ Hacc] Hn. rewrite is_prime_64_pure in Hacc.
  apply accepted_is_prime; [exact Hn | exact Hacc].
Qed.

Lemma primes_below_limit_are_prime_witness :
  (exists g, emits primes_next (primes None 2) [17; 19; 23] g) /\
  Forall (fun n => n < 10000000 -> Z.prime n) [17; 19; 23].
Proof.
  assert (H : exists g, emits primes_next (primes None 2) [17; 19; 23] g).
  { apply (first_n_emits primes_next 5 3). vm_compute. reflexivity. }
  split; [exact H |]. destruct H as [g Hem].
  exact (primes_below_limit_are_prime None 2 [17; 19; 23] g Hem).
Defined.

(** X12: [primes] raises only through a zero modulus.  If a rule has
    modulus 0, the first [next()] raises [ZeroDivisionError], which
    finishes the generator; if no rule has, no [next()] ever raises. *)
Theorem primes_raises_on_zero_modulus_only
  (rules : option (list ForbiddenCongruence)) (start : Z) :
  (Exists (fun rule => fst rule = 0) (rules_of rules) ->
   forall fuel : nat,
     primes_next (S fuel) (primes rules start) =
     GRaise ZeroDivisionError
       {| pg_forbidden := rules; pg_start := start; pg_pc := PDone |}) /\
  (Forall (fun rule => fst rule <> 0) (rules_of rules) ->
   forall (l : list Z) (g g' : prime_gen) (fuel : nat) (e : exn),
     emits primes_next (primes rules start) l g ->
     primes_next fuel g <> GRaise e g').
Proof.
  split.
  - intros Hex fuel. rewrite primes_next_fresh. cbn [primes_run].
    unfold cand_next. cbn [cg_pc candidate_stream cg_wheel cg_start].
    rewrite (zero_modulus_period rules Hex). reflexivity.
  - intros Hnz l g g' fuel e Hem.
    pose proof (emits_prime_state rules start _ _ _ Hem
                  (prime_state_fresh _ _)) as Hst.
    destruct (primes_next_run rules start fuel g Hst) as (cands & Hc & _ & E).
    rewrite E. apply primes_run_no_raise; [| exact Hc].
    cbn [M wheel_of]. apply period_keeps_nonzero, Hnz.
Qed.

(** X13: the first value of [primes(rules, start)] is the least integer
    from [start] on that passes the rules and that the oracle accepts: it
    is such an integer itself, and no such integer lies below it. *)
Theorem primes_first_is_least
  (rules : option (list ForbiddenCongruence)) (start : Z)
  (fuel : nat) (n : Z) (g : prime_gen) :
  primes_next fuel (primes rules start) = Yield n g ->
  (start <= n /\
   passes_forbidden n (rules_of rules) = Ret true /\
   is_prime_64 n = true) /\
  forall m : Z,
    start <= m ->
    passes_forbidden m (rules_of rules) = Ret true ->
    is_prime_64 m = true ->
    n <= m.
Proof.
  intros Hfirst.
  destruct (primes_next_ok rules start _ _ _ _ (prime_state_fresh _ _) Hfirst)
    as (_ & _ & Hn & HM & _).
  destruct (primes_next_yield rules start _ _ _ _ (prime_state_fresh _ _)
              Hfirst) as (Hp & Hq & _).
  split; [split; [exact Hn | split; [exact Hp | exact Hq]] |].
  intros m Hge Hpass Hacc.
  destruct (primes_reach rules start m HM Hge Hpass Hacc)
    as (l & g' & Hem & Hin).
  exact (primes_first_least rules start fuel n g Hfirst l g' m Hem Hin).
Qed.

Lemma primes_first_is_least_witness :
  primes_next 1 (primes (Some [(2, 0)]) 2) =
  Yield 3
    {| pg_forbidden := Some [(2, 0)]; pg_start := 2;
       pg_pc :=
         PLoop {| M := 2; residues := [1]; forbidden := [(2, 0)] |}
           {| cg_wheel := {| M := 2; residues := [1];
                             forbidden := [(2, 0)] |};
              cg_start := 2; cg_pc := CLoop 1 [] |} |} /\
  (2 <= 3 /\
   passes_forbidden 3 (rules_of (Some [(2, 0)])) = Ret true /\
   is_prime_64 3 = true) /\
  forall m : Z,
    2 <= m ->
    passes_forbidden m (rules_of (Some [(2, 0)])) = Ret true ->
    is_prime_64 m = true ->
    3 <= m.
Proof.
  assert (H1 : primes_next 1 (primes (Some [(2, 0)]) 2) =
               Yield 3
                 {| pg_forbidden := Some [(2, 0)]; pg_start := 2;
                    pg_pc :=
                      PLoop {| M := 2; residues := [1];
                               forbidden := [(2, 0)] |}
                        {| cg_wheel := {| M := 2; residues := [1];
                                          forbidden := [(2, 0)] |};
                           cg_start := 2; cg_pc := CLoop 1 [] |} |})
    by (vm_compute; reflexivity).
  split; [exact H1 |].
  exact (primes_first_is_least (Some [(2, 0)]) 2 1 3 _ H1).
Defined.

(** X7: below 10,000,000, negative integers included, [is_prime_64]
    answers true exactly for the prime numbers. *)
Theorem is_prime_64_decides_primality (n : Z) :
  n < 10000000 -> (is_prime_64 n = true <-> Z.prime n).
Proof.
  intros Hn. rewrite is_prime_64_pure. split.
  - apply accepted_is_prime. exact Hn.
  - apply prime_accepted.
Qed.

Lemma is_prime_64_decides_primality_witness :
  9999991 < 10000000 /\ (is_prime_64 9999991 = true <-> Z.prime 9999991).
Proof.
  assert (H : 9999991 < 10000000) by lia.
  split; [exact H |]. exact (is_prime_64_decides_primality 9999991 H).
Defined.

Section CandidateMore.

Variable wheel : Wheel.
Variable start : Z.

Let at_loop (q : Z) (rest : list Z) : cand_gen :=
  {| cg_wheel := wheel; cg_start := start; cg_pc := CLoop q rest |}.

(** After its first yield a generator is suspended inside the loops. *)
Lemma emits_loop_state (g0 : cand_gen) (l : list Z) (g : cand_gen) :
  emits cand_next g0 l g ->
  cand_state wheel start g0 ->
  (l = [] /\ g = g0) \/
  (exists q rest, g = at_loop q rest /\ cand_state wheel start g).
Proof.
  induction 1 as [g | g fuel n g1 l g2 Hnext _ IH]; intros Hst;
    [left; split; reflexivity |].
  right.
  destruct (cand_next_state wheel start _ _ _ _ Hst Hnext)
    as (q & r & rest & _ & _ & Hg & Hsuf & _).
  assert (Hst1 : cand_state wheel start g1)
    by (subst g1; eapply cand_state_loop, Hsuf).
  destruct (IH Hst1) as [[_ ->] | H]; [| exact H].
  exists q, rest. split; [exact Hg | exact Hst1].
Qed.

Lemma emits_first {G : Type} (next : nat -> G -> gen_step G)
  (g : G) (l : list Z) (g' : G) (n : Z) :
  emits next g l g' -> In n l ->
  exists fuel x g1, next fuel g = Yield x g1.
Proof.
  intros Hem Hin. destruct Hem as [g | g fuel x g1 l g2 Hnext _];
    [destruct Hin |].
  exists fuel, x, g1. exact Hnext.
Qed.

Lemma loop_state_productive (q : Z) (rest : list Z) (r0 : Z) :
  0 < M wheel -> 0 <= r0 -> In r0 (residues wheel) ->
  exists fuel n g', cand_next fuel (at_loop q rest) = Yield n g'.
Proof.
  intros HM Hr Hin.
  set (qn := Z.max q (start / M wheel) + 1).
  assert (Hge : start <= qn * M wheel + r0).
  { pose proof (Z.mod_pos_bound start (M wheel) HM) as Hmod.
    pose proof (Z.div_mod start (M wheel) ltac:(lia)) as Hdiv.
    assert (start / M wheel + 1 <= qn) by (unfold qn; lia).
    assert ((start / M wheel + 1) * M wheel <= qn * M wheel)
      by (apply Z.mul_le_mono_nonneg_r; lia).
    lia. }
  destruct (reach_later_block wheel start qn r0 Hge Hin
              (Z.to_nat (qn - q - 1)) q rest ltac:(unfold qn; lia))
    as (l & g' & Hem & Hl).
  eapply emits_first; eassumption.
Qed.

End CandidateMore.

(** X16: a wheel with a residue keeps yielding.  For a wheel whose
    residues ascend strictly inside [0, M) and are not empty, every state
    the stream reaches yields again on its next [next()], given enough
    fuel. *)
Theorem candidate_stream_productive (wheel : Wheel) (start : Z)
  (l : list Z) (g : cand_gen) :
  wheel_ok wheel -> residues wheel <> [] ->
  emits cand_next (candidate_stream wheel start) l g ->
  exists (fuel : nat) (n : Z) (g' : cand_gen), cand_next fuel g = Yield n g'.
Proof.
  intros Hok Hne Hem.
  destruct (residues wheel) as [| r0 rs] eqn:Eres; [contradiction |].
  assert (Hin : In r0 (residues wheel)) by (rewrite Eres; left; reflexivity).
  pose proof (residue_range wheel Hok r0 Hin) as Hr.
  destruct (emits_loop_state wheel start _ _ _ Hem (cand_state_fresh _ _))
    as [[_ ->] | (q & rest & -> & _)].
  - set (n := (start / M wheel + 1) * M wheel + r0).
    assert (Hge : start <= n).
    { pose proof (Z.mod_pos_bound start (M wheel) ltac:(lia)) as Hmod.
      pose proof (Z.div_mod start (M wheel) ltac:(lia)) as Hdiv.
      unfold n. lia. }
    assert (Hmod : n mod M wheel = r0).
    { unfold n. rewrite Z.add_comm, Z_mod_plus_full.
      apply Z.mod_small. lia. }
    destruct (reach_from_fresh wheel start n Hok Hge
                ltac:(rewrite Hmod; exact Hin)) as (l' & g' & Hem' & Hl').
    eapply emits_first; eassumption.
  - apply loop_state_productive with (r0 := r0); [lia | lia | exact Hin].
Qed.

Lemma candidate_stream_productive_witness :
  wheel_ok {| M := 6; residues := [1; 5]; forbidden := [(2, 0); (3, 0)] |} /\
  [1; 5] <> [] /\
  (exists g,
      emits cand_next
        (candidate_stream
           {| M := 6; residues := [1; 5]; forbidden := [(2, 0); (3, 0)] |} 2)
        [5; 7] g /\
      exists (fuel : nat) (n : Z) (g' : cand_gen),
        cand_next fuel g = Yield n g').
Proof.
  assert (Hok : wheel_ok
            {| M := 6; residues := [1; 5]; forbidden := [(2, 0); (3, 0)] |}).
  { split; simpl; repeat constructor; simpl; lia. }
  assert (Hne : residues
                  {| M := 6; residues := [1; 5];
                     forbidden := [(2, 0); (3, 0)] |} <> [])
    by discriminate.
  split; [exact Hok |]. split; [exact Hne |].
  destruct (first_n_emits cand_next 3 2
              (candidate_stream
                 {| M := 6; residues := [1; 5];
                    forbidden := [(2, 0); (3, 0)] |} 2)
              [5; 7] eq_refl) as [g Hem].
  exists g. split; [exact Hem |].
  exact (candidate_stream_productive _ 2 [5; 7] g Hok Hne Hem).
Defined.

Section CandidateRaises.

Variable wheel : Wheel.
Variable start : Z.

Let at_loop (q : Z) (rest : list Z) : cand_gen :=
  {| cg_wheel := wheel; cg_start := start; cg_pc := CLoop q rest |}.

Let finished : cand_gen :=
  {| cg_wheel := wheel; cg_start := start; cg_pc := CDone |}.

(** A yield leaves the generator suspended inside the loops. *)
Lemma cand_run_suspends (fuel : nat) :
  forall q rest n g,
    cand_run fuel wheel start q rest = Yield n g ->
    exists q' rest', g = at_loop q' rest'.
Proof.
  induction fuel as [| fuel IH]; intros q rest n g Hrun; [discriminate |].
  cbn [cand_run] in Hrun. destruct rest as [| r rest].
  - eapply IH, Hrun.
  - destruct (q * M wheel + r >=? start).
    + injection Hrun as _ <-. exists q, rest. reflexivity.
    + eapply IH, Hrun.
Qed.

(** A suspended generator never raises again. *)
Lemma trace_suspended (g : cand_gen) (t : list event) (g' : cand_gen) :
  trace cand_next g t g' ->
  (exists q rest, g = at_loop q rest) ->
  forall e, ~ In (Raised e) t.
Proof.
  induction 1 as [g | g fuel n g1 t g' Hnext _ IH
                  | g fuel e g1 t g' Hnext _ IH];
    intros (q & rest & ->) e0 Hin.
  - destruct Hin.
  - destruct Hin as [Habs | Hin]; [discriminate |].
    unfold cand_next in Hnext. cbn [cg_pc cg_wheel cg_start at_loop] in Hnext.
    apply cand_run_suspends in Hnext. exact (IH Hnext e0 Hin).
  - unfold cand_next in Hnext. cbn [cg_pc cg_wheel cg_start at_loop] in Hnext.
    apply cand_run_yield_or_diverge in Hnext. exact Hnext.
Qed.

(** A finished generator raises [StopIteration], and stays finished. *)
Lemma trace_finished (g : cand_gen) (t : list event) (g' : cand_gen) :
  trace cand_next g t g' ->
  g = finished ->
  t = repeat (Raised StopIteration) (length t).
Proof.
  induction 1 as [g | g fuel n g1 t g' Hnext _ IH
                  | g fuel e g1 t g' Hnext _ IH]; intros ->.
  - reflexivity.
  - discriminate.
  - cbn in Hnext. injection Hnext as <- <-. cbn [length repeat].
    f_equal. apply IH. reflexivity.
Qed.

Lemma trace_stop (k : nat) :
  trace cand_next finished (repeat (Raised StopIteration) k) finished.
Proof.
  induction k as [| k IH]; cbn [repeat]; [constructor |].
  apply trace_raise with (fuel := O) (g1 := finished); [reflexivity | exact IH].
Qed.

End CandidateRaises.

(** X17: [candidate_stream] raises [ZeroDivisionError] exactly through a
    zero period, and [StopIteration] exactly after that.  With
    [wheel.M = 0] the first [next()] raises [ZeroDivisionError] before
    anything is yielded, which finishes the generator, and every later
    [next()] raises [StopIteration]; with any other period no [next()]
    that returns raises anything. *)
Theorem candidate_stream_raises_iff (wheel : Wheel) (start : Z) :
  (M wheel = 0 ->
   forall k : nat,
     trace cand_next (candidate_stream wheel start)
       (Raised ZeroDivisionError :: repeat (Raised StopIteration) k)
       {| cg_wheel := wheel; cg_start := start; cg_pc := CDone |}) /\
  (forall (t : list event) (g : cand_gen),
      trace cand_next (candidate_stream wheel start) t g ->
      (M wheel <> 0 /\ forall e : exn, ~ In (Raised e) t) \/
      (M wheel = 0 /\
       (t = [] \/
        t = Raised ZeroDivisionError ::
            repeat (Raised StopIteration) (length t - 1)))).
Proof.
  assert (Hfirst : M wheel = 0 ->
                   forall fuel,
                     cand_next fuel (candidate_stream wheel start) =
                     GRaise ZeroDivisionError
                       {| cg_wheel := wheel; cg_start := start;
                          cg_pc := CDone |}).
  { intros HM fuel. unfold cand_next.
    cbn [cg_pc candidate_stream cg_wheel cg_start]. rewrite HM.
    reflexivity. }
  split.
  - intros HM k.
    eapply trace_raise with (fuel := O); [apply Hfirst, HM | apply trace_stop].
  - intros t g Htr. destruct (Z.eq_dec (M wheel) 0) as [HM | HM].
    + right. split; [exact HM |].
      destruct Htr as [g | g fuel n g1 t g' Hnext Htr
                       | g fuel e g1 t g' Hnext Htr].
      * left. reflexivity.
      * rewrite (Hfirst HM) in Hnext. discriminate.
      * right. rewrite (Hfirst HM) in Hnext. injection Hnext as <- <-.
        cbn [length]. rewrite Nat.sub_succ, Nat.sub_0_r. f_equal.
        eapply trace_finished; [exact Htr | reflexivity].
    + left. split; [exact HM |]. intros e0 Hin.
      remember (candidate_stream wheel start) as g0 eqn:Eg.
      destruct Htr as [g | g fuel n g1 t g' Hnext Htr
                       | g fuel e g1 t g' Hnext Htr]; subst g.
      * destruct Hin.
      * destruct Hin as [Habs | Hin]; [discriminate |].
        unfold cand_next in Hnext.
        cbn [cg_pc candidate_stream cg_wheel cg_start] in Hnext.
        rewrite floordiv_ret in Hnext by exact HM.
        apply cand_run_suspends in Hnext.
        exact (trace_suspended wheel start _ _ _ Htr Hnext e0 Hin).
      * unfold cand_next in Hnext.
        cbn [cg_pc candidate_stream cg_wheel cg_start] in Hnext.
        rewrite floordiv_ret in Hnext by exact HM.
        apply cand_run_yield_or_diverge in Hnext. exact Hnext.
Qed.

(** ** Printing *)

Section PrintSample.

Import String.
Local Open Scope string_scope.

Example print_primes_sample :
  print_primes 10 5 4300 7 3 (Some [(2, 0)]) 2 None =
  {| written := ["3 5 7
"; "11 13 17
"; "19
"];
     closed := false; ended := Ret tt |}.
Proof. vm_compute. reflexivity. Qed.

(** The digit limit at work, scaled down to two digits so that small
    numbers show it: the conversion gives up at 101, with the row before
    it written and the file closed. *)
Example print_primes_digit_limit :
  print_primes 10 5 2 7 3 (Some [(2, 0)]) 80 (Some "primes.txt") =
  {| written := ["83 89 97
"];
     closed := true; ended := Raise ValueError |}.
Proof. vm_compute. reflexivity. Qed.

End PrintSample.

Section StrFacts.

Variable max_digits : Z.

Lemma str_outcome (x : Z) :
  (str max_digits x = Ret (decimal x) /\ fits max_digits x) \/
  (str max_digits x = Raise ValueError /\ 0 < max_digits < digits x).
Proof.
  unfold str, fits.
  destruct (Z.ltb_spec 0 max_digits); destruct (Z.ltb_spec max_digits (digits x));
    cbn [andb]; [right | left | left | left]; (split; [reflexivity | lia]).
Qed.

Lemma str_fits (x : Z) :
  fits max_digits x -> str max_digits x = Ret (decimal x).
Proof.
  intros H. destruct (str_outcome x) as [[E _] | [_ Hlong]]; [exact E |].
  unfold fits in H. lia.
Qed.

Lemma strs_outcome (line : list Z) :
  (strs max_digits line = Ret (map decimal line) /\
   Forall (fits max_digits) line) \/
  (strs max_digits line = Raise ValueError /\ 0 < max_digits /\
   Exists (fun x => max_digits < digits x) line).
Proof.
  induction line as [| x line IH]; cbn [strs map].
  - left. split; [reflexivity | constructor].
  - destruct (str_outcome x) as [[E Hx] | [E Hx]]; rewrite E; cbn [bind].
    + destruct IH as [[E' Hl] | (E' & Hm & Hl)]; rewrite E'; cbn [bind].
      * left. split; [reflexivity | constructor; assumption].
      * right. split; [reflexivity |]. split; [exact Hm |].
        apply Exists_cons_tl, Hl.
    + right. split; [reflexivity |]. split; [lia |].
      apply Exists_cons_hd. lia.
Qed.

Lemma render_outcome (line : list Z) :
  (render max_digits line = Ret (row_text line) /\
   Forall (fits max_digits) line) \/
  (render max_digits line = Raise ValueError /\ 0 < max_digits /\
   Exists (fun x => max_digits < digits x) line).
Proof.
  unfold render, row_text.
  destruct (strs_outcome line) as [[E H] | (E & Hm & H)]; rewrite E;
    cbn [bind]; [left | right]; repeat split; assumption.
Qed.

Lemma render_fits (line : list Z) :
  Forall (fits max_digits) line ->
  render max_digits line = Ret (row_text line).
Proof.
  intros H. destruct (render_outcome line) as [[E _] | (_ & Hm & Hex)];
    [exact E | exfalso].
  apply Exists_exists in Hex. destruct Hex as (x & Hin & Hx).
  rewrite Forall_forall in H. specialize (H x Hin). unfold fits in H. lia.
Qed.

End StrFacts.

Section PrimeRaises.

Variable rules : option (list ForbiddenCongruence).
Variable start : Z.

(** Nothing in the loop of [primes] raises but the first statement of the
    candidate stream, and that through a zero period. *)
Lemma primes_run_raise (fuel : nat) :
  forall cands e g,
    cand_state (wheel_of (rules_of rules)) start cands ->
    primes_run accept_checked rules start fuel (wheel_of (rules_of rules))
      cands = GRaise e g ->
    e = ZeroDivisionError /\ M (wheel_of (rules_of rules)) = 0.
Proof.
  induction fuel as [| fuel IH]; intros cands e g Hst Hrun;
    [discriminate |].
  cbn [primes_run] in Hrun.
  destruct (cand_next (S fuel) cands) as [m cands' | e' cands' |] eqn:E;
    try discriminate.
  - rewrite (accept_candidate rules start _ _ _ _ Hst E) in Hrun.
    destruct (is_prime_64 m); [discriminate |].
    eapply IH; [| exact Hrun].
    apply (candidate_accept rules start _ _ _ _ Hst E).
  - injection Hrun as <- _.
    destruct Hst as (Hw & Hs & Hpc). unfold cand_next in E.
    rewrite Hw, Hs in E.
    destruct (cg_pc cands) as [| q rest |]; [| | destruct Hpc].
    + unfold Py.floordiv in E.
      destruct (Z.eqb_spec (M (wheel_of (rules_of rules))) 0) as [HM | HM].
      * injection E as <- _. split; [reflexivity | exact HM].
      * apply cand_run_yield_or_diverge in E. destruct E.
    + apply cand_run_yield_or_diverge in E. destruct E.
Qed.

Lemma zero_period_modulus :
  M (wheel_of (rules_of rules)) = 0 ->
  Exists (fun rule => fst rule = 0) (rules_of rules).
Proof.
  intros HM.
  destruct (Forall_Exists_dec (fun rule : ForbiddenCongruence =>
                                 fst rule <> 0)
              (fun rule => match Z.eq_dec (fst rule) 0 with
                           | left E => right (fun H => H E)
                           | right H => left H
                           end) (rules_of rules)) as [Hnz | Hex].
  - exfalso. apply (period_keeps_nonzero _ Hnz). exact HM.
  - eapply Exists_impl; [| exact Hex]. intros rule H. cbn in H. lia.
Qed.

Lemma primes_next_raise (fuel : nat) (g g' : prime_gen) (e : exn) :
  prime_state rules start g ->
  primes_next fuel g = GRaise e g' ->
  e = ZeroDivisionError /\ M (wheel_of (rules_of rules)) = 0.
Proof.
  intros Hst Hnext.
  destruct (primes_next_run rules start fuel g Hst) as (cands & Hc & _ & E).
  rewrite E in Hnext. eapply primes_run_raise; eassumption.
Qed.

End PrimeRaises.

Section PrintFacts.

Variable gfuel : nat.
Variable max_digits count per_line : Z.

Lemma print_loop_rows (k : nat) :
  forall (fuel : nat) (gen : prime_gen) (line : list Z) (done : Z)
         (out : list String.string) (l : list Z),
    Z.to_nat (count - done) = k -> (k < fuel)%nat ->
    first_n primes_next gfuel k gen = Ret l ->
    Forall (fits max_digits) (line ++ l) ->
    (length line < row_width per_line)%nat ->
    exists rows line',
      print_loop fuel gfuel max_digits count per_line gen line done out
      = (out ++ map row_text rows, Ret line') /\
      concat rows ++ line' = line ++ l /\
      Forall (fun row => length row = row_width per_line) rows /\
      (length line' < row_width per_line)%nat.
Proof.
  induction k as [| k IH];
    intros fuel gen line done out l Hk Hf Hrun Hfits Hline;
    (destruct fuel as [| fuel]; [lia |]); cbn [print_loop].
  - destruct (Z.ltb_spec done count); [lia |].
    cbn [first_n] in Hrun. injection Hrun as <-.
    exists [], line. cbn. rewrite !app_nil_r.
    repeat split; [constructor | exact Hline].
  - destruct (Z.ltb_spec done count); [| lia].
    cbn [first_n] in Hrun.
    destruct (primes_next gfuel gen) as [p gen' | e g0 |]; try discriminate.
    destruct (first_n primes_next gfuel k gen') as [l' | e |] eqn:E;
      try discriminate.
    cbn [bind] in Hrun. injection Hrun as <-.
    assert (Hlen : length (line ++ [p]) = S (length line))
      by (rewrite length_app; cbn; lia).
    assert (Hfits' : Forall (fits max_digits) ((line ++ [p]) ++ l'))
      by (rewrite <- app_assoc; exact Hfits).
    unfold row_width in *.
    destruct (Z.geb_spec (Z.of_nat (length (line ++ [p]))) per_line)
      as [Hge | Hlt].
    + rewrite render_fits by (apply Forall_app in Hfits'; tauto).
      destruct (IH fuel gen' [] (done + 1)
                  (out ++ [row_text (line ++ [p])]) l')
        as (rows & line' & Hloop & Hcat & Hrows & Hline');
        [lia | lia | exact E | apply Forall_app in Hfits'; tauto
         | cbn; lia |].
      exists ((line ++ [p]) :: rows), line'.
      rewrite Hloop.
      split; [cbn [map]; rewrite <- app_assoc; reflexivity |]. split.
      * cbn [concat]. rewrite <- app_assoc, Hcat. cbn [app].
        rewrite <- app_assoc. reflexivity.
      * split; [| exact Hline']. constructor; [lia | exact Hrows].
    + destruct (IH fuel gen' (line ++ [p]) (done + 1) out l')
        as (rows & line' & Hloop & Hcat & Hrows & Hline');
        [lia | lia | exact E | exact Hfits' | lia |].
      exists rows, line'. rewrite Hloop.
      split; [reflexivity |]. split; [| split; assumption].
      rewrite Hcat, <- app_assoc. reflexivity.
Qed.

Variable rules : option (list ForbiddenCongruence).
Variable start : Z.

(** What the loop of [print_primes] has done when it is left: the values
    taken from the stream are the rows written and the unwritten rest,
    and only two things make it raise. *)
Lemma print_loop_left (fuel : nat) :
  forall (gen : prime_gen) (line : list Z) (done : Z)
         (out out' : list String.string) (res : outcome (list Z)),
    prime_state rules start gen ->
    (length line < row_width per_line)%nat ->
    print_loop fuel gfuel max_digits count per_line gen line done out
    = (out', res) ->
    res <> Diverge ->
    exists (rows : list (list Z)) (rest ys : list Z) (gen' : prime_gen),
      emits primes_next gen ys gen' /\
      line ++ ys = concat rows ++ rest /\
      out' = out ++ map row_text rows /\
      Forall (fun row => length row = row_width per_line) rows /\
      Forall (fits max_digits) (concat rows) /\
      (ys <> [] -> done < count /\ 0 < M (wheel_of (rules_of rules))) /\
      match res with
      | Ret line' => line' = rest /\ (length rest < row_width per_line)%nat
      | Raise e =>
          done < count /\
          ((e = ValueError /\ 0 < max_digits /\
            Exists (fun x => max_digits < digits x) rest /\
            length rest = row_width per_line) \/
           (e = ZeroDivisionError /\ M (wheel_of (rules_of rules)) = 0 /\
            ys = [] /\ rows = []))
      | Diverge => False
      end.
Proof.
  induction fuel as [| fuel IH];
    intros gen line done out out' res Hst Hline Hloop Hres;
    cbn [print_loop] in Hloop.
  - injection Hloop as _ <-. contradiction.
  - destruct (Z.ltb_spec done count) as [Hlt | Hge].
    + destruct (primes_next gfuel gen) as [p gen1 | e gen1 |] eqn:Enext.
      * destruct (primes_next_ok rules start _ _ _ _ Hst Enext)
          as (Hst1 & _ & _ & HM & _).
        assert (Hlen : length (line ++ [p]) = S (length line))
          by (rewrite length_app; cbn; lia).
        destruct (Z.geb_spec (Z.of_nat (length (line ++ [p]))) per_line)
          as [Hfull | Hshort].
        -- assert (Hrow : length (line ++ [p]) = row_width per_line)
             by (unfold row_width in *; lia).
           destruct (render_outcome max_digits (line ++ [p]))
             as [[E Hfit] | (E & Hm & Hex)]; rewrite E in Hloop.
           ++ assert (Hnil : (length (@nil Z) < row_width per_line)%nat)
                by (cbn; unfold row_width; lia).
              destruct (IH _ _ _ _ _ _ Hst1 Hnil Hloop Hres)
                as (rows & rest & ys & gen' & Hem & Hcat & Hout & Hrows
                    & Hfits & _ & Hend).
              exists ((line ++ [p]) :: rows), rest, (p :: ys), gen'.
              split; [econstructor; eassumption |].
              split; [cbn [concat]; rewrite <- !app_assoc; cbn [app] in *;
                      rewrite Hcat; reflexivity |].
              split; [rewrite Hout; cbn [map]; rewrite <- app_assoc;
                      reflexivity |].
              split; [constructor; assumption |].
              split; [cbn [concat]; apply Forall_app; split; assumption |].
              split; [intros _; split; assumption |].
              destruct res as [line' | e |]; [exact Hend | | exact Hend].
              destruct Hend as [_ [Hv | (_ & Hz & _)]]; [| lia].
              split; [exact Hlt | left; exact Hv].
           ++ injection Hloop as <- <-.
              exists [], (line ++ [p]), [p], gen1.
              split; [econstructor; [exact Enext | constructor] |].
              split; [reflexivity |].
              split; [cbn; rewrite app_nil_r; reflexivity |].
              split; [constructor |]. split; [constructor |].
              split; [intros _; split; assumption |].
              split; [exact Hlt |]. left. repeat split; assumption.
        -- assert (Hline1 : (length (line ++ [p]) < row_width per_line)%nat)
             by (unfold row_width in *; lia).
           destruct (IH _ _ _ _ _ _ Hst1 Hline1 Hloop Hres)
             as (rows & rest & ys & gen' & Hem & Hcat & Hout & Hrows
                 & Hfits & _ & Hend).
           exists rows, rest, (p :: ys), gen'.
           split; [econstructor; eassumption |].
           split; [rewrite <- Hcat, <- app_assoc; reflexivity |].
           split; [exact Hout |]. split; [exact Hrows |].
           split; [exact Hfits |].
           split; [intros _; split; assumption |].
           destruct res as [line' | e |]; [exact Hend | | exact Hend].
           destruct Hend as [_ [Hv | (_ & Hz & _)]]; [| lia].
           split; [exact Hlt | left; exact Hv].
      * injection Hloop as <- <-.
        destruct (primes_next_raise rules start _ _ _ _ Hst Enext)
          as [-> HM].
        exists [], line, [], gen.
        split; [constructor |]. split; [rewrite app_nil_r; reflexivity |].
        split; [cbn; rewrite app_nil_r; reflexivity |].
        split; [constructor |]. split; [constructor |].
        split; [intros H; contradiction |].
        split; [exact Hlt |]. right. repeat split. exact HM.
      * injection Hloop as _ <-. contradiction.
    + injection Hloop as <- <-.
      exists [], line, [], gen.
      split; [constructor |]. split; [rewrite app_nil_r; reflexivity |].
      split; [cbn; rewrite app_nil_r; reflexivity |].
      split; [constructor |]. split; [constructor |].
      split; [intros H; contradiction |].
      split; [reflexivity | exact Hline].
Qed.

End PrintFacts.

Lemma Forall_removelast {A : Type} (P : A -> Prop) (l : list A) :
  Forall P l -> Forall P (removelast l).
Proof.
  induction 1 as [| a l Ha Hl IH]; cbn [removelast]; [constructor |].
  destruct l; [constructor |]. constructor; [exact Ha | exact IH].
Qed.

(** X14: what [print_primes] writes.  When the prime stream supplies
    [count] values and the interpreter converts each of them, the call
    returns, closes the destination if it is a file, and has written one
    string per row: the rows hold the first [count] values of the stream
    in order, every row but the last holds exactly [per_line] values (one
    value if [per_line < 1]), and the last row holds at least one and no
    more.  With [count <= 0] the premises hold for every rule list, so
    nothing is written and the call returns even when a rule has
    modulus 0. *)
Theorem print_primes_rows (fuel gfuel : nat) (max_digits count per_line : Z)
  (rules : option (list ForbiddenCongruence)) (start : Z)
  (out_path : option String.string) (l : list Z) :
  first_n primes_next gfuel (Z.to_nat count) (primes rules start) = Ret l ->
  Forall (fits max_digits) l ->
  (Z.to_nat count < fuel)%nat ->
  exists rows : list (list Z),
    print_primes fuel gfuel max_digits count per_line rules start out_path =
    {| written := map row_text rows; closed := is_file out_path;
       ended := Ret tt |} /\
    concat rows = l /\
    Forall (fun row => length row = row_width per_line) (removelast rows) /\
    Forall (fun row => (0 < length row <= row_width per_line)%nat) rows.
Proof.
  intros Hrun Hfits Hf.
  assert (Hw : (0 < row_width per_line)%nat) by (unfold row_width; lia).
  destruct (print_loop_rows gfuel max_digits count per_line (Z.to_nat count)
              fuel (primes rules start) [] 0 [] l)
    as (rows & line & Hloop & Hcat & Hrows & Hline);
    [f_equal; lia | exact Hf | exact Hrun | exact Hfits | exact Hw |].
  unfold print_primes. rewrite Hloop. cbn [app] in *.
  assert (Hfull : Forall
                    (fun row => (0 < length row <= row_width per_line)%nat)
                    rows).
  { eapply Forall_impl; [| exact Hrows]. intros row Hr. simpl in Hr. lia. }
  destruct line as [| x line].
  - exists rows. rewrite app_nil_r in Hcat.
    split; [reflexivity |]. split; [exact Hcat |].
    split; [apply Forall_removelast, Hrows | exact Hfull].
  - rewrite render_fits
      by (rewrite <- Hcat in Hfits; apply Forall_app in Hfits; tauto).
    exists (rows ++ [x :: line]).
    split; [rewrite map_app; reflexivity |].
    split; [rewrite concat_app; cbn; rewrite app_nil_r; exact Hcat |].
    split; [rewrite removelast_last; exact Hrows |].
    apply Forall_app. split; [exact Hfull |].
    constructor; [cbn in *; lia | constructor].
Qed.

(** X15: how [print_primes] fails.  If the call ends with an exception,
    [count] is positive, the [finally] clause has closed the destination
    if it is a file, and one of two things has happened.  Either the
    exception is [ZeroDivisionError]: then some rule has modulus 0 and
    nothing has been written.  Or it is [ValueError]: then the
    interpreter has a digit limit, the stream has supplied the rows
    written, all full, and after them the values of the row that was not
    written, one of which has more digits than the limit. *)
Theorem print_primes_failure (fuel gfuel : nat)
  (max_digits count per_line : Z)
  (rules : option (list ForbiddenCongruence)) (start : Z)
  (out_path : option String.string) (e : exn) :
  ended (print_primes fuel gfuel max_digits count per_line rules start
           out_path) = Raise e ->
  closed (print_primes fuel gfuel max_digits count per_line rules start
            out_path) = is_file out_path /\
  0 < count /\
  ((e = ZeroDivisionError /\
    Exists (fun rule => fst rule = 0) (rules_of rules) /\
    written (print_primes fuel gfuel max_digits count per_line rules start
               out_path) = []) \/
   (e = ValueError /\ 0 < max_digits /\
    exists (rows : list (list Z)) (rest : list Z) (g : prime_gen),
      emits primes_next (primes rules start) (concat rows ++ rest) g /\
      written (print_primes fuel gfuel max_digits count per_line rules start
                 out_path) = map row_text rows /\
      Forall (fun row => length row = row_width per_line) rows /\
      Forall (fits max_digits) (concat rows) /\
      Exists (fun p => max_digits < digits p) rest /\
      (0 < length rest <= row_width per_line)%nat)).
Proof.
  intros Hend.
  assert (Hw : (0 < row_width per_line)%nat) by (unfold row_width; lia).
  unfold print_primes in *.
  destruct (print_loop fuel gfuel max_digits count per_line
              (primes rules start) [] 0 []) as [out res] eqn:Hloop.
  assert (Hres : res <> Diverge).
  { intros ->. cbn in Hend. discriminate. }
  destruct (print_loop_left gfuel max_digits count per_line rules start fuel
              (primes rules start) [] 0 [] out res
              (prime_state_fresh rules start) Hw Hloop Hres)
    as (rows & rest & ys & g & Hem & Hcat & Hout & Hrows & Hfits & Hys
        & Hleft).
  cbn [app] in Hcat, Hout. subst out ys.
  destruct res as [line | e' |]; [| | contradiction].
  - destruct Hleft as [-> Hshort].
    destruct rest as [| x rest]; [cbn in Hend; discriminate |].
    destruct (render_outcome max_digits (x :: rest))
      as [[E _] | (E & Hm & Hex)]; rewrite E in *; cbn in Hend;
      [discriminate |].
    injection Hend as <-.
    destruct Hys as [Hc _].
    { intros Hnil. apply app_eq_nil in Hnil. destruct Hnil; discriminate. }
    split; [reflexivity |]. split; [exact Hc |]. right.
    split; [reflexivity |]. split; [exact Hm |].
    exists rows, (x :: rest), g.
    repeat split; try assumption; cbn [length] in *; lia.
  - cbn in Hend. injection Hend as ->. cbn [closed written].
    destruct Hleft as [Hc [(-> & Hm & Hex & Hlen) | (-> & HM & Hnil & ->)]].
    + split; [reflexivity |]. split; [exact Hc |]. right.
      split; [reflexivity |]. split; [exact Hm |].
      exists rows, rest, g. repeat split; try assumption; lia.
    + split; [reflexivity |]. split; [exact Hc |]. left.
      split; [reflexivity |].
      split; [apply zero_period_modulus, HM | reflexivity].
Qed.

Section PrintWitnesses.

Import String.
Local Open Scope string_scope.

Lemma print_primes_rows_witness :
  first_n primes_next 5 (Z.to_nat 7) (primes (Some [(2, 0)]) 2)
  = Ret [3; 5; 7; 11; 13; 17; 19] /\
  Forall (fits 4300) [3; 5; 7; 11; 13; 17; 19] /\
  (Z.to_nat 7 < 10)%nat /\
  exists rows : list (list Z),
    print_primes 10 5 4300 7 3 (Some [(2, 0)]) 2 (Some "primes.txt") =
    {| written := List.map row_text rows;
       closed := is_file (Some "primes.txt");
       ended := Ret tt |} /\
    List.concat rows = [3; 5; 7; 11; 13; 17; 19] /\
    Forall (fun row => List.length row = row_width 3) (removelast rows) /\
    Forall (fun row => (0 < List.length row <= row_width 3)%nat) rows.
Proof.
  assert (H1 : first_n primes_next 5 (Z.to_nat 7) (primes (Some [(2, 0)]) 2)
               = Ret [3; 5; 7; 11; 13; 17; 19])
    by (vm_compute; reflexivity).
  assert (H2 : Forall (fits 4300) [3; 5; 7; 11; 13; 17; 19])
    by (repeat (apply Forall_cons; [right; vm_compute; discriminate |]);
        apply Forall_nil).
  assert (H3 : (Z.to_nat 7 < 10)%nat) by (vm_compute; lia).
  split; [exact H1 |]. split; [exact H2 |]. split; [exact H3 |].
  exact (print_primes_rows 10 5 4300 7 3 (Some [(2, 0)]) 2
           (Some "primes.txt") _ H1 H2 H3).
Defined.

Lemma print_primes_failure_witness :
  ended
    (print_primes 3 2 4300 5 12 (Some [(3, 1); (0, 0)]) 2
       (Some "primes.txt"))
  = Raise ZeroDivisionError /\
  closed
    (print_primes 3 2 4300 5 12 (Some [(3, 1); (0, 0)]) 2
       (Some "primes.txt"))
  = is_file (Some "primes.txt") /\
  0 < 5 /\
  ((ZeroDivisionError = ZeroDivisionError /\
    Exists (fun rule => fst rule = 0) (rules_of (Some [(3, 1); (0, 0)])) /\
    written
      (print_primes 3 2 4300 5 12 (Some [(3, 1); (0, 0)]) 2
         (Some "primes.txt"))
    = []) \/
   (ZeroDivisionError = ValueError /\ 0 < 4300 /\
    exists (rows : list (list Z)) (rest : list Z) (g : prime_gen),
      emits primes_next (primes (Some [(3, 1); (0, 0)]) 2)
        (List.concat rows ++ rest) g /\
      written
        (print_primes 3 2 4300 5 12 (Some [(3, 1); (0, 0)]) 2
           (Some "primes.txt"))
      = List.map row_text rows /\
      Forall (fun row => List.length row = row_width 12) rows /\
      Forall (fits 4300) (List.concat rows) /\
      Exists (fun p => 4300 < digits p) rest /\
      (0 < List.length rest <= row_width 12)%nat)).
Proof.
  assert (H : ended
                (print_primes 3 2 4300 5 12 (Some [(3, 1); (0, 0)]) 2
                   (Some "primes.txt")) = Raise ZeroDivisionError)
    by reflexivity.
  split; [exact H |].
  exact (print_primes_failure 3 2 4300 5 12 (Some [(3, 1); (0, 0)]) 2
           (Some "primes.txt") ZeroDivisionError H).
Defined.

End PrintWitnesses.
